(** * Conway-Markdown (cmd.py): a shallow embedding of the replacement engine

    The development follows [cmd.py]: Python strings are sequences of code
    points, Python exceptions and [warnings.warn] diagnostics are threaded
    through a small monad, and every regular expression of the source is
    embedded as a matcher that is run by a model of the scanning loop that
    [re.sub], [re.findall] and [re.finditer] share. *)

From Stdlib Require Import ZArith List Lia Bool String Ascii.
From stdpp Require Import base option list gmap.

Local Open Scope Z_scope.

(** ** Python values *)

Module Py.

(** A Python [str] is a sequence of code points; [bytes] a sequence of
    integers (each in [range(256)] when well formed). *)
Definition str := list Z.
Definition bytes := list Z.

(** ASCII literals of the source, as code points. *)
Definition str_of (s : string) : str :=
  map (fun a => Z.of_N (N_of_ascii a)) (list_ascii_of_string s).
Arguments str_of s%_string.

Definition str_eqb (a b : str) : bool := bool_decide (a = b).

(** The longest prefix of characters satisfying [p], and what follows:
    how a greedy run [[...]*] is consumed. *)
Fixpoint span (p : Z -> bool) (s : str) : str * str :=
  match s with
  | c :: s' => if p c then let (a, b) := span p s' in (c :: a, b) else ([], s)
  | [] => ([], [])
  end.

(** [s] without the literal [p] it starts with, if it does. *)
Fixpoint strip_prefix (p s : str) : option str :=
  match p, s with
  | [], _ => Some s
  | a :: p', b :: s' => if a =? b then strip_prefix p' s' else None
  | _ :: _, [] => None
  end.

Definition startswith (s p : str) : bool :=
  match strip_prefix p s with Some _ => true | None => false end.

(** [\s] under [re.ASCII]: space, [\t], [\n], [\r], [\f], [\v]. *)
Definition is_space (c : Z) : bool :=
  (c =? 32) || ((9 <=? c) && (c <=? 13)).

Definition newline : Z := 10.

(** The exceptions that the modelled code raises; [SystemExit] carries the
    message handed to [print_error] before [sys.exit]. *)
Inductive exn : Type :=
| ValueError
| TypeError
| KeyError
| UnicodeEncodeError
| UncommittedApplyException
| CommittedMutateException
| UnrecognisedLabelException
| MissingAttributeException (missing_attribute : str)
| SystemExit (message : str).

Inductive result (A : Type) : Type :=
| Ok (a : A)
| Raise (e : exn).
Arguments Ok {A} a.
Arguments Raise {A} e.

(** A diagnostic of [warnings.warn]: the byte sequence reported. *)
Definition diag := bytes.

(** Computations: the diagnostics emitted, and how the call ended. *)
Definition py (A : Type) : Type := (list diag * result A)%type.

Definition ret {A} (a : A) : py A := ([], Ok a).
Definition raise {A} (e : exn) : py A := ([], Raise e).
Definition warn (d : diag) : py unit := ([d], Ok tt).

Definition bind {A B} (m : py A) (k : A -> py B) : py B :=
  match m with
  | (w, Ok a) => let (w', r) := k a in (w ++ w', r)
  | (w, Raise e) => (w, Raise e)
  end.

(** [try: m except e: h]. *)
Definition catch {A} (m : py A) (handles : exn -> bool) (h : py A) : py A :=
  match m with
  | (w, Raise e) => if handles e then let (w', r) := h in (w ++ w', r) else (w, Raise e)
  | _ => m
  end.

End Py.

Import Py.

#[global] Instance py_ret : MRet py := @Py.ret.
#[global] Instance py_bind : MBind py := fun A B k m => Py.bind m k.
#[global] Instance py_fmap : FMap py := fun A B f m => Py.bind m (fun a => Py.ret (f a)).

(** ** The scanning loop of [re.sub], [re.findall] and [re.finditer] *)

Module Re.

(** A compiled pattern, tried at one position: [m adv prev s] is given the
    text [s] from that position on and the character [prev] before it
    (for [^] and look-behind), and returns the length of the match found
    by the backtracking search together with its groups.  [adv] is
    [state->must_advance] of the engine: set for the search that follows an
    empty match, it rejects an empty match at that same position. *)
Definition matcher (G : Type) : Type :=
  bool -> option Z -> str -> option (nat * G).

Inductive event (G : Type) : Type :=
| Lit (c : Z)
| Hit (text : str) (g : G).
Arguments Lit {G} c.
Arguments Hit {G} text g.

Section Scan.
Context {G : Type} (m : matcher G).

(** Left to right: at a position where the pattern matches, the match is
    reported and the scan resumes at its end ([skip] counts the
    characters of a match still to pass over); elsewhere the character
    is passed through.  After an empty match the search is repeated at
    the same position with [must_advance]. *)
Fixpoint scan (s : str) (skip : nat) (prev : option Z) : list (event G) :=
  match s with
  | [] =>
      match skip with
      | O => match m false prev [] with
             | Some (_, g) => [Hit [] g]
             | None => []
             end
      | S _ => []
      end
  | c :: s' =>
      match skip with
      | S k => scan s' k (Some c)
      | O =>
          match m false prev s with
          | Some (S n, g) => Hit (take (S n) s) g :: scan s' n (Some c)
          | Some (O, g) =>
              Hit [] g ::
              match m true prev s with
              | Some (S n, g') => Hit (take (S n) s) g' :: scan s' n (Some c)
              | _ => Lit c :: scan s' O (Some c)
              end
          | None => Lit c :: scan s' O (Some c)
          end
      end
  end.

(** [re.finditer(pattern, s)]: the matches, each with its text. *)
Definition finditer (s : str) : list (str * G) :=
  omap (fun ev => match ev with Hit t g => Some (t, g) | Lit _ => None end)
       (scan s O None).

(** [re.sub(pattern, function, s)]: [function] is called on the matches
    from left to right, and its results are joined with the text that
    lies between the matches. *)
Definition join_events (repl : str -> G -> py str) (evs : list (event G))
  : py str :=
  foldr (fun ev rest =>
           match ev with
           | Lit c => (cons c) <$> rest
           | Hit t g => r ← repl t g; tl ← rest; mret (r ++ tl)
           end)
        (mret []) evs.

Definition sub (repl : str -> G -> py str) (s : str) : py str :=
  join_events repl (scan s O None).

(** [re.sub(pattern, repl, s)] for a replacement string [repl] without
    group references. *)
Definition sub_const (repl : str) (s : str) : str :=
  flat_map (fun ev => match ev with Lit c => [c] | Hit _ _ => repl end)
           (scan s O None).

(** [re.findall(pattern, s)] for a pattern without groups. *)
Definition findall (s : str) : list str := map fst (finditer s).
End Scan.

(** [^] under [re.MULTILINE]: at the start, or just after a newline. *)
Definition at_line_start (prev : option Z) : bool :=
  match prev with
  | None => true
  | Some c => c =? newline
  end.

(** [$] under [re.MULTILINE]: at the end, or just before a newline. *)
Definition at_line_end (s : str) : bool :=
  match s with
  | [] => true
  | c :: _ => c =? newline
  end.

End Re.

(** ** UTF-8, as [str.encode()] and [bytes.decode()] use it (strict) *)

Module Utf8.

(** A Unicode scalar value: a code point that is not a surrogate. *)
Definition is_scalar_value (c : Z) : bool :=
  ((0 <=? c) && (c <? 0xD800)) || ((0xE000 <=? c) && (c <? 0x110000)).

Definition is_continuation (b : Z) : bool := (0x80 <=? b) && (b <=? 0xBF).

(** One code point; [None] is [UnicodeEncodeError] (a lone surrogate). *)
Definition encode_code_point (c : Z) : option bytes :=
  if negb (is_scalar_value c) then None
  else if c <? 0x80 then Some [c]
  else if c <? 0x800 then Some [0xC0 + c / 64; 0x80 + c mod 64]
  else if c <? 0x10000 then
    Some [0xE0 + c / 4096; 0x80 + (c / 64) mod 64; 0x80 + c mod 64]
  else
    Some [0xF0 + c / 262144; 0x80 + (c / 4096) mod 64;
          0x80 + (c / 64) mod 64; 0x80 + c mod 64].

Fixpoint encode (s : str) : option bytes :=
  match s with
  | [] => Some []
  | c :: s' =>
      match encode_code_point c, encode s' with
      | Some bs, Some rest => Some (bs ++ rest)
      | _, _ => None
      end
  end.

(** The strict decoder: shortest forms only, no surrogates, nothing above
    U+10FFFF; [None] is [UnicodeDecodeError]. *)
Fixpoint decode (bs : bytes) : option str :=
  match bs with
  | [] => Some []
  | b0 :: t0 =>
      if (0 <=? b0) && (b0 <? 0x80) then cons b0 <$> decode t0
      else if (0xC2 <=? b0) && (b0 <=? 0xDF) then
        match t0 with
        | b1 :: t1 =>
            if is_continuation b1
            then cons ((b0 - 0xC0) * 64 + (b1 - 0x80)) <$> decode t1
            else None
        | _ => None
        end
      else if (0xE0 <=? b0) && (b0 <=? 0xEF) then
        match t0 with
        | b1 :: b2 :: t2 =>
            if is_continuation b1 && is_continuation b2
               && (negb (b0 =? 0xE0) || (0xA0 <=? b1))
               && (negb (b0 =? 0xED) || (b1 <=? 0x9F))
            then cons ((b0 - 0xE0) * 4096 + (b1 - 0x80) * 64 + (b2 - 0x80))
                   <$> decode t2
            else None
        | _ => None
        end
      else if (0xF0 <=? b0) && (b0 <=? 0xF4) then
        match t0 with
        | b1 :: b2 :: b3 :: t3 =>
            if is_continuation b1 && is_continuation b2 && is_continuation b3
               && (negb (b0 =? 0xF0) || (0x90 <=? b1))
               && (negb (b0 =? 0xF4) || (b1 <=? 0x8F))
            then cons ((b0 - 0xF0) * 262144 + (b1 - 0x80) * 4096
                       + (b2 - 0x80) * 64 + (b3 - 0x80))
                   <$> decode t3
            else None
        | _ => None
        end
      else None
  end.

End Utf8.

(** ** [class PlaceholderMaster] *)

Module PlaceholderMaster.

Definition _RUN_CHARACTER_MIN : Z := 0xE000.
Definition _RUN_CHARACTER_MAX : Z := 0xE100.
Definition MARKER : Z := 0xF8FF.
Definition _REPLACEMENT_CHARACTER : Z := 0xFFFD.
Definition _RUN_CODE_POINT_MIN : Z := _RUN_CHARACTER_MIN.

(** [[{_RUN_CHARACTER_MIN}-{_RUN_CHARACTER_MAX}]] *)
Definition is_run_character (c : Z) : bool :=
  (_RUN_CHARACTER_MIN <=? c) && (c <=? _RUN_CHARACTER_MAX).

(** [_PLACEHOLDER_PATTERN_COMPILED]:
    [{MARKER} (?P<run_characters> [...]* ) {MARKER}].
    The run is greedy; a shorter run would have to be followed by the
    marker, which is no run character, so only the longest run can match.
    The group is [run_characters]. *)
Definition _PLACEHOLDER_PATTERN_COMPILED : Re.matcher str :=
  fun _ _ s =>
    match s with
    | c :: t =>
        if c =? MARKER then
          let (run_characters, rest) := span is_run_character t in
          match rest with
          | c' :: _ =>
              if c' =? MARKER
              then Some (S (S (length run_characters)), run_characters)
              else None
          | [] => None
          end
        else None
    | [] => None
    end.

(** [bytes(iterable)]: [ValueError] unless every item is in [range(256)]. *)
Definition bytes_of (l : list Z) : py bytes :=
  if forallb (fun b => (0 <=? b) && (b <? 256)) l then mret l
  else raise ValueError.

Definition _unprotect_substitute_function (_ : str) (run_characters : str)
  : py str :=
  string_bytes ← bytes_of (map (fun character => character - _RUN_CODE_POINT_MIN)
                             run_characters);
  match Utf8.decode string_bytes with
  | Some string => mret string
  | None => _ ← warn string_bytes; mret [_REPLACEMENT_CHARACTER]
  end.

Definition unprotect (string : str) : py str :=
  Re.sub _PLACEHOLDER_PATTERN_COMPILED _unprotect_substitute_function string.

(** [str.encode()]. *)
Definition encode (string : str) : py bytes :=
  match Utf8.encode string with
  | Some bs => mret bs
  | None => raise UnicodeEncodeError
  end.

Definition protect (string : str) : py str :=
  let marker := MARKER in
  string ← unprotect string;
  string_bytes ← encode string;
  let run_characters := map (fun byte => byte + _RUN_CODE_POINT_MIN) string_bytes in
  mret ([marker] ++ run_characters ++ [marker]).

(** [re.sub(MARKER, protect(MARKER), string)]: the pattern is the marker
    itself, the replacement a plain string. *)
Definition marker_pattern : Re.matcher unit :=
  fun _ _ s =>
    match s with
    | c :: _ => if c =? MARKER then Some (1%nat, tt) else None
    | [] => None
    end.

Definition replace_marker_occurrences (string : str) : py str :=
  placeholder ← protect [MARKER];
  Re.sub marker_pattern (fun _ _ => mret placeholder) string.

End PlaceholderMaster.

(** ** [class Replacement] *)

Module Replacement.

(** A rule object: the attributes of the base class, and what its concrete
    class provides for the abstract methods [_validate_mandatory_attributes]
    (the name of a missing attribute, if one is missing) and [_apply] (with
    the variables that [_set_apply_method_variables] computes at commit).
    Other rules are held by reference; [_queue_reference_replacement]
    names the referenced object by its id, which the master keeps unique.
    The trace printed in verbose mode is not part of the model. *)
Record t : Type := {
  _is_committed : bool;
  _id : str;
  _queue_position_type : option str;
  _queue_reference_replacement : option str;
  _positive_flag_name : option str;
  _negative_flag_name : option str;
  _validate_mandatory_attributes : option str;
  _apply : str -> py str;
}.

(** [__init__(id_, ...)] for a class given by its two methods. *)
Definition init (id_ : str) (validate : option str) (apply_ : str -> py str) : t :=
  {| _is_committed := false; _id := id_;
     _queue_position_type := None; _queue_reference_replacement := None;
     _positive_flag_name := None; _negative_flag_name := None;
     _validate_mandatory_attributes := validate; _apply := apply_ |}.

Definition set_queue_position_type (self : t) (value : option str) : py t :=
  if _is_committed self then raise CommittedMutateException
  else mret {| _is_committed := _is_committed self; _id := _id self;
               _queue_position_type := value;
               _queue_reference_replacement := _queue_reference_replacement self;
               _positive_flag_name := _positive_flag_name self;
               _negative_flag_name := _negative_flag_name self;
               _validate_mandatory_attributes := _validate_mandatory_attributes self;
               _apply := _apply self |}.

Definition set_queue_reference_replacement (self : t) (value : option str) : py t :=
  if _is_committed self then raise CommittedMutateException
  else mret {| _is_committed := _is_committed self; _id := _id self;
               _queue_position_type := _queue_position_type self;
               _queue_reference_replacement := value;
               _positive_flag_name := _positive_flag_name self;
               _negative_flag_name := _negative_flag_name self;
               _validate_mandatory_attributes := _validate_mandatory_attributes self;
               _apply := _apply self |}.

Definition set_positive_flag_name (self : t) (value : option str) : py t :=
  if _is_committed self then raise CommittedMutateException
  else mret {| _is_committed := _is_committed self; _id := _id self;
               _queue_position_type := _queue_position_type self;
               _queue_reference_replacement := _queue_reference_replacement self;
               _positive_flag_name := value;
               _negative_flag_name := _negative_flag_name self;
               _validate_mandatory_attributes := _validate_mandatory_attributes self;
               _apply := _apply self |}.

Definition set_negative_flag_name (self : t) (value : option str) : py t :=
  if _is_committed self then raise CommittedMutateException
  else mret {| _is_committed := _is_committed self; _id := _id self;
               _queue_position_type := _queue_position_type self;
               _queue_reference_replacement := _queue_reference_replacement self;
               _positive_flag_name := _positive_flag_name self;
               _negative_flag_name := value;
               _validate_mandatory_attributes := _validate_mandatory_attributes self;
               _apply := _apply self |}.

Definition commit (self : t) : py t :=
  match _validate_mandatory_attributes self with
  | Some missing_attribute => raise (MissingAttributeException missing_attribute)
  | None =>
      mret {| _is_committed := true; _id := _id self;
              _queue_position_type := _queue_position_type self;
              _queue_reference_replacement := _queue_reference_replacement self;
              _positive_flag_name := _positive_flag_name self;
              _negative_flag_name := _negative_flag_name self;
              _validate_mandatory_attributes := _validate_mandatory_attributes self;
              _apply := _apply self |}
  end.

(** [apply(self, string, enabled_flag_names=None)]; the omitted argument
    is [None]. *)
Definition apply (self : t) (string : str) (enabled_flag_names : option (gset str))
  : py str :=
  if negb (_is_committed self) then raise UncommittedApplyException
  else
    let gated :=
      match enabled_flag_names with
      | Some enabled_flag_names =>
          match _positive_flag_name self with
          | Some positive_flag_name =>
              if bool_decide (positive_flag_name ∉ enabled_flag_names) then true
              else
                match _negative_flag_name self with
                | Some negative_flag_name =>
                    bool_decide (negative_flag_name ∈ enabled_flag_names)
                | None => false
                end
          | None =>
              match _negative_flag_name self with
              | Some negative_flag_name =>
                  bool_decide (negative_flag_name ∈ enabled_flag_names)
              | None => false
              end
          end
      | None => false
      end in
    if gated then mret string else _apply self string.

End Replacement.

(** ** [class ReplacementMaster] *)

Module ReplacementMaster.

Record t : Type := {
  _replacement_from_id : gmap str Replacement.t;
  _root_replacement_id : option str;
  _replacement_queue : list Replacement.t;
}.

Definition init : t :=
  {| _replacement_from_id := ∅; _root_replacement_id := None;
     _replacement_queue := [] |}.

(** [print_error(message, ...)] followed by [sys.exit]. *)
Definition exit_with {A} (message : str) : py A := raise (SystemExit message).

Definition is_letter (c : Z) : bool :=
  ((65 <=? c) && (c <=? 90)) || ((97 <=? c) && (c <=? 122)).
Definition is_lower (c : Z) : bool := (97 <=? c) && (c <=? 122).
Definition is_digit (c : Z) : bool := (48 <=? c) && (c <=? 57).

(** [[a-z0-9-.]] *)
Definition is_declared_id_character (c : Z) : bool :=
  is_lower c || is_digit c || (c =? 45) || (c =? 46).

(** [[a-z-.]] *)
Definition is_queue_reference_id_character (c : Z) : bool :=
  is_lower c || (c =? 45) || (c =? 46).

(** [compute_class_declaration_match]: [re.fullmatch] of
    [(?P<class_name> [A-Za-z]+ ) [:] [\s]+ [#] (?P<id_> [a-z0-9-.]+ )];
    the groups [(class_name, id_)], or [None].  Each run is followed by a
    character outside its class, so only the longest run can match. *)
Definition compute_class_declaration_match (line : str) : option (str * str) :=
  let (class_name, rest) := span is_letter line in
  match class_name, rest with
  | _ :: _, c :: rest =>
      if c =? 58 then
        let (spaces, rest) := span is_space rest in
        match spaces, rest with
        | _ :: _, c :: rest =>
            if c =? 35 then
              let (id_, rest) := span is_declared_id_character rest in
              match id_, rest with
              | _ :: _, [] => Some (class_name, id_)
              | _, _ => None
              end
            else None
        | _, _ => None
        end
      else None
  | _, _ => None
  end.

(** The groups of the match of [compute_queue_position_match]. *)
Record queue_position_match : Type := {
  none_keyword : option str;
  root_keyword : option str;
  queue_position_type : option str;
  queue_reference_id : option str;
  invalid_value : option str;
}.

Definition no_groups : queue_position_match :=
  {| none_keyword := None; root_keyword := None; queue_position_type := None;
     queue_reference_id := None; invalid_value := None |}.

(** The literal [keyword], then [[\s]*] up to the end of the value. *)
Definition keyword_to_end (keyword value : str) : bool :=
  match strip_prefix keyword value with
  | Some rest => forallb is_space rest
  | None => false
  end.

(** [[ ] [#] (?P<queue_reference_id> [a-z-.]+ ) [\s]*] up to the end. *)
Definition reference_to_end (value : str) : option str :=
  match strip_prefix (str_of " #") value with
  | Some rest =>
      let (id_, rest) := span is_queue_reference_id_character rest in
      match id_ with
      | _ :: _ => if forallb is_space rest then Some id_ else None
      | [] => None
      end
  | None => None
  end.

(** [(?P<invalid_value> [\s\S]*? ) [\s]*] up to the end: the lazy group
    grows until only whitespace follows it. *)
Fixpoint lazy_to_trailing_space (value : str) : str :=
  if forallb is_space value then []
  else match value with
       | c :: value' => c :: lazy_to_trailing_space value'
       | [] => []
       end.

(** [compute_queue_position_match]: [re.fullmatch] of
    [[\s]* (?: (?P<none_keyword> NONE ) | (?P<root_keyword> ROOT )
       | (?P<queue_position_type> BEFORE | AFTER ) [ ] [#]
         (?P<queue_reference_id> [a-z-.]+ )
       | (?P<invalid_value> [\s\S]*? ) ) [\s]*].
    The leading run is greedy and the last alternative matches whatever
    follows it, so the alternatives are tried once, in order, after the
    longest leading run. *)
Definition compute_queue_position_match (attribute_value : str)
  : queue_position_match :=
  let (_, value) := span is_space attribute_value in
  if keyword_to_end (str_of "NONE") value then
    {| none_keyword := Some (str_of "NONE"); root_keyword := None;
       queue_position_type := None; queue_reference_id := None;
       invalid_value := None |}
  else if keyword_to_end (str_of "ROOT") value then
    {| none_keyword := None; root_keyword := Some (str_of "ROOT");
       queue_position_type := None; queue_reference_id := None;
       invalid_value := None |}
  else
    let positioned (keyword : str) : option queue_position_match :=
      match strip_prefix keyword value with
      | Some rest =>
          match reference_to_end rest with
          | Some id_ =>
              Some {| none_keyword := None; root_keyword := None;
                      queue_position_type := Some keyword;
                      queue_reference_id := Some id_;
                      invalid_value := None |}
          | None => None
          end
      | None => None
      end in
    match positioned (str_of "BEFORE") with
    | Some m => m
    | None =>
        match positioned (str_of "AFTER") with
        | Some m => m
        | None =>
            {| none_keyword := None; root_keyword := None;
               queue_position_type := None; queue_reference_id := None;
               invalid_value := Some (lazy_to_trailing_space value) |}
        end
    end.

(** [replacement in self._replacement_queue] and
    [self._replacement_queue.index(replacement)]: objects are compared by
    identity, which the id stands for. *)
Fixpoint queue_index (queue : list Replacement.t) (id_ : str) : option nat :=
  match queue with
  | [] => None
  | r :: queue' =>
      if str_eqb (Replacement._id r) id_ then Some O
      else S <$> queue_index queue' id_
  end.

(** [list.insert(index, x)] *)
Definition list_insert {A} (index : nat) (x : A) (l : list A) : list A :=
  take index l ++ x :: drop index l.

(** [stage_queue_position]: the replacement with its queue position set. *)
Definition stage_queue_position (self : t) (replacement : Replacement.t)
  (attribute_value : str) : py Replacement.t :=
  let queue_position_match := compute_queue_position_match attribute_value in
  match invalid_value queue_position_match with
  | Some invalid_value =>
      exit_with (str_of "invalid value `" ++ invalid_value
                   ++ str_of "` for attribute `queue_position`")
  | None =>
      match none_keyword queue_position_match with
      | Some _ => mret replacement
      | None =>
          match root_keyword queue_position_match with
          | Some _ =>
              match _root_replacement_id self with
              | Some root_replacement_id =>
                  exit_with (str_of "root replacement already declared (`#"
                               ++ root_replacement_id ++ str_of "`)")
              | None =>
                  replacement ←
                    Replacement.set_queue_position_type replacement
                      (Some (str_of "ROOT"));
                  Replacement.set_queue_reference_replacement replacement None
              end
          | None =>
              let queue_position_type := queue_position_type queue_position_match in
              let queue_reference_id :=
                default [] (queue_reference_id queue_position_match) in
              if str_eqb queue_reference_id (Replacement._id replacement) then
                exit_with (str_of "self-referential `queue_position`")
              else
                match _replacement_from_id self !! queue_reference_id with
                | None =>
                    exit_with (str_of "undefined replacement `#"
                                 ++ queue_reference_id ++ str_of "`")
                | Some queue_reference_replacement =>
                    match queue_index (_replacement_queue self)
                            (Replacement._id queue_reference_replacement) with
                    | None =>
                        exit_with (str_of "replacement `#" ++ queue_reference_id
                                     ++ str_of "` not in queue")
                    | Some _ =>
                        replacement ←
                          Replacement.set_queue_position_type replacement
                            queue_position_type;
                        Replacement.set_queue_reference_replacement replacement
                          (Some (Replacement._id queue_reference_replacement))
                    end
                end
          end
      end
  end.

(** [commit]: the master with the committed replacement registered and
    queued. *)
Definition commit (self : t) (class_name : str) (replacement : Replacement.t)
  : py t :=
  replacement ←
    catch (Replacement.commit replacement)
      (fun e => match e with MissingAttributeException _ => true | _ => false end)
      (exit_with
         (str_of "missing attribute `"
            ++ default [] (Replacement._validate_mandatory_attributes replacement)
            ++ str_of "` for " ++ class_name));
  let id_ := Replacement._id replacement in
  let replacement_from_id := <[id_ := replacement]> (_replacement_from_id self) in
  match Replacement._queue_position_type replacement with
  | None =>
      mret {| _replacement_from_id := replacement_from_id;
              _root_replacement_id := _root_replacement_id self;
              _replacement_queue := _replacement_queue self |}
  | Some queue_position_type =>
      if str_eqb queue_position_type (str_of "ROOT") then
        mret {| _replacement_from_id := replacement_from_id;
                _root_replacement_id := Some id_;
                _replacement_queue := _replacement_queue self ++ [replacement] |}
      else
        match Replacement._queue_reference_replacement replacement
                ≫= queue_index (_replacement_queue self) with
        | None => raise ValueError
        | Some queue_reference_index =>
            if str_eqb queue_position_type (str_of "BEFORE") then
              mret {| _replacement_from_id := replacement_from_id;
                      _root_replacement_id := _root_replacement_id self;
                      _replacement_queue :=
                        list_insert queue_reference_index replacement
                          (_replacement_queue self) |}
            else if str_eqb queue_position_type (str_of "AFTER") then
              mret {| _replacement_from_id := replacement_from_id;
                      _root_replacement_id := _root_replacement_id self;
                      _replacement_queue :=
                        list_insert (S queue_reference_index) replacement
                          (_replacement_queue self) |}
            else raise TypeError
        end
  end.

(** [execute]: every queued rule, in queue order, with the flags argument
    omitted. *)
Definition execute (self : t) (string : str) : py str :=
  foldl (fun string replacement =>
           string ← string; Replacement.apply replacement string None)
        (mret string) (_replacement_queue self).

End ReplacementMaster.

(** A declaration of [legislate] with one attribute: after the class
    declaration line has produced [replacement], the line
    [- queue_position:«attribute_value»] is staged and the declaration is
    committed at the line that ends it. *)
Definition declare_with_queue_position (self : ReplacementMaster.t)
  (class_name : str) (replacement : Replacement.t) (attribute_value : str)
  : py ReplacementMaster.t :=
  replacement ← ReplacementMaster.stage_queue_position self replacement attribute_value;
  ReplacementMaster.commit self class_name replacement.

(** ** [compute_longest_common_prefix] and [de_indent] *)

Module DeIndent.

(** [[^\S\n]]: whitespace other than the newline. *)
Definition is_horizontal_space (c : Z) : bool :=
  is_space c && negb (c =? newline).

(** [min(strings, key=len, default='')]: the first of the shortest. *)
Definition shortest (strings : list str) : str :=
  match strings with
  | [] => []
  | x :: rest =>
      foldl (fun best y => if (length y <? length best)%nat then y else best)
            x rest
  end.

(** The [while] loop on [prefix = shortest_string[:n]]. *)
Fixpoint shrink (strings : list str) (shortest_string : str) (n : nat) : str :=
  match n with
  | O => []
  | S k =>
      if forallb (fun string => startswith string (take n shortest_string)) strings
      then take n shortest_string
      else shrink strings shortest_string k
  end.

Definition compute_longest_common_prefix (strings : list str) : str :=
  let shortest_string := shortest strings in
  shrink strings shortest_string (length shortest_string).

(** [^ [^\S\n]+ \Z]: the run is greedy and must reach the end of the
    string. *)
Definition last_line_pattern : Re.matcher unit :=
  fun _ prev s =>
    if Re.at_line_start prev then
      match s with
      | _ :: _ => if forallb is_horizontal_space s then Some (length s, tt) else None
      | [] => None
      end
    else None.

(** [^ [^\S\n]+ | ^ (?! $ )]: the indentation of a line that starts with
    whitespace; else the empty string, unless the line is empty. *)
Definition indentation_pattern : Re.matcher unit :=
  fun adv prev s =>
    if Re.at_line_start prev then
      let (indentation, _) := span is_horizontal_space s in
      match indentation with
      | _ :: _ => Some (length indentation, tt)
      | [] => if Re.at_line_end s || adv then None else Some (O, tt)
      end
    else None.

(** [^ {re.escape(longest_common_indentation)}]: the literal at the start
    of a line. *)
Definition line_prefix_pattern (literal : str) : Re.matcher unit :=
  fun adv prev s =>
    if Re.at_line_start prev then
      match strip_prefix literal s with
      | Some _ =>
          match literal with
          | [] => if adv then None else Some (O, tt)
          | _ :: _ => Some (length literal, tt)
          end
      | None => None
      end
    else None.

Definition de_indent (string : str) : str :=
  let string := Re.sub_const last_line_pattern [] string in
  let indentations := Re.findall indentation_pattern string in
  let longest_common_indentation := compute_longest_common_prefix indentations in
  Re.sub_const (line_prefix_pattern longest_common_indentation) [] string.

(** *** De-indentation as the specification words it *)

(** The lines of a text: what stands between its newlines. *)
Fixpoint lines (s : str) : list str :=
  match s with
  | [] => [[]]
  | c :: s' =>
      if c =? newline then [] :: lines s'
      else match lines s' with
           | l :: ls => (c :: l) :: ls
           | [] => [[c]]
           end
  end.

Fixpoint unlines (ls : list str) : str :=
  match ls with
  | [] => []
  | [l] => l
  | l :: ls' => l ++ newline :: unlines ls'
  end.

(** The last line is erased when it consists of whitespace only. *)
Fixpoint erase_last_line (ls : list str) : list str :=
  match ls with
  | [] => []
  | [l] => if forallb is_horizontal_space l then [[]] else [l]
  | l :: ls' => l :: erase_last_line ls'
  end.

Definition leading_whitespace (line : str) : str :=
  fst (span is_horizontal_space line).

Fixpoint common_prefix (a b : str) : str :=
  match a, b with
  | x :: a', y :: b' => if x =? y then x :: common_prefix a' b' else []
  | _, _ => []
  end.

Definition longest_common_prefix (strings : list str) : str :=
  match strings with
  | [] => []
  | x :: rest => foldl common_prefix x rest
  end.

Definition is_nonempty (l : str) : bool :=
  match l with [] => false | _ :: _ => true end.

Definition de_indent_spec (string : str) : str :=
  let ls := erase_last_line (lines string) in
  let prefix :=
    longest_common_prefix (map leading_whitespace (List.filter is_nonempty ls)) in
  unlines (map (drop (length prefix)) ls).

End DeIndent.

(** ** [class DeIndentationReplacement] *)

Module DeIndentationReplacement.

(** Attributes [queue_position], [positive_flag], [negative_flag]; none
    mandatory; [_apply] is [de_indent]. *)
Definition init (id_ : str) : Replacement.t :=
  Replacement.init id_ None (fun string => mret (DeIndent.de_indent string)).

End DeIndentationReplacement.

(** The condition under which [apply] leaves the text alone: a positive flag
    is set and absent from the enabled flags, or a negative flag is set and
    among them. *)
Definition gated (r : Replacement.t) (enabled_flag_names : gset str) : Prop :=
  (exists p, Replacement._positive_flag_name r = Some p /\ p ∉ enabled_flag_names)
  \/ (exists n, Replacement._negative_flag_name r = Some n /\ n ∈ enabled_flag_names).

(** A committed de-indentation rule [#d] with [positive_flag: F]. *)
Definition flagged_de_indentation : Replacement.t :=
  {| Replacement._is_committed := true;
     Replacement._id := str_of "d";
     Replacement._queue_position_type := None;
     Replacement._queue_reference_replacement := None;
     Replacement._positive_flag_name := Some (str_of "F");
     Replacement._negative_flag_name := None;
     Replacement._validate_mandatory_attributes := None;
     Replacement._apply := fun string => mret (DeIndent.de_indent string) |}.

(** ** [class OrdinaryDictionaryReplacement] *)

Module OrdinaryDictionaryReplacement.

(** The attributes that the methods of the class read: [_is_committed] of
    the base class, the dictionary (a [dict] keeps the order in which its
    keys were first inserted), the mode, and the concluding replacements. *)
Record t : Type := {
  _is_committed : bool;
  _substitute_from_pattern : list (str * str);
  _apply_substitutions_simultaneously : bool;
  _concluding_replacements : list Replacement.t;
}.

(** [d[k] = v] *)
Fixpoint dict_set (d : list (str * str)) (k v : str) : list (str * str) :=
  match d with
  | [] => [(k, v)]
  | (k', v') :: d' =>
      if str_eqb k' k then (k', v) :: d' else (k', v') :: dict_set d' k v
  end.

(** [d[k]] *)
Fixpoint dict_get (d : list (str * str)) (k : str) : option str :=
  match d with
  | [] => None
  | (k', v') :: d' => if str_eqb k' k then Some v' else dict_get d' k
  end.

Definition init : t :=
  {| _is_committed := false;
     _substitute_from_pattern := [];
     _apply_substitutions_simultaneously := true;
     _concluding_replacements := [] |}.

Definition add_substitution (self : t) (pattern substitute : str) : py t :=
  if _is_committed self then raise CommittedMutateException
  else
    mret {| _is_committed := _is_committed self;
            _substitute_from_pattern :=
              dict_set (_substitute_from_pattern self) pattern substitute;
            _apply_substitutions_simultaneously :=
              _apply_substitutions_simultaneously self;
            _concluding_replacements := _concluding_replacements self |}.

Definition is_empty (s : str) : bool :=
  match s with [] => true | _ :: _ => false end.

(** A literal tried at one position; an empty literal matches everywhere,
    but not again where an empty match has just been made. *)
Definition literal_matches (adv : bool) (literal s : str) : bool :=
  startswith s literal && negb (adv && is_empty literal).

(** [build_simultaneous_regex_pattern]: ['|'.join(re.escape(pattern) ...)],
    the alternatives tried in the order of the dictionary. *)
Fixpoint first_alternative (adv : bool) (d : list (str * str)) (s : str)
  : option (nat * unit) :=
  match d with
  | [] => None
  | (pattern, _) :: d' =>
      if literal_matches adv pattern s then Some (length pattern, tt)
      else first_alternative adv d' s
  end.

Definition build_simultaneous_regex_pattern (substitute_from_pattern : list (str * str))
  : Re.matcher unit :=
  fun adv _ s => first_alternative adv substitute_from_pattern s.

(** [for replacement in replacements: string = replacement.apply(string)] *)
Definition apply_each (replacements : list Replacement.t) (string : str) : py str :=
  foldl (fun string replacement =>
           string ← string; Replacement.apply replacement string None)
        (mret string) replacements.

Definition build_simultaneous_substitute_function (self : t)
  (substitute_from_pattern : list (str * str)) : str -> unit -> py str :=
  fun pattern _ =>
    match dict_get substitute_from_pattern pattern with
    | Some substitute => apply_each (_concluding_replacements self) substitute
    | None => raise KeyError
    end.

Definition simultaneous_apply (self : t) (string : str) : py str :=
  if (0 <? length (_substitute_from_pattern self))%nat then
    Re.sub (build_simultaneous_regex_pattern (_substitute_from_pattern self))
      (build_simultaneous_substitute_function self (_substitute_from_pattern self))
      string
  else mret string.

(** [str.replace(old, new)]: the occurrences of [old] from left to right,
    none overlapping another; an empty [old] occurs before every character
    and at the end. *)
Definition str_replace (old new s : str) : str :=
  Re.sub_const (fun adv _ s => if literal_matches adv old s
                               then Some (length old, tt) else None)
    new s.

Definition sequential_apply (self : t) (string : str) : py str :=
  let string :=
    foldl (fun string '(pattern, substitute) => str_replace pattern substitute string)
          string (_substitute_from_pattern self) in
  apply_each (_concluding_replacements self) string.

Definition _apply (self : t) (string : str) : py str :=
  if _apply_substitutions_simultaneously self then simultaneous_apply self string
  else sequential_apply self string.

(** The rule object, committed. *)
Definition committed (id_ : str) (self : t) : Replacement.t :=
  {| Replacement._is_committed := true;
     Replacement._id := id_;
     Replacement._queue_position_type := None;
     Replacement._queue_reference_replacement := None;
     Replacement._positive_flag_name := None;
     Replacement._negative_flag_name := None;
     Replacement._validate_mandatory_attributes := None;
     Replacement._apply := _apply self |}.

(** *** Sequential mode as the specification words it *)

(** Each substitute value is threaded through the concluding replacements
    before it is inserted. *)
Definition sequential_apply_as_specified (self : t) (string : str) : py str :=
  foldl (fun string '(pattern, substitute) =>
           string ← string;
           substitute ← apply_each (_concluding_replacements self) substitute;
           mret (str_replace pattern substitute string))
        (mret string) (_substitute_from_pattern self).

(** [new] stands for every occurrence of [old], found from left to right. *)
Inductive replaced_everywhere (old new : str) : str -> str -> Prop :=
| replaced_empty s :
    old = [] ->
    replaced_everywhere old new s (new ++ flat_map (fun c => c :: new) s)
| replaced_end :
    old <> [] -> replaced_everywhere old new [] []
| replaced_hit r r' :
    old <> [] ->
    replaced_everywhere old new r r' ->
    replaced_everywhere old new (old ++ r) (new ++ r')
| replaced_pass c s s' :
    old <> [] ->
    ~ old `prefix_of` (c :: s) ->
    replaced_everywhere old new s s' ->
    replaced_everywhere old new (c :: s) (c :: s').

(** The patterns in declaration order, each everywhere before the next. *)
Inductive replaced_in_order : list (str * str) -> str -> str -> Prop :=
| in_order_nil s : replaced_in_order [] s s
| in_order_cons old new d s s1 s2 :
    replaced_everywhere old new s s1 ->
    replaced_in_order d s1 s2 ->
    replaced_in_order ((old, new) :: d) s s2.

End OrdinaryDictionaryReplacement.

(** A sequential rule [a --> b] whose concluding replacement is the rule
    [c --> d]. *)
Definition rule_c_to_d : Replacement.t :=
  OrdinaryDictionaryReplacement.committed (str_of "c-to-d")
    {| OrdinaryDictionaryReplacement._is_committed := true;
       OrdinaryDictionaryReplacement._substitute_from_pattern :=
         [(str_of "c", str_of "d")];
       OrdinaryDictionaryReplacement._apply_substitutions_simultaneously := true;
       OrdinaryDictionaryReplacement._concluding_replacements := [] |}.

Definition rule_a_to_b_sequential : OrdinaryDictionaryReplacement.t :=
  {| OrdinaryDictionaryReplacement._is_committed := true;
     OrdinaryDictionaryReplacement._substitute_from_pattern := [(str_of "a", str_of "b")];
     OrdinaryDictionaryReplacement._apply_substitutions_simultaneously := false;
     OrdinaryDictionaryReplacement._concluding_replacements := [rule_c_to_d] |}.

(** No pattern is a prefix of another one. *)
Definition prefix_free (d : list (str * str)) : Prop :=
  forall p q, p ∈ map fst d -> q ∈ map fst d -> p `prefix_of` q -> p = q.

Definition simultaneous (d : list (str * str)) (concluding : list Replacement.t)
  : OrdinaryDictionaryReplacement.t :=
  {| OrdinaryDictionaryReplacement._is_committed := true;
     OrdinaryDictionaryReplacement._substitute_from_pattern := d;
     OrdinaryDictionaryReplacement._apply_substitutions_simultaneously := true;
     OrdinaryDictionaryReplacement._concluding_replacements := concluding |}.

(** ** Attribute specifications *)

Module Attributes.

Definition is_letter (c : Z) : bool :=
  ((65 <=? c) && (c <=? 90)) || ((97 <=? c) && (c <=? 122)).
Definition is_digit (c : Z) : bool := (48 <=? c) && (c <=? 57).
Definition is_hex_digit (c : Z) : bool :=
  is_digit c || ((65 <=? c) && (c <=? 70)) || ((97 <=? c) && (c <=? 102)).

Definition quote : Z := 34.
Definition apostrophe : Z := 39.

(** [x{1,n}] followed by [[;]]: the run is greedy and the semicolon is not
    in the class, so the whole run must be of a length from 1 to [n]. *)
Definition run_then_semicolon (p : Z -> bool) (n : nat) (s : str) : bool :=
  let (run, rest) := span p s in
  (0 <? length run)%nat && (length run <=? n)%nat
  && match rest with c :: _ => c =? 59 | [] => false end.

(** What the look-ahead of [escape_attribute_value_html] looks for:
    [(?: [a-zA-Z]{1,31} | [#] (?: [0-9]{1,7} | [xX] [0-9a-fA-F]{1,6} ) ) [;]] *)
Definition entity_follows (s : str) : bool :=
  run_then_semicolon is_letter 31 s
  || match s with
     | c :: s' =>
         (c =? 35)
         && (run_then_semicolon is_digit 7 s'
             || match s' with
                | x :: s'' =>
                    ((x =? 120) || (x =? 88)) && run_then_semicolon is_hex_digit 6 s''
                | [] => false
                end)
     | [] => false
     end.

(** [[&] (?! ... )] *)
Definition bare_ampersand : Re.matcher unit :=
  fun _ _ s =>
    match s with
    | c :: s' => if (c =? 38) && negb (entity_follows s') then Some (1%nat, tt) else None
    | [] => None
    end.

Definition character (x : Z) : Re.matcher unit :=
  fun _ _ s =>
    match s with
    | c :: _ => if c =? x then Some (1%nat, tt) else None
    | [] => None
    end.

Definition escape_attribute_value_html (value : str) : str :=
  let value := Re.sub_const bare_ampersand (str_of "&amp;") value in
  let value := Re.sub_const (character 60) (str_of "&lt;") value in
  let value := Re.sub_const (character 62) (str_of "&gt;") value in
  Re.sub_const (character quote) (str_of "&quot;") value.

(** The named groups of [compute_attribute_specification_matches]. *)
Record groups : Type := {
  name : option str;
  double_quoted_value : option str;
  single_quoted_value : option str;
  bare_value : option str;
  id_ : option str;
  class_ : option str;
  rowspan : option str;
  colspan : option str;
  width : option str;
  height : option str;
  delete_name : option str;
  boolean_name : option str;
}.

Definition no_groups : groups :=
  {| name := None; double_quoted_value := None; single_quoted_value := None;
     bare_value := None; id_ := None; class_ := None; rowspan := None;
     colspan := None; width := None; height := None; delete_name := None;
     boolean_name := None |}.

Definition not_space (c : Z) : bool := negb (is_space c).

(** [«q» (?P<...> [\s\S]*? ) «q»]: lazy, up to the next [«q»]. *)
Definition quoted (q : Z) (s : str) : option (nat * str) :=
  match s with
  | c :: s' =>
      if c =? q then
        let (value, rest) := span (fun x => negb (x =? q)) s' in
        match rest with
        | _ :: _ => Some (S (S (length value)), value)
        | [] => None
        end
      else None
  | [] => None
  end.

(** [«c» (?P<...> «class»+ )] *)
Definition prefixed (c : Z) (p : Z -> bool) (s : str) : option (nat * str) :=
  match s with
  | x :: s' =>
      if x =? c then
        let (run, _) := span p s' in
        match run with
        | _ :: _ => Some (S (length run), run)
        | [] => None
        end
      else None
  | [] => None
  end.

(** The alternatives of the optional group, in order, at a text that does
    not start with whitespace: the length matched and the groups set. *)
Definition specification (s : str) : option (nat * groups) :=
  let named :=
    let (n, rest) := span (fun c => not_space c && negb (c =? 61)) s in
    match n, rest with
    | _ :: _, c :: rest =>
        if c =? 61 then
          match quoted quote rest with
          | Some (k, v) =>
              Some (length n + 1 + k,
                    {| name := Some n; double_quoted_value := Some v;
                       single_quoted_value := None; bare_value := None;
                       id_ := None; class_ := None; rowspan := None;
                       colspan := None; width := None; height := None;
                       delete_name := None; boolean_name := None |})%nat
          | None =>
              match quoted apostrophe rest with
              | Some (k, v) =>
                  Some (length n + 1 + k,
                        {| name := Some n; double_quoted_value := None;
                           single_quoted_value := Some v; bare_value := None;
                           id_ := None; class_ := None; rowspan := None;
                           colspan := None; width := None; height := None;
                           delete_name := None; boolean_name := None |})%nat
              | None =>
                  let (v, _) := span not_space rest in
                  Some (length n + 1 + length v,
                        {| name := Some n; double_quoted_value := None;
                           single_quoted_value := None; bare_value := Some v;
                           id_ := None; class_ := None; rowspan := None;
                           colspan := None; width := None; height := None;
                           delete_name := None; boolean_name := None |})%nat
              end
          end
        else None
    | _, _ => None
    end in
  let unquoted (c : Z) := not_space c && negb (c =? quote) in
  match named with
  | Some m => Some m
  | None =>
  match prefixed 35 unquoted s with
  | Some (k, v) =>
      Some (k, {| name := None; double_quoted_value := None;
                  single_quoted_value := None; bare_value := None;
                  id_ := Some v; class_ := None; rowspan := None;
                  colspan := None; width := None; height := None;
                  delete_name := None; boolean_name := None |})
  | None =>
  match prefixed 46 unquoted s with
  | Some (k, v) =>
      Some (k, {| name := None; double_quoted_value := None;
                  single_quoted_value := None; bare_value := None;
                  id_ := None; class_ := Some v; rowspan := None;
                  colspan := None; width := None; height := None;
                  delete_name := None; boolean_name := None |})
  | None =>
  match prefixed 114 is_digit s with
  | Some (k, v) =>
      Some (k, {| name := None; double_quoted_value := None;
                  single_quoted_value := None; bare_value := None;
                  id_ := None; class_ := None; rowspan := Some v;
                  colspan := None; width := None; height := None;
                  delete_name := None; boolean_name := None |})
  | None =>
  match prefixed 99 is_digit s with
  | Some (k, v) =>
      Some (k, {| name := None; double_quoted_value := None;
                  single_quoted_value := None; bare_value := None;
                  id_ := None; class_ := None; rowspan := None;
                  colspan := Some v; width := None; height := None;
                  delete_name := None; boolean_name := None |})
  | None =>
  match prefixed 119 is_digit s with
  | Some (k, v) =>
      Some (k, {| name := None; double_quoted_value := None;
                  single_quoted_value := None; bare_value := None;
                  id_ := None; class_ := None; rowspan := None;
                  colspan := None; width := Some v; height := None;
                  delete_name := None; boolean_name := None |})
  | None =>
  match prefixed 104 is_digit s with
  | Some (k, v) =>
      Some (k, {| name := None; double_quoted_value := None;
                  single_quoted_value := None; bare_value := None;
                  id_ := None; class_ := None; rowspan := None;
                  colspan := None; width := None; height := Some v;
                  delete_name := None; boolean_name := None |})
  | None =>
  match prefixed 45 not_space s with
  | Some (k, v) =>
      Some (k, {| name := None; double_quoted_value := None;
                  single_quoted_value := None; bare_value := None;
                  id_ := None; class_ := None; rowspan := None;
                  colspan := None; width := None; height := None;
                  delete_name := Some v; boolean_name := None |})
  | None =>
      let (v, _) := span not_space s in
      match v with
      | _ :: _ =>
          Some (length v,
                {| name := None; double_quoted_value := None;
                   single_quoted_value := None; bare_value := None;
                   id_ := None; class_ := None; rowspan := None;
                   colspan := None; width := None; height := None;
                   delete_name := None; boolean_name := Some v |})
      | [] => None
      end
  end end end end end end end end.

(** The pattern of [compute_attribute_specification_matches]:
    [[\s]* (?: ... ) ? [\s]*].  The leading run is greedy; the group is
    tried after it and, where it fails, left out. *)
Definition specification_pattern : Re.matcher groups :=
  fun adv _ s =>
    let (leading, rest) := span is_space s in
    match specification rest with
    | Some (k, g) =>
        let (trailing, _) := span is_space (drop k rest) in
        Some (length leading + k + length trailing, g)%nat
    | None =>
        match leading with
        | [] => if adv then None else Some (O, no_groups)
        | _ :: _ => Some (length leading, no_groups)
        end
    end.

Definition compute_attribute_specification_matches (attribute_specifications : str)
  : list (str * groups) :=
  Re.finditer specification_pattern attribute_specifications.

Definition ATTRIBUTE_NAME_FROM_ABBREVIATION : list (str * str) :=
  [(str_of "#", str_of "id"); (str_of ".", str_of "class");
   (str_of "l", str_of "lang"); (str_of "r", str_of "rowspan");
   (str_of "c", str_of "colspan"); (str_of "w", str_of "width");
   (str_of "h", str_of "height"); (str_of "s", str_of "style")].

(** What [extract_attribute_name_and_value] returns: a pair (the value
    [None] for a boolean attribute), a 1-tuple for an attribute to omit,
    or [None]. *)
Inductive name_and_value : Type :=
| Pair (name : str) (value : option str)
| Single (name : str)
| Nothing.

Definition or_else {A} (a b : option A) : option A :=
  match a with Some _ => a | None => b end.

Definition extract_attribute_name_and_value (m : groups) : name_and_value :=
  let named :=
    match name m with
    | Some n =>
        let n := default n (OrdinaryDictionaryReplacement.dict_get
                              ATTRIBUTE_NAME_FROM_ABBREVIATION n) in
        match or_else (double_quoted_value m)
                (or_else (single_quoted_value m) (bare_value m)) with
        | Some v => Some (Pair n (Some v))
        | None => None
        end
    | None => None
    end in
  match named with
  | Some r => r
  | None =>
  match id_ m with Some v => Pair (str_of "id") (Some v) | None =>
  match class_ m with Some v => Pair (str_of "class") (Some v) | None =>
  match rowspan m with Some v => Pair (str_of "rowspan") (Some v) | None =>
  match colspan m with Some v => Pair (str_of "colspan") (Some v) | None =>
  match width m with Some v => Pair (str_of "width") (Some v) | None =>
  match height m with Some v => Pair (str_of "height") (Some v) | None =>
  match delete_name m with Some v => Single v | None =>
  match boolean_name m with Some v => Pair v None | None =>
  Nothing
  end end end end end end end end end.

(** The [dict] [attribute_value_from_name], in insertion order. *)
Definition dict := list (str * option str).

Fixpoint get (d : dict) (k : str) : option (option str) :=
  match d with
  | [] => None
  | (k', v') :: d' => if str_eqb k' k then Some v' else get d' k
  end.

Fixpoint set (d : dict) (k : str) (v : option str) : dict :=
  match d with
  | [] => [(k, v)]
  | (k', v') :: d' => if str_eqb k' k then (k', v) :: d' else (k', v') :: set d' k v
  end.

Fixpoint pop (d : dict) (k : str) : dict :=
  match d with
  | [] => []
  | (k', v') :: d' => if str_eqb k' k then d' else (k', v') :: pop d' k
  end.

(** [f' {value}'] *)
Definition formatted (value : option str) : str :=
  32 :: default (str_of "None") value.

(** The body of the loop of [build_attributes_sequence]. *)
Definition record_specification (d : dict) (nv : name_and_value) : py dict :=
  match nv with
  | Nothing => mret d
  | Pair name value =>
      if str_eqb name (str_of "class") then
        match get d (str_of "class") with
        | Some (Some old) => mret (set d (str_of "class") (Some (old ++ formatted value)))
        | Some None => raise TypeError
        | None => mret (set d (str_of "class") value)
        end
      else mret (set d name value)
  | Single name => mret (pop d name)
  end.

Definition record_specifications (nvs : list name_and_value) (d : dict) : py dict :=
  foldl (fun d nv => d ← d; record_specification d nv) (mret d) nvs.

Definition attribute (item : str * option str) : py str :=
  let (name, value) := item in
  match value with
  | None => mret (32 :: name)
  | Some value =>
      value ← PlaceholderMaster.unprotect value;
      let value := escape_attribute_value_html value in
      mret (32 :: name ++ 61 :: quote :: value ++ [quote])
  end.

Definition build_attributes_sequence (attribute_specifications : str)
  (use_protection : bool) : py str :=
  attribute_value_from_name ←
    record_specifications
      (map (fun m => extract_attribute_name_and_value (snd m))
         (compute_attribute_specification_matches attribute_specifications))
      [];
  attribute_sequence ←
    foldl (fun sequence item =>
             sequence ← sequence; a ← attribute item; mret (sequence ++ a))
          (mret []) attribute_value_from_name;
  if use_protection then PlaceholderMaster.protect attribute_sequence
  else mret attribute_sequence.

End Attributes.

(** [id=x #y .a .b name=value .=c class="d"] *)
Definition example_specifications : str :=
  str_of "id=x #y .a .b name=value .=c class="
    ++ [Attributes.quote] ++ str_of "d" ++ [Attributes.quote].

(** [ id="y" class="a b c d" name="value"] *)
Definition example_sequence : str :=
  str_of " id=" ++ [Attributes.quote] ++ str_of "y" ++ [Attributes.quote]
    ++ str_of " class=" ++ [Attributes.quote] ++ str_of "a b c d" ++ [Attributes.quote]
    ++ str_of " name=" ++ [Attributes.quote] ++ str_of "value" ++ [Attributes.quote].





(** ** [class ReferenceMaster] *)

Module ReferenceMaster.

Record Reference : Type := {
  attribute_specifications : option str;
  uri : option str;
  title : option str;
}.

(** [_reference_from_label] *)
Definition t : Type := gmap str Reference.

Definition init : t := ∅.

Section Labels.
(** [str.lower], the case mapping of the interpreter. *)
Variable lower : str -> str.

Definition normalise_label (label : str) : str := lower label.

Definition store_definition (self : t) (label : str)
  (attribute_specifications uri title : option str) : t :=
  <[normalise_label label :=
      {| attribute_specifications := attribute_specifications;
         uri := uri; title := title |}]> self.

Definition load_definition (self : t) (label : str)
  : py (option str * option str * option str) :=
  match self !! normalise_label label with
  | Some reference =>
      mret (attribute_specifications reference, uri reference, title reference)
  | None => raise UnrecognisedLabelException
  end.
End Labels.

(** [str.lower] on ASCII text. *)
Definition ascii_lower (s : str) : str :=
  map (fun c => if (65 <=? c) && (c <=? 90) then c + 32 else c) s.

End ReferenceMaster.

(** ** [class ReferencedImageReplacement], [class ReferencedLinkReplacement] *)

Module Referenced.

(** A match of the pattern of either class: the whole match
    ([match.group()]) and the groups [alt_text] or [link_text], [label] and
    [attribute_specifications]. *)
Record match_ : Type := {
  group : str;
  text : str;
  label : option str;
  matched_attribute_specifications : option str;
}.

Definition none_to_empty_string (string : option str) : str := default [] string.

(** [' '.join(strings)] *)
Fixpoint join_spaces (strings : list str) : str :=
  match strings with
  | [] => []
  | [s] => s
  | s :: strings' => s ++ 32 :: join_spaces strings'
  end.

Definition is_unrecognised_label (e : exn) : bool :=
  match e with UnrecognisedLabelException => true | _ => false end.

(** [label = match.group('label'); if label is None or label == '': ...] *)
Definition label_or (m : match_) (fallback : str) : str :=
  match label m with
  | None | Some [] => fallback
  | Some l => l
  end.

(** [try: ... = self._reference_master.load_definition(label)]
    [except UnrecognisedLabelException: return match.group()] *)
Definition load_or_not (lower : str -> str) (references : ReferenceMaster.t)
  (label : str) : py (option (option str * option str * option str)) :=
  catch (Some <$> ReferenceMaster.load_definition lower references label)
    is_unrecognised_label (mret None).

Definition combine (own : str) (attribute_specifications : option str) (m : match_)
  : str :=
  match attribute_specifications with
  | Some attribute_specifications =>
      join_spaces [own; attribute_specifications;
                   none_to_empty_string (matched_attribute_specifications m)]
  | None => own
  end.

(** [ReferencedImageReplacement.build_substitute_function] *)
Definition image_substitute_function (lower : str -> str)
  (references : ReferenceMaster.t) (attribute_specifications : option str)
  (m : match_) : py str :=
  let alt := text m in
  alt_protected ← PlaceholderMaster.protect alt;
  let alt_attribute_specification := str_of "alt=" ++ alt_protected in
  let label := label_or m alt in
  loaded ← load_or_not lower references label;
  match loaded with
  | None => mret (group m)
  | Some (referenced_attribute_specifications, src, title) =>
      src_protected ← PlaceholderMaster.protect (none_to_empty_string src);
      let src_attribute_specification := str_of "src=" ++ src_protected in
      title_attribute_specification ←
        match title with
        | Some title =>
            title_protected ← PlaceholderMaster.protect title;
            mret (str_of "title=" ++ title_protected)
        | None => mret []
        end;
      let alt_src_title_referenced_attribute_specifications :=
        join_spaces [alt_attribute_specification; src_attribute_specification;
                     title_attribute_specification;
                     none_to_empty_string referenced_attribute_specifications] in
      attributes_sequence ←
        Attributes.build_attributes_sequence
          (combine alt_src_title_referenced_attribute_specifications
             attribute_specifications m) true;
      mret (str_of "<img" ++ attributes_sequence ++ str_of ">")
  end.

(** [ReferencedLinkReplacement.build_substitute_function] *)
Definition link_substitute_function (lower : str -> str)
  (references : ReferenceMaster.t) (attribute_specifications : option str)
  (m : match_) : py str :=
  let content := text m in
  let label := label_or m content in
  loaded ← load_or_not lower references label;
  match loaded with
  | None => mret (group m)
  | Some (referenced_attribute_specifications, href, title) =>
      href_attribute_specification ←
        match href with
        | Some href =>
            href_protected ← PlaceholderMaster.protect href;
            mret (str_of "href=" ++ href_protected)
        | None => mret []
        end;
      title_attribute_specification ←
        match title with
        | Some title =>
            title_protected ← PlaceholderMaster.protect title;
            mret (str_of "title=" ++ title_protected)
        | None => mret []
        end;
      let href_title_referenced_attribute_specifications :=
        join_spaces [href_attribute_specification; title_attribute_specification;
                     none_to_empty_string referenced_attribute_specifications] in
      attributes_sequence ←
        Attributes.build_attributes_sequence
          (combine href_title_referenced_attribute_specifications
             attribute_specifications m) true;
      mret (str_of "<a" ++ attributes_sequence ++ str_of ">" ++ content
              ++ str_of "</a>")
  end.

End Referenced.

(** The referenced image [![«alt»][x]] whose alternative text is the marker,
    U+E100 and the marker. *)
Definition image_with_run_character_max : Referenced.match_ :=
  {| Referenced.group :=
       str_of "![" ++ [PlaceholderMaster.MARKER; 0xE100; PlaceholderMaster.MARKER]
         ++ str_of "][x]";
     Referenced.text := [PlaceholderMaster.MARKER; 0xE100; PlaceholderMaster.MARKER];
     Referenced.label := Some (str_of "x");
     Referenced.matched_attribute_specifications := None |}.

(** ** The placeholder rules and [class ReplacementSequence] *)

Module PlaceholderMarkerReplacement.

(** Attribute [queue_position]; none mandatory; [_apply] is
    [PlaceholderMaster.replace_marker_occurrences]. *)
Definition init (id_ : str) : Replacement.t :=
  Replacement.init id_ None PlaceholderMaster.replace_marker_occurrences.

End PlaceholderMarkerReplacement.

Module PlaceholderProtectionReplacement.

Definition init (id_ : str) : Replacement.t :=
  Replacement.init id_ None PlaceholderMaster.protect.

End PlaceholderProtectionReplacement.

Module PlaceholderUnprotectionReplacement.

Definition init (id_ : str) : Replacement.t :=
  Replacement.init id_ None PlaceholderMaster.unprotect.

End PlaceholderUnprotectionReplacement.

Module ReplacementSequence.

(** [for replacement in self._replacements:
       string = replacement.apply(string)] *)
Definition _apply (replacements : list Replacement.t) (string : str) : py str :=
  foldl (fun string replacement =>
           string ← string; Replacement.apply replacement string None)
        (mret string) replacements.

(** The rule with its [replacements] attribute set; nothing is mandatory. *)
Definition init (id_ : str) (replacements : list Replacement.t) : Replacement.t :=
  Replacement.init id_ None (_apply replacements).

End ReplacementSequence.

(** ** The functions on file names and file contents *)

Module Files.

Definition percent : Z := 37.
Definition slash : Z := 47.
Definition backslash : Z := 92.

(** [(?P<delimiter> ^ [%]{3,} ) \n] tried at one position: what follows
    the newline.  The run of percent signs is greedy, and a shorter run
    would be followed by a percent sign, not by the newline. *)
Definition delimiter_then_newline (prev : option Z) (s : str) : option str :=
  if Re.at_line_start prev then
    let (delimiter, rest) := span (fun c => c =? percent) s in
    if (3 <=? length delimiter)%nat then
      match rest with
      | c :: rest => if c =? newline then Some rest else None
      | [] => None
      end
    else None
  else None.

(** [(?P<replacement_rules> [\s\S]*? )] before the delimiter: the lazy
    group grows by one character until the delimiter and the newline
    follow it; [main_content] takes whatever is left. *)
Fixpoint split_at_delimiter (prev : option Z) (s : str) : option (str * str) :=
  match delimiter_then_newline prev s with
  | Some main_content => Some ([], main_content)
  | None =>
      match s with
      | [] => None
      | c :: s' =>
          match split_at_delimiter (Some c) s' with
          | Some (replacement_rules, main_content) =>
              Some (c :: replacement_rules, main_content)
          | None => None
          end
      end
  end.

(** [extract_rules_and_content]: the groups [replacement_rules] (which is
    [None] where the optional part has not matched) and [main_content]. *)
Definition extract_rules_and_content (cmd : str) : option str * str :=
  match split_at_delimiter None cmd with
  | Some (replacement_rules, main_content) => (Some replacement_rules, main_content)
  | None => (None, cmd)
  end.

(** [s.rfind(c)] *)
Fixpoint last_index (c : Z) (s : str) : option nat :=
  match s with
  | [] => None
  | x :: s' =>
      match last_index c s' with
      | Some i => Some (S i)
      | None => if x =? c then Some O else None
      end
  end.

(** [\A .* [/]]: only at the start of the string; the dot stops at a
    newline, and the greedy run is given back up to the last slash. *)
Definition directory_pattern : Re.matcher unit :=
  fun _ prev s =>
    match prev with
    | None =>
        let (line, _) := span (fun c => negb (c =? newline)) s in
        match last_index slash line with
        | Some i => Some (S i, tt)
        | None => None
        end
    | Some _ => None
    end.

Definition extract_basename (name : str) : str :=
  Re.sub_const directory_pattern [] name.

(** [(?P<last_separator> \A | [/] ) index \Z]; the group is
    [last_separator]. *)
Definition index_pattern : Re.matcher str :=
  fun _ prev s =>
    if bool_decide (prev = None) && str_eqb s (str_of "index") then Some (5%nat, [])
    else if str_eqb s (str_of "/index") then Some (6%nat, [slash])
    else None.

(** The replacement is the template [\g<last_separator>]. *)
Definition make_clean_url (cmd_name : str) : py str :=
  Re.sub index_pattern (fun _ last_separator => mret last_separator) cmd_name.

(** [[.](cmd) \Z] *)
Definition cmd_extension_pattern : Re.matcher unit :=
  fun _ _ s => if str_eqb s (str_of ".cmd") then Some (4%nat, tt) else None.

Definition extract_separator_normalised_cmd_name (cmd_file_name : str) : str :=
  let cmd_name := Re.sub_const cmd_extension_pattern [] cmd_file_name in
  let separator_normalised_cmd_name :=
    OrdinaryDictionaryReplacement.str_replace [backslash] [slash] cmd_name in
  separator_normalised_cmd_name.

End Files.

(** ** Notions used in the statements and proofs *)

Definition is_byte (b : Z) : Prop := 0 <= b < 256.

Definition valid_queue_reference_id (id_ : str) : Prop :=
  id_ <> [] /\ forallb ReplacementMaster.is_queue_reference_id_character id_ = true.

(** The object [r] once staged with a queue position and committed. *)
Definition queued (r : Replacement.t) (type_ : str) (reference : option str)
  : Replacement.t :=
  {| Replacement._is_committed := true;
     Replacement._id := Replacement._id r;
     Replacement._queue_position_type := Some type_;
     Replacement._queue_reference_replacement := reference;
     Replacement._positive_flag_name := Replacement._positive_flag_name r;
     Replacement._negative_flag_name := Replacement._negative_flag_name r;
     Replacement._validate_mandatory_attributes := None;
     Replacement._apply := Replacement._apply r |}.

Definition declarable (r : Replacement.t) : Prop :=
  Replacement._is_committed r = false
  /\ Replacement._validate_mandatory_attributes r = None.

Definition queue_ordering_r : Replacement.t :=
  Replacement.init (str_of "r") None PlaceholderMaster.replace_marker_occurrences.
Definition queue_ordering_s : Replacement.t :=
  Replacement.init (str_of "s") None PlaceholderMaster.unprotect.
Definition queue_ordering_t : Replacement.t :=
  Replacement.init (str_of "t") None PlaceholderMaster.protect.

Definition no_newline (s : str) : bool := forallb (fun c => negb (c =? newline)) s.

(** The first pass, started in the middle of a line ([bol = false]) or at the
    start of one. *)
Definition erase_from (bol : bool) (ls : list str) : list str :=
  if bol then DeIndent.erase_last_line ls
  else match ls with
       | [] => []
       | l :: ls' => l :: DeIndent.erase_last_line ls'
       end.

Definition emit {G} (repl : str) (ev : Re.event G) : str :=
  match ev with Re.Lit c => [c] | Re.Hit _ _ => repl end.

Definition texts {G} (evs : list (Re.event G)) : list str :=
  map fst (omap (fun ev => match ev with
                           | Re.Hit t g => Some (t, g)
                           | Re.Lit _ => None
                           end) evs).

Definition indents (bol : bool) (ls : list str) : list str :=
  map DeIndent.leading_whitespace
    (List.filter DeIndent.is_nonempty (if bol then ls else tl ls)).

Definition strip (p l : str) : str :=
  match strip_prefix p l with Some r => r | None => l end.

Definition strip_from (bol : bool) (p : str) (ls : list str) : list str :=
  match ls with
  | [] => []
  | l :: ls' => (if bol then strip p l else l) :: map (strip p) ls'
  end.

(** A master in which the rule [#h1] is committed and queued. *)
Definition master_with_h1 : ReplacementMaster.t :=
  {| ReplacementMaster._replacement_from_id :=
       {[ str_of "h1" :=
            queued (DeIndentationReplacement.init (str_of "h1")) (str_of "ROOT") None ]};
     ReplacementMaster._root_replacement_id := Some (str_of "h1");
     ReplacementMaster._replacement_queue :=
       [queued (DeIndentationReplacement.init (str_of "h1")) (str_of "ROOT") None] |}.

(** What holds of the groups of every match reported. *)
Definition hit_satisfies {G} (P : G -> Prop) (ev : Re.event G) : Prop :=
  match ev with Re.Hit _ g => P g | Re.Lit _ => True end.

(** What [commit] keeps true of a master: the queued and the registered
    rules are committed, a rule is registered under its own id, the queued
    rules are registered, and the root rule is in the queue. *)
Definition well_formed (master : ReplacementMaster.t) : Prop :=
  Forall (fun r => Replacement._is_committed r = true
                   /\ is_Some (ReplacementMaster._replacement_from_id master
                                 !! Replacement._id r))
         (ReplacementMaster._replacement_queue master)
  /\ (forall id_ r,
        ReplacementMaster._replacement_from_id master !! id_ = Some r ->
        Replacement._is_committed r = true /\ Replacement._id r = id_)
  /\ (forall id_,
        ReplacementMaster._root_replacement_id master = Some id_ ->
        id_ ∈ map Replacement._id (ReplacementMaster._replacement_queue master)).

(** A master in which the rules [#a] (the root) and [#b] are queued. *)
Definition master_with_a_b : ReplacementMaster.t :=
  {| ReplacementMaster._replacement_from_id :=
       {[ str_of "a" :=
            queued (DeIndentationReplacement.init (str_of "a")) (str_of "ROOT") None;
          str_of "b" :=
            queued (PlaceholderUnprotectionReplacement.init (str_of "b"))
              (str_of "AFTER") (Some (str_of "a")) ]};
     ReplacementMaster._root_replacement_id := Some (str_of "a");
     ReplacementMaster._replacement_queue :=
       [queued (DeIndentationReplacement.init (str_of "a")) (str_of "ROOT") None;
        queued (PlaceholderUnprotectionReplacement.init (str_of "b"))
          (str_of "AFTER") (Some (str_of "a"))] |}.

(** The rule [#c], staged for the queue position [BEFORE #b]. *)
Definition rule_c_before_b : Replacement.t :=
  {| Replacement._is_committed := false;
     Replacement._id := str_of "c";
     Replacement._queue_position_type := Some (str_of "BEFORE");
     Replacement._queue_reference_replacement := Some (str_of "b");
     Replacement._positive_flag_name := None;
     Replacement._negative_flag_name := None;
     Replacement._validate_mandatory_attributes := None;
     Replacement._apply := fun string => mret (DeIndent.de_indent string) |}.

(** * Properties *)

(** ** UTF-8 round trip *)

Ltac zb :=
  repeat (match goal with
    | |- context [?a <=? ?b] =>
        first [rewrite (proj2 (Z.leb_le a b)) by lia
              | rewrite (proj2 (Z.leb_gt a b)) by lia]
    | |- context [?a <? ?b] =>
        first [rewrite (proj2 (Z.ltb_lt a b)) by lia
              | rewrite (proj2 (Z.ltb_ge a b)) by lia]
    | |- context [?a =? ?b] =>
        first [rewrite (proj2 (Z.eqb_eq a b)) by lia
              | rewrite (proj2 (Z.eqb_neq a b)) by lia]
    end; cbn [andb orb negb]).

Lemma decode_encode_code_point c bs rest :
  Utf8.encode_code_point c = Some bs ->
  Utf8.decode (bs ++ rest) = cons c <$> Utf8.decode rest /\ Forall is_byte bs.
Proof.
  unfold Utf8.encode_code_point, Utf8.is_scalar_value.
  destruct (Z.leb_spec 0 c); destruct (Z.ltb_spec c 0xD800);
    destruct (Z.leb_spec 0xE000 c); destruct (Z.ltb_spec c 0x110000);
    cbn [andb orb negb]; try discriminate; try lia.
  all: destruct (Z.ltb_spec c 0x80); [|destruct (Z.ltb_spec c 0x800);
         [|destruct (Z.ltb_spec c 0x10000)]]; try lia.
  all: intros [= <-]; cbn [app Utf8.decode]; unfold Utf8.is_continuation.
  all: split; [| repeat constructor; unfold is_byte; Z.div_mod_to_equations; lia].
  all: Z.div_mod_to_equations; zb.
  all: repeat (match goal with
               | |- context [?a =? ?b] => destruct (Z.eqb_spec a b)
               end; cbn [andb orb negb]); zb.
  all: f_equal; f_equal; lia.
Qed.

Lemma encode_total s :
  Forall (fun c => Utf8.is_scalar_value c = true) s ->
  exists bs, Utf8.encode s = Some bs.
Proof.
  induction 1 as [|c s Hc _ [bs IH]]; [by eexists|].
  cbn [Utf8.encode]. rewrite IH.
  unfold Utf8.encode_code_point. rewrite Hc. cbn [negb].
  repeat case_match; by eexists.
Qed.

Lemma decode_encode s bs :
  Utf8.encode s = Some bs ->
  Utf8.decode bs = Some s /\ Forall is_byte bs.
Proof.
  revert bs. induction s as [|c s IH]; intros bs.
  - intros [= <-]. by split.
  - cbn [Utf8.encode].
    destruct (Utf8.encode_code_point c) as [b1|] eqn:E1; [|done].
    destruct (Utf8.encode s) as [b2|] eqn:E2; [|done].
    intros [= <-]. destruct (IH _ eq_refl) as [IH1 IH2].
    destruct (decode_encode_code_point c b1 b2 E1) as [-> H2].
    rewrite IH1. split; [done | by apply Forall_app].
Qed.

(** ** The monad of Python computations *)

Lemma py_bind_ret {A B} (a : A) (k : A -> py B) : (mret a ≫= k) = k a.
Proof. unfold mbind, py_bind, mret, py_ret, Py.bind, Py.ret. by destruct (k a). Qed.

Lemma py_bind_assoc {A B C} (m : py A) (f : A -> py B) (g : B -> py C) :
  ((m ≫= f) ≫= g) = (m ≫= fun a => f a ≫= g).
Proof.
  unfold mbind, py_bind, Py.bind. destruct m as [w [a|e]]; [|done].
  destruct (f a) as [w' [b|e]]; [|done].
  destruct (g b) as [w'' r]. by rewrite app_assoc.
Qed.

Lemma py_bind_raise {A B} (e : exn) (k : A -> py B) : (raise e ≫= k) = raise e.
Proof. done. Qed.

(** ** The scanning loop *)

Section ScanFacts.
Context {G : Type} (m : Re.matcher G).

(** Where the pattern matches at no position, the text is passed through. *)
Lemma scan_no_match s prev :
  (forall adv p i, m adv p (drop i s) = None) ->
  Re.scan m s 0 prev = map Re.Lit s.
Proof.
  revert prev. induction s as [|c s IH]; intros prev H; cbn [Re.scan].
  - by rewrite (H false prev 0%nat : m false prev [] = None).
  - rewrite (H false prev 0%nat : m false prev (c :: s) = None).
    cbn [map]. f_equal.
    apply IH. intros adv p i. apply (H adv p (S i)).
Qed.

Lemma join_lits repl s : Re.join_events repl (map (@Re.Lit G) s) = mret s.
Proof.
  induction s as [|c s IH]; [done|].
  unfold Re.join_events in *. cbn [map foldr]. by rewrite IH.
Qed.

Lemma sub_no_match repl s :
  (forall adv p i, m adv p (drop i s) = None) ->
  Re.sub m repl s = mret s.
Proof. intros H. unfold Re.sub. rewrite scan_no_match by done. apply join_lits. Qed.

(** Passing over the rest of a match that ends with the text. *)
Lemma scan_skip_all s prev :
  (forall p, m false p [] = None) ->
  Re.scan m s (length s) prev = [].
Proof.
  intros H. revert prev. induction s as [|c s IH]; intros prev; cbn.
  - by rewrite H.
  - apply IH.
Qed.
End ScanFacts.

(** ** Placeholders *)

Lemma span_run_characters bs rest :
  Forall is_byte bs ->
  span PlaceholderMaster.is_run_character
    (map (fun byte => byte + PlaceholderMaster._RUN_CODE_POINT_MIN) bs
       ++ PlaceholderMaster.MARKER :: rest)
  = (map (fun byte => byte + PlaceholderMaster._RUN_CODE_POINT_MIN) bs,
     PlaceholderMaster.MARKER :: rest).
Proof.
  induction 1 as [|b bs Hb _ IH]; [done|].
  cbn [map app span]. rewrite IH.
  unfold PlaceholderMaster.is_run_character, PlaceholderMaster._RUN_CODE_POINT_MIN,
    PlaceholderMaster._RUN_CHARACTER_MIN, PlaceholderMaster._RUN_CHARACTER_MAX.
  unfold is_byte in Hb. by zb.
Qed.

Lemma bytes_of_run_characters bs :
  Forall is_byte bs ->
  PlaceholderMaster.bytes_of
    (map (fun character => character - PlaceholderMaster._RUN_CODE_POINT_MIN)
       (map (fun byte => byte + PlaceholderMaster._RUN_CODE_POINT_MIN) bs))
  = mret bs.
Proof.
  intros H. rewrite map_map.
  rewrite (map_ext_Forall _ id).
  - rewrite map_id. unfold PlaceholderMaster.bytes_of.
    rewrite (proj2 (forallb_forall _ _)); [done|].
    intros b Hb%list_elem_of_In. rewrite Forall_forall in H.
    specialize (H b Hb). unfold is_byte in H. by zb.
  - apply Forall_forall. intros. unfold id. lia.
Qed.

(** A text free of the marker holds no placeholder. *)
Lemma unprotect_no_marker (s : str) :
  PlaceholderMaster.MARKER ∉ s -> PlaceholderMaster.unprotect s = mret s.
Proof.
  intros H. apply sub_no_match. intros adv p i.
  destruct (drop i s) as [|c t] eqn:E; [done|].
  cbn. destruct (Z.eqb_spec c PlaceholderMaster.MARKER) as [->|]; [|done].
  destruct H. apply (subseteq_drop i s). rewrite E. by left.
Qed.

(** The placeholder of a byte string decodes to what the bytes decode to. *)
Lemma unprotect_placeholder bs s :
  Forall is_byte bs -> Utf8.decode bs = Some s ->
  PlaceholderMaster.unprotect
    ([PlaceholderMaster.MARKER]
       ++ map (fun byte => byte + PlaceholderMaster._RUN_CODE_POINT_MIN) bs
       ++ [PlaceholderMaster.MARKER])
  = mret s.
Proof.
  intros Hb Hd. unfold PlaceholderMaster.unprotect, Re.sub.
  cbn [app Re.scan PlaceholderMaster._PLACEHOLDER_PATTERN_COMPILED].
  rewrite Z.eqb_refl, span_run_characters by done. rewrite Z.eqb_refl.
  replace (S (length (map (fun byte => byte + PlaceholderMaster._RUN_CODE_POINT_MIN) bs)))
    with (length (map (fun byte => byte + PlaceholderMaster._RUN_CODE_POINT_MIN) bs
                    ++ [PlaceholderMaster.MARKER]))
    by (rewrite length_app; cbn; lia).
  rewrite scan_skip_all by done.
  unfold Re.join_events. cbn [foldr].
  unfold PlaceholderMaster._unprotect_substitute_function.
  rewrite bytes_of_run_characters by done.
  cbn. rewrite Hd. cbn. by rewrite app_nil_r.
Qed.

(** C1.  Placeholder round trip: for every string [s] of Unicode characters
    (non-ASCII and astral ones included) in which the marker U+F8FF does not
    occur, [unprotect(protect(s))] returns [s], with no diagnostic. *)
Theorem protect_unprotect_round_trip (s : str) :
  Forall (fun c => Utf8.is_scalar_value c = true) s ->
  PlaceholderMaster.MARKER ∉ s ->
  (PlaceholderMaster.protect s ≫= PlaceholderMaster.unprotect) = ([], Ok s).
Proof.
  intros Hs Hm. unfold PlaceholderMaster.protect.
  rewrite unprotect_no_marker, py_bind_ret by done.
  destruct (encode_total s Hs) as [bs Hbs].
  destruct (decode_encode s bs Hbs) as [Hd Hb].
  unfold PlaceholderMaster.encode. rewrite Hbs, !py_bind_ret.
  by apply unprotect_placeholder.
Qed.

Lemma protect_unprotect_round_trip_witness :
  (PlaceholderMaster.protect [0x24; 0xA3; 0x939; 0x10348]
     ≫= PlaceholderMaster.unprotect)
  = ([], Ok [0x24; 0xA3; 0x939; 0x10348]).
Proof.
  apply (protect_unprotect_round_trip [0x24; 0xA3; 0x939; 0x10348]).
  - repeat constructor.
  - apply (bool_decide_unpack _). vm_compute. reflexivity.
Defined.

(** ** The rule queue *)

Lemma span_forallb p (s rest : str) :
  forallb p s = true ->
  match rest with c :: _ => p c = false | [] => True end ->
  span p (s ++ rest) = (s, rest).
Proof.
  intros Hs Hr. induction s as [|c s IH]; cbn [app span].
  - destruct rest as [|c r]; [done|]. cbn [span]. by rewrite Hr.
  - cbn [forallb] in Hs. apply andb_true_iff in Hs as [-> Hs]. by rewrite IH.
Qed.

Lemma reference_to_end_valid id_ :
  valid_queue_reference_id id_ ->
  ReplacementMaster.reference_to_end (str_of " #" ++ id_) = Some id_.
Proof.
  intros [Hne Hall]. unfold ReplacementMaster.reference_to_end.
  change (strip_prefix (str_of " #") (str_of " #" ++ id_)) with (Some id_).
  rewrite <- (app_nil_r id_) at 1. rewrite span_forallb by done.
  by destruct id_.
Qed.

Lemma compute_queue_position_match_after id_ :
  valid_queue_reference_id id_ ->
  ReplacementMaster.compute_queue_position_match (str_of " AFTER #" ++ id_)
  = {| ReplacementMaster.none_keyword := None;
       ReplacementMaster.root_keyword := None;
       ReplacementMaster.queue_position_type := Some (str_of "AFTER");
       ReplacementMaster.queue_reference_id := Some id_;
       ReplacementMaster.invalid_value := None |}.
Proof.
  intros H. unfold ReplacementMaster.compute_queue_position_match.
  change (span is_space (str_of " AFTER #" ++ id_))
    with ([32], str_of "AFTER" ++ str_of " #" ++ id_).
  cbv zeta beta iota.
  change (ReplacementMaster.keyword_to_end (str_of "NONE") _) with false.
  change (ReplacementMaster.keyword_to_end (str_of "ROOT") _) with false.
  cbv zeta beta iota.
  change (strip_prefix (str_of "BEFORE") _) with (@None str).
  change (strip_prefix (str_of "AFTER") _) with (Some (str_of " #" ++ id_)).
  cbv iota beta. by rewrite reference_to_end_valid.
Qed.

Lemma compute_queue_position_match_before id_ :
  valid_queue_reference_id id_ ->
  ReplacementMaster.compute_queue_position_match (str_of " BEFORE #" ++ id_)
  = {| ReplacementMaster.none_keyword := None;
       ReplacementMaster.root_keyword := None;
       ReplacementMaster.queue_position_type := Some (str_of "BEFORE");
       ReplacementMaster.queue_reference_id := Some id_;
       ReplacementMaster.invalid_value := None |}.
Proof.
  intros H. unfold ReplacementMaster.compute_queue_position_match.
  change (span is_space (str_of " BEFORE #" ++ id_))
    with ([32], str_of "BEFORE" ++ str_of " #" ++ id_).
  cbv zeta beta iota.
  change (ReplacementMaster.keyword_to_end (str_of "NONE") _) with false.
  change (ReplacementMaster.keyword_to_end (str_of "ROOT") _) with false.
  cbv zeta beta iota.
  change (strip_prefix (str_of "BEFORE") _) with (Some (str_of " #" ++ id_)).
  cbv iota beta. by rewrite reference_to_end_valid.
Qed.

Lemma compute_queue_position_match_root :
  ReplacementMaster.compute_queue_position_match (str_of " ROOT")
  = {| ReplacementMaster.none_keyword := None;
       ReplacementMaster.root_keyword := Some (str_of "ROOT");
       ReplacementMaster.queue_position_type := None;
       ReplacementMaster.queue_reference_id := None;
       ReplacementMaster.invalid_value := None |}.
Proof. reflexivity. Qed.

Lemma str_eqb_refl a : str_eqb a a = true.
Proof. unfold str_eqb. by apply bool_decide_eq_true. Qed.

Lemma str_eqb_ne a b : a <> b -> str_eqb a b = false.
Proof. unfold str_eqb. by apply bool_decide_eq_false. Qed.

Lemma declare_root master class_name r :
  declarable r ->
  ReplacementMaster._root_replacement_id master = None ->
  declare_with_queue_position master class_name r (str_of " ROOT")
  = mret {| ReplacementMaster._replacement_from_id :=
              <[Replacement._id r := queued r (str_of "ROOT") None]>
                (ReplacementMaster._replacement_from_id master);
            ReplacementMaster._root_replacement_id := Some (Replacement._id r);
            ReplacementMaster._replacement_queue :=
              ReplacementMaster._replacement_queue master
                ++ [queued r (str_of "ROOT") None] |}.
Proof.
  intros [Hc Hv] Hroot. destruct r; cbn in Hc, Hv; subst.
  unfold declare_with_queue_position, ReplacementMaster.stage_queue_position.
  rewrite compute_queue_position_match_root. cbn. by rewrite Hroot.
Qed.

Lemma declare_positioned master class_name r type_ id_ x i :
  declarable r ->
  ReplacementMaster.compute_queue_position_match (str_of " " ++ type_ ++ str_of " #" ++ id_)
  = {| ReplacementMaster.none_keyword := None;
       ReplacementMaster.root_keyword := None;
       ReplacementMaster.queue_position_type := Some type_;
       ReplacementMaster.queue_reference_id := Some id_;
       ReplacementMaster.invalid_value := None |} ->
  id_ <> Replacement._id r ->
  ReplacementMaster._replacement_from_id master !! id_ = Some x ->
  Replacement._id x = id_ ->
  ReplacementMaster.queue_index (ReplacementMaster._replacement_queue master) id_
  = Some i ->
  declare_with_queue_position master class_name r
    (str_of " " ++ type_ ++ str_of " #" ++ id_)
  = ReplacementMaster.commit master class_name
      {| Replacement._is_committed := false;
         Replacement._id := Replacement._id r;
         Replacement._queue_position_type := Some type_;
         Replacement._queue_reference_replacement := Some id_;
         Replacement._positive_flag_name := Replacement._positive_flag_name r;
         Replacement._negative_flag_name := Replacement._negative_flag_name r;
         Replacement._validate_mandatory_attributes := None;
         Replacement._apply := Replacement._apply r |}.
Proof.
  intros [Hc Hv] Hm Hne Hx Hid Hi. destruct r; cbn in Hc, Hv, Hne; subst.
  unfold declare_with_queue_position, ReplacementMaster.stage_queue_position.
  rewrite Hm.
  cbn [ReplacementMaster.invalid_value ReplacementMaster.none_keyword
         ReplacementMaster.root_keyword ReplacementMaster.queue_position_type
         ReplacementMaster.queue_reference_id default Replacement._id].
  unfold id. rewrite str_eqb_ne, Hx, Hi by done.
  unfold Replacement.set_queue_position_type. cbn [Replacement._is_committed].
  rewrite py_bind_ret.
  unfold Replacement.set_queue_reference_replacement. cbn [Replacement._is_committed].
  by rewrite py_bind_ret.
Qed.

Lemma commit_positioned master class_name r type_ id_ i :
  ReplacementMaster.queue_index (ReplacementMaster._replacement_queue master) id_
  = Some i ->
  type_ = str_of "BEFORE" \/ type_ = str_of "AFTER" ->
  ReplacementMaster.commit master class_name
    {| Replacement._is_committed := false;
       Replacement._id := Replacement._id r;
       Replacement._queue_position_type := Some type_;
       Replacement._queue_reference_replacement := Some id_;
       Replacement._positive_flag_name := Replacement._positive_flag_name r;
       Replacement._negative_flag_name := Replacement._negative_flag_name r;
       Replacement._validate_mandatory_attributes := None;
       Replacement._apply := Replacement._apply r |}
  = mret {| ReplacementMaster._replacement_from_id :=
              <[Replacement._id r := queued r type_ (Some id_)]>
                (ReplacementMaster._replacement_from_id master);
            ReplacementMaster._root_replacement_id :=
              ReplacementMaster._root_replacement_id master;
            ReplacementMaster._replacement_queue :=
              ReplacementMaster.list_insert
                (if str_eqb type_ (str_of "BEFORE") then i else S i)
                (queued r type_ (Some id_))
                (ReplacementMaster._replacement_queue master) |}.
Proof.
  intros Hi Ht. unfold ReplacementMaster.commit, Replacement.commit.
  cbn [Replacement._validate_mandatory_attributes catch mret py_ret Py.ret].
  change (([], Ok ?x) : py Replacement.t) with (mret x : py Replacement.t).
  rewrite py_bind_ret.
  cbn [Replacement._queue_position_type Replacement._queue_reference_replacement
         Replacement._id mbind option_bind].
  rewrite Hi. by destruct Ht as [-> | ->].
Qed.

(** C2.  Queue ordering: three rules declared in the order [r] with
    [queue_position: ROOT], [s] with [AFTER #r] and [t] with [BEFORE #s] are
    compiled to the queue [r, t, s], and [execute] applies them in that
    order. *)
Theorem queue_ordering (r s t : Replacement.t) (class_r class_s class_t : str) :
  let id_r := Replacement._id r in
  let id_s := Replacement._id s in
  let id_t := Replacement._id t in
  valid_queue_reference_id id_r ->
  valid_queue_reference_id id_s ->
  NoDup [id_r; id_s; id_t] ->
  Forall declarable [r; s; t] ->
  exists master,
    (m1 ← declare_with_queue_position ReplacementMaster.init class_r r (str_of " ROOT");
     m2 ← declare_with_queue_position m1 class_s s (str_of " AFTER #" ++ id_r);
     declare_with_queue_position m2 class_t t (str_of " BEFORE #" ++ id_s))
    = ([], Ok master)
    /\ map Replacement._id (ReplacementMaster._replacement_queue master)
       = [id_r; id_t; id_s]
    /\ forall text,
        ReplacementMaster.execute master text
        = (text ← Replacement._apply r text;
           text ← Replacement._apply t text;
           Replacement._apply s text).
Proof.
  intros id_r id_s id_t Hr Hs Hnd Hall. subst id_r id_s id_t.
  assert (Replacement._id r <> Replacement._id s
          /\ Replacement._id s <> Replacement._id t) as [Hrs Hst].
  { apply NoDup_cons in Hnd as [Hrst Hnd]. apply NoDup_cons in Hnd as [Hst _].
    set_solver. }
  inversion Hall as [|? ? Dr Hall']; subst.
  inversion Hall' as [|? ? Ds Hall'']; subst.
  inversion Hall'' as [|? ? Dt _]; subst.
  rewrite declare_root, py_bind_ret by done.
  set (m1 := {| ReplacementMaster._replacement_from_id := _ |}).
  assert (ReplacementMaster.queue_index (ReplacementMaster._replacement_queue m1)
            (Replacement._id r) = Some 0%nat) as I1.
  { cbn -[str_eqb]. by rewrite str_eqb_refl. }
  rewrite (declare_positioned m1 _ s (str_of "AFTER") (Replacement._id r)
             (queued r (str_of "ROOT") None) 0%nat Ds
             (compute_queue_position_match_after _ Hr) Hrs
             (lookup_insert_eq _ _ _) eq_refl I1).
  rewrite (commit_positioned m1 _ s (str_of "AFTER") _ 0%nat I1 (or_intror eq_refl)).
  rewrite py_bind_ret.
  change (if str_eqb _ _ then 0%nat else 1%nat) with 1%nat.
  set (m2 := {| ReplacementMaster._replacement_from_id := _ |}).
  assert (ReplacementMaster.queue_index (ReplacementMaster._replacement_queue m2)
            (Replacement._id s) = Some 1%nat) as I2.
  { cbn -[str_eqb str_of]. rewrite str_eqb_ne by done. by rewrite str_eqb_refl. }
  rewrite (declare_positioned m2 _ t (str_of "BEFORE") (Replacement._id s)
             (queued s (str_of "AFTER") (Some (Replacement._id r))) 1%nat Dt
             (compute_queue_position_match_before _ Hs) Hst
             (lookup_insert_eq _ _ _) eq_refl I2).
  rewrite (commit_positioned m2 _ t (str_of "BEFORE") _ 1%nat I2 (or_introl eq_refl)).
  change (if str_eqb _ _ then 1%nat else 2%nat) with 1%nat.
  eexists. split; [reflexivity|]. split; [reflexivity|].
  intros text. unfold ReplacementMaster.execute. subst m1 m2.
  cbn [ReplacementMaster._replacement_queue ReplacementMaster.list_insert
         ReplacementMaster.init take drop app foldl].
  unfold Replacement.apply.
  cbn [queued Replacement._is_committed Replacement._apply negb].
  by rewrite py_bind_ret, py_bind_assoc.
Qed.

Lemma queue_ordering_witness :
  exists master,
    (m1 ← declare_with_queue_position ReplacementMaster.init
            (str_of "PlaceholderMarkerReplacement") queue_ordering_r (str_of " ROOT");
     m2 ← declare_with_queue_position m1
            (str_of "PlaceholderUnprotectionReplacement") queue_ordering_s
            (str_of " AFTER #" ++ str_of "r");
     declare_with_queue_position m2
       (str_of "PlaceholderProtectionReplacement") queue_ordering_t
       (str_of " BEFORE #" ++ str_of "s"))
    = ([], Ok master)
    /\ map Replacement._id (ReplacementMaster._replacement_queue master)
       = [str_of "r"; str_of "t"; str_of "s"]
    /\ forall text,
        ReplacementMaster.execute master text
        = (text ← PlaceholderMaster.replace_marker_occurrences text;
           text ← PlaceholderMaster.protect text;
           PlaceholderMaster.unprotect text).
Proof.
  apply (queue_ordering queue_ordering_r queue_ordering_s queue_ordering_t).
  - split; [done | reflexivity].
  - split; [done | reflexivity].
  - apply (bool_decide_unpack _). vm_compute. reflexivity.
  - repeat constructor.
Defined.

(** ** Queue references to ids with digits *)

Lemma lazy_to_trailing_space_snoc l c :
  is_space c = false ->
  ReplacementMaster.lazy_to_trailing_space (l ++ [c]) = l ++ [c].
Proof.
  intros Hc. induction l as [|a l IH]; cbn [app ReplacementMaster.lazy_to_trailing_space].
  - cbn. by rewrite Hc.
  - rewrite IH.
    replace (forallb is_space (a :: l ++ [c])) with false; [done|].
    symmetry. cbn [forallb]. rewrite forallb_app. cbn. rewrite Hc.
    by rewrite andb_false_r, andb_false_r.
Qed.

Lemma declared_not_space c :
  ReplacementMaster.is_declared_id_character c = true -> is_space c = false.
Proof.
  unfold ReplacementMaster.is_declared_id_character, ReplacementMaster.is_lower,
    ReplacementMaster.is_digit, is_space.
  intros H. repeat (apply orb_true_iff in H as [H|H]);
    repeat (apply andb_true_iff in H as [? H]);
    repeat match goal with
      | H : (_ <=? _) = true |- _ => apply Z.leb_le in H
      | H : (_ =? _) = true |- _ => apply Z.eqb_eq in H
      end; by zb.
Qed.

Lemma span_reference_digit id_ :
  forallb ReplacementMaster.is_declared_id_character id_ = true ->
  existsb ReplacementMaster.is_digit id_ = true ->
  exists a d b,
    span ReplacementMaster.is_queue_reference_id_character id_ = (a, d :: b)
    /\ is_space d = false.
Proof.
  induction id_ as [|c l IH]; [done|]. cbn [forallb existsb span].
  intros [Hc Hl]%andb_true_iff Hd.
  destruct (ReplacementMaster.is_queue_reference_id_character c) eqn:Hq.
  - assert (ReplacementMaster.is_digit c = false) as Hnd.
    { revert Hq. unfold ReplacementMaster.is_queue_reference_id_character,
        ReplacementMaster.is_lower, ReplacementMaster.is_digit.
      intros H. repeat (apply orb_true_iff in H as [H|H]);
        repeat (apply andb_true_iff in H as [? H]);
        repeat match goal with
          | H : (_ <=? _) = true |- _ => apply Z.leb_le in H
          | H : (_ =? _) = true |- _ => apply Z.eqb_eq in H
          end; by zb. }
    rewrite Hnd in Hd. destruct (IH Hl Hd) as (a & d & b & -> & Hsp).
    by exists (c :: a), d, b.
  - exists [], c, l. split; [done|]. by apply declared_not_space.
Qed.

Lemma reference_to_end_digit id_ :
  forallb ReplacementMaster.is_declared_id_character id_ = true ->
  existsb ReplacementMaster.is_digit id_ = true ->
  ReplacementMaster.reference_to_end (str_of " #" ++ id_) = None.
Proof.
  intros Hall Hd. unfold ReplacementMaster.reference_to_end.
  change (strip_prefix (str_of " #") (str_of " #" ++ id_)) with (Some id_).
  destruct (span_reference_digit id_ Hall Hd) as (a & d & b & -> & Hsp).
  cbn [forallb]. rewrite Hsp. by destruct a.
Qed.

Lemma lazy_to_trailing_space_id pre id_ :
  forallb ReplacementMaster.is_declared_id_character id_ = true ->
  id_ <> [] ->
  ReplacementMaster.lazy_to_trailing_space (pre ++ id_) = pre ++ id_.
Proof.
  intros Hall Hne.
  destruct (exists_last Hne) as (l & c & ->).
  rewrite forallb_app in Hall. apply andb_true_iff in Hall as [_ Hc].
  cbn in Hc. rewrite andb_true_r in Hc.
  rewrite app_assoc. apply lazy_to_trailing_space_snoc.
  by apply declared_not_space.
Qed.

Lemma span_letters_colon class_name rest :
  forallb ReplacementMaster.is_letter class_name = true ->
  span ReplacementMaster.is_letter (class_name ++ 58 :: rest)
  = (class_name, 58 :: rest).
Proof. intros H. by apply span_forallb. Qed.

(** C10.  A rule id with a decimal digit is accepted by the class
    declaration grammar ([[a-z0-9-.]+]) but cannot be referenced by
    [queue_position]: [BEFORE #id] and [AFTER #id] are rejected as an invalid
    attribute value and compilation exits, whatever the master holds (so
    also when the referenced rule is committed and queued). *)
Theorem queue_position_rejects_ids_with_digits
  (master : ReplacementMaster.t) (replacement : Replacement.t)
  (class_name id_ keyword : str) :
  class_name <> [] ->
  forallb ReplacementMaster.is_letter class_name = true ->
  forallb ReplacementMaster.is_declared_id_character id_ = true ->
  existsb ReplacementMaster.is_digit id_ = true ->
  keyword = str_of "BEFORE" \/ keyword = str_of "AFTER" ->
  ReplacementMaster.compute_class_declaration_match
    (class_name ++ str_of ": #" ++ id_) = Some (class_name, id_)
  /\ ReplacementMaster.stage_queue_position master replacement
       (str_of " " ++ keyword ++ str_of " #" ++ id_)
     = ([], Raise (SystemExit
                     (str_of "invalid value `" ++ keyword ++ str_of " #" ++ id_
                        ++ str_of "` for attribute `queue_position`"))).
Proof.
  intros Hcne Hcl Hall Hd Hk.
  assert (id_ <> []) as Hne by (by destruct id_).
  split.
  - unfold ReplacementMaster.compute_class_declaration_match.
    change (class_name ++ str_of ": #" ++ id_)
      with (class_name ++ 58 :: 32 :: 35 :: id_).
    rewrite span_letters_colon by done.
    destruct class_name as [|c0 cl]; [done|].
    change (58 =? 58) with true. cbv iota.
    change (span is_space (32 :: 35 :: id_)) with ([32], 35 :: id_).
    cbv iota. change (35 =? 35) with true. cbv iota.
    rewrite <- (app_nil_r id_) at 1. rewrite span_forallb by done.
    by destruct id_.
  - unfold ReplacementMaster.stage_queue_position.
    assert (ReplacementMaster.compute_queue_position_match
              (str_of " " ++ keyword ++ str_of " #" ++ id_)
            = {| ReplacementMaster.none_keyword := None;
                 ReplacementMaster.root_keyword := None;
                 ReplacementMaster.queue_position_type := None;
                 ReplacementMaster.queue_reference_id := None;
                 ReplacementMaster.invalid_value :=
                   Some (keyword ++ str_of " #" ++ id_) |}) as ->.
    2: { cbn [ReplacementMaster.invalid_value].
         unfold ReplacementMaster.exit_with, raise.
         by rewrite <- !app_assoc. }
    unfold ReplacementMaster.compute_queue_position_match.
    destruct Hk as [-> | ->].
    + change (span is_space (str_of " " ++ str_of "BEFORE" ++ str_of " #" ++ id_))
        with ([32], str_of "BEFORE" ++ str_of " #" ++ id_).
      cbv zeta beta iota.
      change (ReplacementMaster.keyword_to_end (str_of "NONE") _) with false.
      change (ReplacementMaster.keyword_to_end (str_of "ROOT") _) with false.
      cbv zeta beta iota.
      change (strip_prefix (str_of "BEFORE") _) with (Some (str_of " #" ++ id_)).
      change (strip_prefix (str_of "AFTER") _) with (@None str).
      cbv iota beta. rewrite reference_to_end_digit by done.
      change (str_of "BEFORE" ++ str_of " #" ++ id_)
        with ((str_of "BEFORE" ++ str_of " #") ++ id_).
      by rewrite lazy_to_trailing_space_id.
    + change (span is_space (str_of " " ++ str_of "AFTER" ++ str_of " #" ++ id_))
        with ([32], str_of "AFTER" ++ str_of " #" ++ id_).
      cbv zeta beta iota.
      change (ReplacementMaster.keyword_to_end (str_of "NONE") _) with false.
      change (ReplacementMaster.keyword_to_end (str_of "ROOT") _) with false.
      cbv zeta beta iota.
      change (strip_prefix (str_of "BEFORE") _) with (@None str).
      change (strip_prefix (str_of "AFTER") _) with (Some (str_of " #" ++ id_)).
      cbv iota beta. rewrite reference_to_end_digit by done.
      change (str_of "AFTER" ++ str_of " #" ++ id_)
        with ((str_of "AFTER" ++ str_of " #") ++ id_).
      by rewrite lazy_to_trailing_space_id.
Qed.

(** ** De-indentation *)

Lemma startswith_prefix (s p : str) : startswith s p = true <-> p `prefix_of` s.
Proof.
  unfold startswith. revert s. induction p as [|a p IH]; intros s.
  - cbn. split; [intros _; apply prefix_nil | done].
  - destruct s as [|b s]; cbn [strip_prefix].
    + split; [done|]. intros [k Hk]. done.
    + destruct (Z.eqb_spec a b) as [->|Hne].
      * rewrite IH. split; [apply prefix_cons | apply prefix_cons_inv_2].
      * split; [done|]. intros H%prefix_cons_inv_1. done.
Qed.

Lemma strip_prefix_Some (p s r : str) : strip_prefix p s = Some r <-> s = p ++ r.
Proof.
  revert s. induction p as [|a p IH]; intros s; cbn [strip_prefix app].
  - split; congruence.
  - destruct s as [|b s]; [split; done|].
    destruct (Z.eqb_spec a b) as [->|Hne].
    + rewrite IH. split; congruence.
    + split; [done|]. congruence.
Qed.

Lemma span_app p (s : str) : s = fst (span p s) ++ snd (span p s).
Proof.
  induction s as [|c s IH]; [done|]. cbn [span].
  destruct (p c); [|done]. destruct (span p s). cbn in *. by f_equal.
Qed.

Lemma span_fst_forallb p (s : str) : forallb p (fst (span p s)) = true.
Proof.
  induction s as [|c s IH]; [done|]. cbn [span].
  destruct (p c) eqn:E; [|done]. destruct (span p s). cbn in *. by rewrite E.
Qed.

Lemma horizontal_no_newline (s : str) :
  forallb DeIndent.is_horizontal_space s = true -> no_newline s = true.
Proof.
  unfold no_newline. rewrite !forallb_forall. intros H c Hc.
  specialize (H c Hc). unfold DeIndent.is_horizontal_space in H.
  by apply andb_true_iff in H as [_ H].
Qed.

(** *** Lines *)

Lemma lines_nonempty s : DeIndent.lines s <> [].
Proof.
  destruct s as [|c s]; [done|]. cbn [DeIndent.lines].
  destruct (c =? newline); [done|]. by destruct (DeIndent.lines s).
Qed.

Lemma lines_cons_newline s : DeIndent.lines (newline :: s) = [] :: DeIndent.lines s.
Proof. done. Qed.

Lemma lines_cons c s :
  (c =? newline) = false ->
  DeIndent.lines (c :: s)
  = (c :: hd [] (DeIndent.lines s)) :: tl (DeIndent.lines s).
Proof.
  intros H. cbn [DeIndent.lines]. rewrite H.
  pose proof (lines_nonempty s). by destruct (DeIndent.lines s).
Qed.

Lemma lines_app p s :
  no_newline p = true ->
  DeIndent.lines (p ++ s)
  = (p ++ hd [] (DeIndent.lines s)) :: tl (DeIndent.lines s).
Proof.
  induction p as [|c p IH]; intros H.
  - cbn [app]. pose proof (lines_nonempty s). by destruct (DeIndent.lines s).
  - cbn in H. apply andb_true_iff in H as [Hc Hp]. apply negb_true_iff in Hc.
    cbn [app]. rewrite lines_cons, IH by done. done.
Qed.

Lemma lines_no_newline s : no_newline s = true -> DeIndent.lines s = [s].
Proof. intros H. rewrite <- (app_nil_r s) at 1. rewrite lines_app by done.
  cbn. by rewrite app_nil_r. Qed.

Lemma unlines_cons l ls :
  ls <> [] -> DeIndent.unlines (l :: ls) = l ++ newline :: DeIndent.unlines ls.
Proof. by destruct ls. Qed.

Lemma unlines_cons_cons c l ls :
  DeIndent.unlines ((c :: l) :: ls) = c :: DeIndent.unlines (l :: ls).
Proof. by destruct ls. Qed.

Lemma unlines_app_cons p l ls :
  DeIndent.unlines ((p ++ l) :: ls) = p ++ DeIndent.unlines (l :: ls).
Proof. destruct ls; [done|]. cbn [DeIndent.unlines]. by rewrite <- app_assoc. Qed.

Lemma lines_unlines ls :
  ls <> [] -> Forall (fun l => no_newline l = true) ls ->
  DeIndent.lines (DeIndent.unlines ls) = ls.
Proof.
  induction ls as [|l ls IH]; [done|]. intros _ H.
  apply Forall_cons in H as [Hl Hls].
  destruct ls as [|l' ls].
  - cbn. by apply lines_no_newline.
  - rewrite unlines_cons by done. rewrite lines_app by done.
    rewrite lines_cons_newline. cbn [hd tl]. rewrite app_nil_r.
    by rewrite IH.
Qed.

Lemma lines_Forall_no_newline s :
  Forall (fun l => no_newline l = true) (DeIndent.lines s).
Proof.
  induction s as [|c s IH]; [by repeat constructor|].
  destruct (c =? newline) eqn:E.
  - apply Z.eqb_eq in E as ->. rewrite lines_cons_newline. by constructor.
  - rewrite lines_cons by done. pose proof (lines_nonempty s).
    destruct (DeIndent.lines s) as [|l ls]; [done|]. cbn [hd tl].
    apply Forall_cons in IH as [Hl Hls]. constructor; [|done].
    unfold no_newline in *. cbn [forallb]. by rewrite E, Hl.
Qed.

Lemma unlines_lines s : DeIndent.unlines (DeIndent.lines s) = s.
Proof.
  induction s as [|c s IH]; [done|].
  destruct (c =? newline) eqn:E.
  - apply Z.eqb_eq in E as ->. rewrite lines_cons_newline.
    rewrite unlines_cons by apply lines_nonempty. by rewrite IH.
  - rewrite lines_cons by done. rewrite unlines_cons_cons.
    pose proof (lines_nonempty s). destruct (DeIndent.lines s); [done|].
    cbn [hd tl]. by f_equal.
Qed.

Lemma erase_last_line_nonempty ls : ls <> [] -> DeIndent.erase_last_line ls <> [].
Proof.
  destruct ls as [|l [|l' ls]]; [done| |done].
  intros _. cbn. by destruct (forallb _ l).
Qed.

Lemma erase_last_line_cons l ls :
  ls <> [] ->
  DeIndent.erase_last_line (l :: ls) = l :: DeIndent.erase_last_line ls.
Proof. by destruct ls. Qed.

Lemma last_line_pattern_cons adv prev c s :
  DeIndent.last_line_pattern adv prev (c :: s)
  = if Re.at_line_start prev && forallb DeIndent.is_horizontal_space (c :: s)
    then Some (length (c :: s), tt) else None.
Proof. unfold DeIndent.last_line_pattern. by destruct (Re.at_line_start prev). Qed.

Lemma last_line_pattern_nil adv prev : DeIndent.last_line_pattern adv prev [] = None.
Proof. unfold DeIndent.last_line_pattern. by destruct (Re.at_line_start prev). Qed.

Lemma last_line_pass s prev :
  flat_map (emit []) (Re.scan DeIndent.last_line_pattern s 0 prev)
  = DeIndent.unlines (erase_from (Re.at_line_start prev) (DeIndent.lines s)).
Proof.
  revert prev. induction s as [|c s IH]; intros prev.
  - cbn [Re.scan]. rewrite last_line_pattern_nil.
    by destruct (Re.at_line_start prev).
  - cbn [Re.scan]. rewrite last_line_pattern_cons.
    destruct (Re.at_line_start prev && forallb DeIndent.is_horizontal_space (c :: s))
      eqn:Hm.
    + apply andb_true_iff in Hm as [-> Hs].
      cbn [length]. rewrite scan_skip_all by (intros; apply last_line_pattern_nil).
      rewrite lines_no_newline by (by apply horizontal_no_newline).
      cbn [erase_from DeIndent.erase_last_line]. rewrite Hs. reflexivity.
    + cbn [flat_map emit app]. rewrite IH.
      cbn [Re.at_line_start].
      destruct (c =? newline) eqn:E.
      * apply Z.eqb_eq in E as ->. rewrite lines_cons_newline.
        assert (erase_from (Re.at_line_start prev) ([] :: DeIndent.lines s)
                = [] :: DeIndent.erase_last_line (DeIndent.lines s)) as ->.
        { unfold erase_from. destruct (Re.at_line_start prev); [|done].
          apply erase_last_line_cons, lines_nonempty. }
        rewrite unlines_cons by apply erase_last_line_nonempty, lines_nonempty.
        done.
      * rewrite lines_cons by done.
        pose proof (lines_nonempty s) as Hne.
        pose proof (unlines_lines s) as Hul.
        destruct (DeIndent.lines s) as [|l0 ls]; [done|]. cbn [hd tl erase_from].
        rewrite <- unlines_cons_cons. f_equal.
        destruct (Re.at_line_start prev); [|done].
        destruct ls as [|l1 ls]; [|done].
        cbn in Hul. subst l0. cbn [andb] in Hm.
        cbn [erase_from DeIndent.erase_last_line]. by rewrite Hm.
Qed.

Lemma last_line_sub s :
  Re.sub_const DeIndent.last_line_pattern [] s
  = DeIndent.unlines (DeIndent.erase_last_line (DeIndent.lines s)).
Proof. apply (last_line_pass s None). Qed.

(** *** The second pass: the indentations *)

Lemma span_take p (s : str) :
  take (length (fst (span p s))) s = fst (span p s)
  /\ drop (length (fst (span p s))) s = snd (span p s).
Proof.
  pose proof (span_app p s) as H.
  split.
  - rewrite H at 2. by rewrite take_app_length.
  - rewrite H at 2. by rewrite drop_app_length.
Qed.

Lemma span_length p (s : str) : (length (fst (span p s)) <= length s)%nat.
Proof.
  pose proof (span_app p s) as H. apply (f_equal length) in H.
  rewrite length_app in H. lia.
Qed.

Lemma span_snd_head p (s : str) :
  match snd (span p s) with c :: _ => p c = false | [] => True end.
Proof.
  induction s as [|c s IH]; [done|]. cbn [span].
  destruct (p c) eqn:E; [|done]. by destruct (span p s).
Qed.

Lemma span_cons_true p c (s : str) :
  p c = true -> span p (c :: s) = (c :: fst (span p s), snd (span p s)).
Proof. intros H. cbn [span]. rewrite H. by destruct (span p s). Qed.

Lemma span_cons_false p c (s : str) : p c = false -> span p (c :: s) = ([], c :: s).
Proof. intros H. cbn [span]. by rewrite H. Qed.

Lemma horizontal_not_newline c :
  DeIndent.is_horizontal_space c = true -> (c =? newline) = false.
Proof.
  unfold DeIndent.is_horizontal_space. intros [_ H]%andb_true_iff.
  by apply negb_true_iff.
Qed.

Lemma hd_lines_head s :
  match hd [] (DeIndent.lines s) with
  | c :: _ => exists s', s = c :: s' /\ (c =? newline) = false
  | [] => True
  end.
Proof.
  destruct s as [|c s]; [done|].
  destruct (c =? newline) eqn:E.
  - apply Z.eqb_eq in E as ->. by rewrite lines_cons_newline.
  - rewrite lines_cons by done. cbn [hd]. by exists s.
Qed.

(** The leading whitespace of the first line is the leading whitespace of
    the text. *)
Lemma leading_whitespace_first_line s :
  DeIndent.leading_whitespace (hd [] (DeIndent.lines s))
  = fst (span DeIndent.is_horizontal_space s).
Proof.
  unfold DeIndent.leading_whitespace.
  induction s as [|c s IH]; [done|].
  destruct (c =? newline) eqn:E.
  - apply Z.eqb_eq in E as ->. by rewrite lines_cons_newline.
  - rewrite lines_cons by done. cbn [hd].
    destruct (DeIndent.is_horizontal_space c) eqn:Hc.
    + rewrite !span_cons_true by done. cbn [fst]. by rewrite IH.
    + by rewrite !span_cons_false.
Qed.

Lemma indentation_pattern_eq adv prev s :
  DeIndent.indentation_pattern adv prev s
  = if Re.at_line_start prev then
      match fst (span DeIndent.is_horizontal_space s) with
      | _ :: _ => Some (length (fst (span DeIndent.is_horizontal_space s)), tt)
      | [] => if Re.at_line_end s || adv then None else Some (O, tt)
      end
    else None.
Proof.
  unfold DeIndent.indentation_pattern.
  by destruct (span DeIndent.is_horizontal_space s).
Qed.

Lemma texts_hit {G} t (g : G) evs : texts (Re.Hit t g :: evs) = t :: texts evs.
Proof. done. Qed.

Lemma texts_lit {G} c (evs : list (Re.event G)) : texts (Re.Lit c :: evs) = texts evs.
Proof. done. Qed.

Lemma indentation_pass s : forall skip prev,
  (skip <= length s)%nat -> no_newline (take skip s) = true ->
  texts (Re.scan DeIndent.indentation_pattern s skip prev)
  = indents (Re.at_line_start prev && (skip =? 0)%nat)
      (DeIndent.lines (drop skip s)).
Proof.
  induction s as [|c s IH]; intros skip prev Hle Hnn.
  - destruct skip; [|cbn in Hle; lia]. cbn [Re.scan drop].
    rewrite indentation_pattern_eq. by destruct (Re.at_line_start prev).
  - destruct skip as [|k].
    + cbn [Re.scan drop]. rewrite andb_true_r, !indentation_pattern_eq.
      destruct (Re.at_line_start prev) eqn:B.
      * destruct (DeIndent.is_horizontal_space c) eqn:Hc.
        -- pose proof (horizontal_not_newline c Hc) as Hnl.
           rewrite span_cons_true by done. cbn [fst length].
           destruct (span_take DeIndent.is_horizontal_space s) as [Ht Hd].
           rewrite texts_hit, IH.
           2: apply span_length.
           2: { rewrite Ht. apply horizontal_no_newline, span_fst_forallb. }
           cbn [Re.at_line_start]. rewrite Hnl. cbn [andb].
           rewrite firstn_cons, Ht, Hd.
           rewrite (span_app DeIndent.is_horizontal_space s) at 3.
           rewrite app_comm_cons, lines_app.
           2: { apply (horizontal_no_newline (c :: _)). cbn [forallb].
                by rewrite Hc, span_fst_forallb. }
           unfold indents. cbn [List.filter DeIndent.is_nonempty app map].
           f_equal.
           pose proof (leading_whitespace_first_line
                         (c :: fst (span DeIndent.is_horizontal_space s)
                            ++ snd (span DeIndent.is_horizontal_space s))) as Hlw.
           rewrite app_comm_cons, lines_app in Hlw.
           2: { apply (horizontal_no_newline (c :: _)). cbn [forallb].
                by rewrite Hc, span_fst_forallb. }
           cbn [hd] in Hlw. etransitivity; [|symmetry; exact Hlw].
           rewrite <- app_comm_cons, <- span_app.
           by rewrite span_cons_true.
        -- rewrite span_cons_false by done. cbn [fst Re.at_line_end].
           destruct (c =? newline) eqn:E.
           ++ apply Z.eqb_eq in E as ->. cbn [orb].
              rewrite texts_lit, IH by (done || cbn; lia).
              by rewrite lines_cons_newline.
           ++ cbn [orb].
              rewrite texts_hit, texts_lit, IH by (done || cbn; lia).
              cbn [Re.at_line_start]. rewrite E. cbn [andb].
              rewrite lines_cons by done. unfold indents.
              cbn [List.filter DeIndent.is_nonempty map]. f_equal.
              unfold DeIndent.leading_whitespace. by rewrite span_cons_false.
      * rewrite texts_lit, IH by (done || cbn; lia).
        cbn [Re.at_line_start]. rewrite andb_true_r.
        destruct (c =? newline) eqn:E.
        -- apply Z.eqb_eq in E as ->. by rewrite lines_cons_newline.
        -- by rewrite lines_cons.
    + cbn [Re.scan drop]. cbn [take no_newline forallb] in Hnn.
      unfold no_newline in Hnn. cbn [firstn forallb] in Hnn.
      apply andb_true_iff in Hnn as [Hc Hk]. apply negb_true_iff in Hc.
      rewrite IH by (done || cbn in Hle; lia).
      cbn [Re.at_line_start]. rewrite Hc. by rewrite andb_false_r.
Qed.

Lemma indentation_findall s :
  Re.findall DeIndent.indentation_pattern s
  = map DeIndent.leading_whitespace
      (List.filter DeIndent.is_nonempty (DeIndent.lines s)).
Proof. apply (indentation_pass s 0 None); [lia | done]. Qed.

(** *** The third pass: the common indentation is removed *)

Lemma strip_from_true p ls : strip_from true p ls = map (strip p) ls.
Proof. by destruct ls. Qed.

Lemma strip_app p r : strip p (p ++ r) = r.
Proof. unfold strip. by rewrite (proj2 (strip_prefix_Some p (p ++ r) r) eq_refl). Qed.

Lemma strip_nil l : strip [] l = l.
Proof. done. Qed.

Lemma lines_hd_tl s : DeIndent.lines s = hd [] (DeIndent.lines s) :: tl (DeIndent.lines s).
Proof. pose proof (lines_nonempty s). by destruct (DeIndent.lines s). Qed.

(** A literal that starts the first line starts the text. *)
Lemma strip_prefix_first_line p s :
  strip_prefix p s = None -> strip p (hd [] (DeIndent.lines s)) = hd [] (DeIndent.lines s).
Proof.
  intros H. unfold strip.
  destruct (strip_prefix p (hd [] (DeIndent.lines s))) as [r|] eqn:E; [|done].
  apply strip_prefix_Some in E.
  pose proof (unlines_lines s) as Hs. rewrite lines_hd_tl, E in Hs.
  rewrite unlines_app_cons in Hs.
  symmetry in Hs. apply strip_prefix_Some in Hs. congruence.
Qed.

Lemma line_prefix_pattern_eq p adv prev s :
  DeIndent.line_prefix_pattern p adv prev s
  = if Re.at_line_start prev then
      match strip_prefix p s with
      | Some _ =>
          match p with
          | [] => if adv then None else Some (O, tt)
          | _ :: _ => Some (length p, tt)
          end
      | None => None
      end
    else None.
Proof. done. Qed.

(** A character that is passed through, whatever the line it is in. *)
Lemma unlines_strip_from_cons p c s :
  c :: DeIndent.unlines
         (strip_from (Re.at_line_start (Some c)) p (DeIndent.lines s))
  = DeIndent.unlines (strip_from false p (DeIndent.lines (c :: s))).
Proof.
  cbn [Re.at_line_start]. destruct (c =? newline) eqn:E.
  - apply Z.eqb_eq in E as ->. rewrite lines_cons_newline, strip_from_true.
    cbn [strip_from]. rewrite unlines_cons; [done|].
    pose proof (lines_nonempty s). by destruct (DeIndent.lines s).
  - rewrite lines_cons by done. rewrite (lines_hd_tl s) at 1.
    cbn [strip_from]. by rewrite unlines_cons_cons.
Qed.

Lemma line_prefix_pass p s : no_newline p = true -> forall skip prev,
  (skip <= length s)%nat -> no_newline (take skip s) = true ->
  flat_map (emit []) (Re.scan (DeIndent.line_prefix_pattern p) s skip prev)
  = DeIndent.unlines
      (strip_from (Re.at_line_start prev && (skip =? 0)%nat) p
         (DeIndent.lines (drop skip s))).
Proof.
  intros Hp. induction s as [|c s IH]; intros skip prev Hle Hnn.
  - destruct skip; [|cbn in Hle; lia]. cbn [Re.scan drop].
    rewrite line_prefix_pattern_eq.
    destruct (Re.at_line_start prev); [|done].
    destruct p; done.
  - destruct skip as [|k].
    + cbn [Re.scan drop]. rewrite andb_true_r, !line_prefix_pattern_eq.
      assert (flat_map (emit []) (Re.Lit c :: Re.scan (DeIndent.line_prefix_pattern p)
                                                s 0 (Some c))
              = DeIndent.unlines (strip_from false p (DeIndent.lines (c :: s))))
        as Hlit.
      { cbn [flat_map emit app]. rewrite IH by (done || cbn; lia).
        rewrite andb_true_r. apply unlines_strip_from_cons. }
      destruct (Re.at_line_start prev) eqn:B; [|done].
      destruct (strip_prefix p (c :: s)) as [r|] eqn:E.
      * destruct p as [|a p'].
        -- change (flat_map (emit []) (Re.Hit [] tt :: ?l)) with (flat_map (emit (G:=unit) []) l).
           rewrite Hlit. rewrite (lines_hd_tl (c :: s)). by cbn.
        -- apply strip_prefix_Some in E. injection E as Hca Hs. subst a s.
           cbn [length flat_map emit app].
           unfold no_newline in Hp. cbn [forallb] in Hp.
           apply andb_true_iff in Hp as [Ha Hp']. apply negb_true_iff in Ha.
           rewrite IH.
           2: { rewrite length_app. lia. }
           2: { by rewrite take_app_length. }
           cbn [Re.at_line_start]. rewrite Ha. cbn [andb].
           rewrite drop_app_length.
           change (c :: p' ++ r) with ((c :: p') ++ r).
           rewrite lines_app.
           2: { unfold no_newline. cbn [forallb]. by rewrite Ha. }
           rewrite (lines_hd_tl r) at 1.
           cbn [strip_from]. by rewrite strip_app.
      * rewrite Hlit. rewrite (lines_hd_tl (c :: s)).
        cbn [strip_from]. by rewrite strip_prefix_first_line.
    + cbn [Re.scan drop].
      unfold no_newline in Hnn. cbn [firstn forallb] in Hnn.
      apply andb_true_iff in Hnn as [Hc Hk]. apply negb_true_iff in Hc.
      rewrite IH by (done || cbn in Hle; lia).
      cbn [Re.at_line_start]. rewrite Hc. by rewrite andb_false_r.
Qed.

Lemma line_prefix_sub p s :
  no_newline p = true ->
  Re.sub_const (DeIndent.line_prefix_pattern p) [] s
  = DeIndent.unlines (map (strip p) (DeIndent.lines s)).
Proof.
  intros Hp. unfold Re.sub_const.
  change (fun ev : Re.event unit => match ev with
                                    | Re.Lit c => [c]
                                    | Re.Hit _ _ => []
                                    end) with (emit (G:=unit) []).
  rewrite (line_prefix_pass p s Hp 0 None) by (done || lia).
  by rewrite strip_from_true.
Qed.

(** *** The longest common prefix *)

Lemma shortest_elem (strings : list str) :
  strings <> [] -> DeIndent.shortest strings ∈ strings.
Proof.
  destruct strings as [|x rest]; [done|]. intros _. cbn [DeIndent.shortest].
  assert (forall best, foldl (fun best y : str =>
                                if (length y <? length best)%nat then y else best)
                             best rest ∈ best :: rest) as H.
  { induction rest as [|y rest IH]; intros best; [by left|].
    cbn [foldl]. specialize (IH (if (length y <? length best)%nat then y else best)).
    destruct (length y <? length best)%nat.
    - by right.
    - apply elem_of_cons in IH as [->|Hin]; [by left | by do 2 right]. }
  apply H.
Qed.

Lemma prefix_take_le (q sh : str) n :
  q `prefix_of` sh -> (length q <= n)%nat -> q `prefix_of` take n sh.
Proof.
  intros [k ->] Hn. exists (take (n - length q) k).
  rewrite take_app. by rewrite take_ge.
Qed.

Lemma forallb_startswith strings (q : str) :
  forallb (fun string => startswith string q) strings = true
  <-> Forall (fun string => q `prefix_of` string) strings.
Proof.
  rewrite forallb_forall, Forall_forall. split; intros H x Hx.
  - apply startswith_prefix, H. by apply list_elem_of_In.
  - apply startswith_prefix, H. by apply list_elem_of_In.
Qed.

Lemma shrink_common strings sh n :
  Forall (fun string => DeIndent.shrink strings sh n `prefix_of` string) strings.
Proof.
  induction n as [|k IH]; cbn [DeIndent.shrink].
  - apply Forall_forall. intros. apply prefix_nil.
  - destruct (forallb _ strings) eqn:E; [|done]. by apply forallb_startswith.
Qed.

Lemma shrink_longest strings sh n (q : str) :
  q `prefix_of` sh -> (length q <= n)%nat ->
  Forall (fun string => q `prefix_of` string) strings ->
  q `prefix_of` DeIndent.shrink strings sh n.
Proof.
  intros Hq Hn Hall. induction n as [|k IH]; cbn [DeIndent.shrink].
  - destruct q; [done | cbn in Hn; lia].
  - destruct (forallb (fun string => startswith string (take (S k) sh)) strings) eqn:E.
    + by apply prefix_take_le.
    + destruct (decide (length q = S k)) as [Hl|Hl]; [|apply IH; lia].
      exfalso. destruct Hq as [k' ->].
      rewrite <- Hl, take_app_length in E.
      apply forallb_startswith in Hall. congruence.
Qed.

Lemma common_prefix_spec (q a b : str) :
  q `prefix_of` DeIndent.common_prefix a b <-> q `prefix_of` a /\ q `prefix_of` b.
Proof.
  revert q b. induction a as [|x a IH]; intros q b.
  - cbn. split; [|by intros [? _]].
    intros ->%prefix_nil_inv. split; apply prefix_nil.
  - destruct b as [|y b]; cbn [DeIndent.common_prefix].
    + split; [|by intros [_ ?]].
      intros ->%prefix_nil_inv. split; apply prefix_nil.
    + destruct (Z.eqb_spec x y) as [->|Hne].
      * destruct q as [|z q]; [split; intros; repeat split; apply prefix_nil|].
        split.
        -- intros H. pose proof (prefix_cons_inv_1 _ _ _ _ H) as ->.
           apply prefix_cons_inv_2, IH in H as [? ?].
           split; by apply prefix_cons.
        -- intros [H1 H2]. pose proof (prefix_cons_inv_1 _ _ _ _ H1) as ->.
           apply prefix_cons, IH.
           split; by eapply prefix_cons_inv_2.
      * split.
        -- intros ->%prefix_nil_inv. split; apply prefix_nil.
        -- intros [H1 H2]. destruct q as [|z q]; [done|].
           apply prefix_cons_inv_1 in H1, H2. congruence.
Qed.

Lemma foldl_common_prefix_spec (q x : str) rest :
  q `prefix_of` foldl DeIndent.common_prefix x rest
  <-> Forall (fun string => q `prefix_of` string) (x :: rest).
Proof.
  revert x. induction rest as [|y rest IH]; intros x; cbn [foldl].
  - rewrite Forall_singleton. done.
  - rewrite IH, !Forall_cons, common_prefix_spec. tauto.
Qed.

Lemma compute_longest_common_prefix_correct strings :
  DeIndent.compute_longest_common_prefix strings
  = DeIndent.longest_common_prefix strings.
Proof.
  destruct strings as [|x rest]; [done|].
  unfold DeIndent.compute_longest_common_prefix, DeIndent.longest_common_prefix.
  set (strings := x :: rest). set (sh := DeIndent.shortest strings).
  apply (anti_symm prefix).
  - apply foldl_common_prefix_spec, shrink_common.
  - assert (Forall (fun string => foldl DeIndent.common_prefix x rest `prefix_of` string)
              strings) as Hall by (by apply foldl_common_prefix_spec).
    assert (sh ∈ strings) as Hsh by (by apply shortest_elem).
    rewrite Forall_forall in Hall. pose proof (Hall sh Hsh) as Hq.
    apply shrink_longest; [done | by apply prefix_length | by apply Forall_forall].
Qed.

Lemma compute_longest_common_prefix_common strings :
  Forall (fun string => DeIndent.compute_longest_common_prefix strings `prefix_of` string)
    strings.
Proof. apply shrink_common. Qed.

Lemma erase_last_line_no_newline ls :
  Forall (fun l => no_newline l = true) ls ->
  Forall (fun l => no_newline l = true) (DeIndent.erase_last_line ls).
Proof.
  induction ls as [|l ls IH]; [done|]. intros [Hl Hls]%Forall_cons.
  destruct ls as [|l' ls].
  - cbn. destruct (forallb _ l); by repeat constructor.
  - rewrite erase_last_line_cons by done. constructor; [done | by apply IH].
Qed.

Lemma leading_whitespace_prefix l : DeIndent.leading_whitespace l `prefix_of` l.
Proof.
  unfold DeIndent.leading_whitespace.
  exists (snd (span DeIndent.is_horizontal_space l)). apply span_app.
Qed.

Lemma leading_whitespace_no_newline l :
  no_newline (DeIndent.leading_whitespace l) = true.
Proof. apply horizontal_no_newline, span_fst_forallb. Qed.

Lemma no_newline_prefix (p l : str) :
  p `prefix_of` l -> no_newline l = true -> no_newline p = true.
Proof.
  intros [k ->]. unfold no_newline. rewrite forallb_app.
  by intros [? _]%andb_true_iff.
Qed.

(** C6.  De-indentation: [de_indent] erases the last line when it consists
    of whitespace only, takes the longest common prefix of the leading
    whitespace of the lines that are then not empty (lines of whitespace
    only count, empty lines do not), and strips that prefix from every
    line. *)
Theorem de_indent_correct (string : str) :
  DeIndent.de_indent string = DeIndent.de_indent_spec string.
Proof.
  unfold DeIndent.de_indent, DeIndent.de_indent_spec.
  rewrite last_line_sub.
  set (ls := DeIndent.erase_last_line (DeIndent.lines string)).
  assert (ls <> []) as Hne by apply erase_last_line_nonempty, lines_nonempty.
  assert (Forall (fun l => no_newline l = true) ls) as Hnl
    by apply erase_last_line_no_newline, lines_Forall_no_newline.
  rewrite indentation_findall, lines_unlines by done.
  remember (map DeIndent.leading_whitespace (List.filter DeIndent.is_nonempty ls))
    as indentations eqn:Hind.
  pose proof (compute_longest_common_prefix_common indentations) as Hcommon.
  rewrite <- compute_longest_common_prefix_correct.
  remember (DeIndent.compute_longest_common_prefix indentations) as p eqn:Hpdef.
  rewrite Forall_forall in Hcommon.
  assert (forall l, l ∈ ls -> l <> [] -> p `prefix_of` l) as Hp.
  { intros l Hl Hl'.
    etransitivity; [|apply (leading_whitespace_prefix l)].
    apply Hcommon. rewrite Hind. apply list_elem_of_fmap_2.
    apply list_elem_of_In, filter_In. split; [by apply list_elem_of_In|].
    by destruct l. }
  assert (no_newline p = true) as Hpn.
  { destruct indentations as [|i0 il]; [by subst p|].
    assert (i0 ∈ map DeIndent.leading_whitespace
                   (List.filter DeIndent.is_nonempty ls)) as Hi
      by (rewrite <- Hind; by left).
    apply list_elem_of_fmap in Hi as (l0 & -> & _).
    eapply no_newline_prefix; [|apply (leading_whitespace_no_newline l0)].
    apply Hcommon. by left. }
  rewrite line_prefix_sub, lines_unlines by done.
  f_equal. apply map_ext_in. intros l Hl%list_elem_of_In.
  destruct l as [|c l].
  - unfold strip. rewrite drop_nil. by destruct (strip_prefix p []) as [[|]|] eqn:E;
      [| apply strip_prefix_Some in E; destruct p |].
  - destruct (Hp (c :: l) Hl) as [r ->]; [done|].
    by rewrite strip_app, drop_app_length.
Qed.

(** ** Flag gating *)

Lemma flagged_de_indentation_built :
  (r ← Replacement.set_positive_flag_name (DeIndentationReplacement.init (str_of "d"))
         (Some (str_of "F"));
   Replacement.commit r)
  = mret flagged_de_indentation.
Proof. reflexivity. Qed.

(** C9, as stated, fails: with the flags argument omitted a rule whose
    positive flag is set is applied all the same. *)
Lemma flag_gating_omitted_counterexample :
  ~ (forall (r : Replacement.t) (text p : str) (enabled_flag_names : option (gset str)),
        Replacement._is_committed r = true ->
        Replacement._positive_flag_name r = Some p ->
        match enabled_flag_names with
        | Some flags => p ∉ flags
        | None => True
        end ->
        Replacement.apply r text enabled_flag_names = mret text).
Proof.
  intros H.
  specialize (H flagged_de_indentation (str_of " a") (str_of "F") None
                eq_refl eq_refl I).
  vm_compute in H. discriminate H.
Qed.

(** C9, amended.  For a committed rule, [apply(text, enabledFlags)] with the
    flags argument given returns [text] unchanged when a positive flag is set
    and absent from it, or a negative flag is set and present in it; with the
    argument omitted no gating takes place and the rule is applied. *)
Theorem flag_gating (r : Replacement.t) (text : str) :
  Replacement._is_committed r = true ->
  (forall enabled_flag_names : gset str,
      gated r enabled_flag_names ->
      Replacement.apply r text (Some enabled_flag_names) = mret text)
  /\ Replacement.apply r text None = Replacement._apply r text.
Proof.
  intros Hc. unfold Replacement.apply. rewrite Hc. cbn [negb]. split; [|done].
  intros flags [(p & Hp & Hin) | (n & Hn & Hin)].
  - rewrite Hp. by rewrite bool_decide_eq_true_2.
  - rewrite Hn. destruct (Replacement._positive_flag_name r) as [p|].
    + destruct (bool_decide (p ∉ flags)); [done|].
      by rewrite bool_decide_eq_true_2.
    + by rewrite bool_decide_eq_true_2.
Qed.

Lemma flag_gating_witness :
  (forall enabled_flag_names : gset str,
      gated flagged_de_indentation enabled_flag_names ->
      Replacement.apply flagged_de_indentation (str_of " a") (Some enabled_flag_names)
      = mret (str_of " a"))
  /\ Replacement.apply flagged_de_indentation (str_of " a") None
     = Replacement._apply flagged_de_indentation (str_of " a").
Proof. apply (flag_gating flagged_de_indentation (str_of " a")). reflexivity. Defined.

(** ** The upper edge of the run characters *)

(** C3 fails on the code: the pattern accepts U+E100 as a run character
    ([_RUN_CHARACTER_MAX]), whose offset 256 is no byte, and [bytes(...)]
    raises [ValueError], which [_unprotect_substitute_function] does not
    catch. *)
Theorem unprotect_run_character_max_raises :
  PlaceholderMaster.unprotect
    [PlaceholderMaster.MARKER; 0xE100; PlaceholderMaster.MARKER]
  = ([], Raise ValueError).
Proof. vm_compute. reflexivity. Qed.

(** An invalid byte sequence below that edge is replaced by U+FFFD, with a
    diagnostic. *)
Lemma unprotect_invalid_bytes :
  PlaceholderMaster.unprotect
    [0x41; PlaceholderMaster.MARKER; 0xE0FF; PlaceholderMaster.MARKER; 0x42]
  = ([[0xFF]], Ok [0x41; PlaceholderMaster._REPLACEMENT_CHARACTER; 0x42]).
Proof. vm_compute. reflexivity. Qed.

(** ** Ordinary dictionaries *)

Import OrdinaryDictionaryReplacement.

Lemma literal_matches_false_adv old s :
  literal_matches false old s = startswith s old.
Proof. unfold literal_matches. by rewrite andb_true_r. Qed.

Lemma str_replace_empty new s :
  str_replace [] new s = new ++ flat_map (fun c => c :: new) s.
Proof.
  unfold str_replace, Re.sub_const, literal_matches.
  cbn [startswith strip_prefix is_empty andb length]. generalize (@None Z).
  induction s as [|c s IH]; intros prev; cbn [Re.scan].
  - cbn. by rewrite app_nil_r.
  - cbn [andb negb flat_map app].
    by rewrite (IH (Some c)).
Qed.

Lemma str_replace_nonempty old new s :
  old <> [] -> forall skip prev, (skip <= length s)%nat ->
  replaced_everywhere old new (drop skip s)
    (flat_map (emit new)
       (Re.scan (fun adv (_ : option Z) s =>
                   if literal_matches adv old s then Some (length old, tt) else None)
          s skip prev)).
Proof.
  intros Hold. induction s as [|c s IH]; intros skip prev Hle.
  - destruct skip; [|cbn in Hle; lia]. cbn [Re.scan drop].
    rewrite literal_matches_false_adv.
    destruct old as [|a old]; [done|]. cbn. by apply replaced_end.
  - destruct skip as [|k].
    + cbn [Re.scan drop]. rewrite literal_matches_false_adv.
      destruct (startswith (c :: s) old) eqn:E.
      * apply startswith_prefix in E as [r E].
        destruct old as [|a old]; [done|]. injection E as -> ->.
        cbn [length flat_map emit].
        apply (replaced_hit (a :: old) new r); [done|].
        specialize (IH (length old) (Some a)).
        rewrite drop_app_length in IH. apply IH.
        rewrite length_app. lia.
      * cbn [flat_map emit app]. apply replaced_pass; [done| |by apply (IH 0%nat); lia].
        intros H%startswith_prefix. congruence.
    + cbn [Re.scan drop]. apply IH. cbn in Hle. lia.
Qed.

(** [str.replace] replaces every occurrence, from left to right. *)
Lemma str_replace_everywhere old new s :
  replaced_everywhere old new s (str_replace old new s).
Proof.
  destruct old as [|a old].
  - rewrite str_replace_empty. by apply replaced_empty.
  - apply (str_replace_nonempty (a :: old) new s ltac:(done) 0%nat None). lia.
Qed.

Lemma foldl_str_replace_in_order d s :
  replaced_in_order d s
    (foldl (fun string '(pattern, substitute) => str_replace pattern substitute string)
       s d).
Proof.
  revert s. induction d as [|[old new] d IH]; intros s; cbn [foldl].
  - apply in_order_nil.
  - eapply in_order_cons; [apply str_replace_everywhere | apply IH].
Qed.

(** C4 fails on the code: in sequential mode the concluding replacements
    are applied to the whole text, unmatched text included, and not to each
    substitute value before it is inserted.  With [a --> b], the concluding
    rule [c --> d] and the text [ac] the code returns [bd]; threading the
    substitute alone, as the simultaneous mode does, gives [bc]. *)
Lemma sequential_concluding_counterexample :
  OrdinaryDictionaryReplacement._apply rule_a_to_b_sequential (str_of "ac")
  = mret (str_of "bd")
  /\ sequential_apply_as_specified rule_a_to_b_sequential (str_of "ac")
     = mret (str_of "bc")
  /\ OrdinaryDictionaryReplacement._apply rule_a_to_b_sequential (str_of "ac")
     <> sequential_apply_as_specified rule_a_to_b_sequential (str_of "ac").
Proof. repeat split; vm_compute; (reflexivity || discriminate). Qed.

(** What the code does in sequential mode: each pattern is replaced
    everywhere, in declaration order, before the next pattern is
    considered; the concluding replacements are then applied, once, to the
    whole resulting text. *)
Theorem sequential_apply_in_order (self : OrdinaryDictionaryReplacement.t)
  (id_ string : str) :
  _apply_substitutions_simultaneously self = false ->
  exists replaced,
    replaced_in_order (_substitute_from_pattern self) string replaced
    /\ Replacement.apply (committed id_ self) string None
       = apply_each (_concluding_replacements self) replaced.
Proof.
  intros Hmode. eexists. split; [apply foldl_str_replace_in_order|].
  unfold Replacement.apply. cbn [committed Replacement._is_committed negb
                                   Replacement._apply].
  unfold OrdinaryDictionaryReplacement._apply. by rewrite Hmode.
Qed.

Lemma sequential_apply_in_order_witness :
  exists replaced,
    replaced_in_order (_substitute_from_pattern rule_a_to_b_sequential)
      (str_of "ac") replaced
    /\ Replacement.apply (committed (str_of "a-to-b") rule_a_to_b_sequential)
         (str_of "ac") None
       = apply_each (_concluding_replacements rule_a_to_b_sequential) replaced.
Proof.
  apply (sequential_apply_in_order rule_a_to_b_sequential). reflexivity.
Defined.

(** *** Simultaneous mode *)

Section ScanExt.
Context {G : Type} (m1 m2 : Re.matcher G).
Hypothesis Hm : forall adv prev s, m1 adv prev s = m2 adv prev s.

Lemma scan_ext s skip prev : Re.scan m1 s skip prev = Re.scan m2 s skip prev.
Proof.
  revert skip prev. induction s as [|c s IH]; intros skip prev; cbn [Re.scan].
  - by rewrite Hm.
  - destruct skip; [|apply IH]. rewrite !Hm.
    destruct (m2 false prev (c :: s)) as [[[|n] g]|]; rewrite ?IH; try done.
    destruct (m2 true prev (c :: s)) as [[[|n'] g']|]; by rewrite ?IH.
Qed.

Lemma sub_ext (f1 f2 : str -> G -> py str) s :
  (forall t g, f1 t g = f2 t g) -> Re.sub m1 f1 s = Re.sub m2 f2 s.
Proof.
  intros Hf. unfold Re.sub. rewrite scan_ext.
  unfold Re.join_events.
  induction (Re.scan m2 s 0 None) as [|[c|t g] evs IH]; [done| |].
  - cbn [foldr]. by rewrite IH.
  - cbn [foldr]. by rewrite IH, Hf.
Qed.
End ScanExt.

Lemma literal_matches_prefix adv old s :
  literal_matches adv old s = true -> old `prefix_of` s.
Proof. unfold literal_matches. intros [H _]%andb_true_iff. by apply startswith_prefix. Qed.

Lemma first_alternative_Some adv d s n :
  first_alternative adv d s = Some (n, tt) ->
  exists p, p ∈ map fst d /\ literal_matches adv p s = true /\ n = length p.
Proof.
  induction d as [|[p v] d IH]; [done|]. cbn [first_alternative].
  destruct (literal_matches adv p s) eqn:E.
  - intros [= <-]. exists p. split; [by left | done].
  - intros (q & Hq & ?)%IH. exists q. split; [by right | done].
Qed.

Lemma first_alternative_None adv d s :
  first_alternative adv d s = None ->
  forall p, p ∈ map fst d -> literal_matches adv p s = false.
Proof.
  induction d as [|[p v] d IH]; [by intros _ p Hp%elem_of_nil|].
  cbn [first_alternative].
  destruct (literal_matches adv p s) eqn:E; [done|].
  intros H q Hq. cbn in Hq. apply elem_of_cons in Hq as [->|Hq]; [done|].
  by apply IH.
Qed.

Lemma first_alternative_perm adv d1 d2 s :
  d1 ≡ₚ d2 -> prefix_free d1 ->
  first_alternative adv d1 s = first_alternative adv d2 s.
Proof.
  intros Hperm Hfree.
  assert (forall p, p ∈ map fst d1 <-> p ∈ map fst d2) as Hkeys.
  { intros p. by rewrite Hperm. }
  destruct (first_alternative adv d1 s) as [[n []]|] eqn:E1;
    destruct (first_alternative adv d2 s) as [[n' []]|] eqn:E2; [| | |done].
  - apply first_alternative_Some in E1 as (p & Hp & Hmp & ->).
    apply first_alternative_Some in E2 as (q & Hq & Hmq & ->).
    apply Hkeys in Hq.
    destruct (prefix_weak_total p q s) as [H|H];
      try (by eapply literal_matches_prefix).
    + by rewrite (Hfree p q Hp Hq H).
    + by rewrite (Hfree q p Hq Hp H).
  - apply first_alternative_Some in E1 as (p & Hp & Hmp & ->).
    apply Hkeys in Hp. pose proof (first_alternative_None _ _ _ E2 p Hp). congruence.
  - apply first_alternative_Some in E2 as (q & Hq & Hmq & ->).
    apply Hkeys in Hq. pose proof (first_alternative_None _ _ _ E1 q Hq). congruence.
Qed.

Lemma dict_get_Some d k v :
  NoDup (map fst d) -> dict_get d k = Some v <-> (k, v) ∈ d.
Proof.
  induction d as [|[k' v'] d IH]; cbn [dict_get map fst].
  - intros _. split; [done | by intros ?%elem_of_nil].
  - intros [Hk' Hnd]%NoDup_cons. unfold str_eqb.
    destruct (decide (k' = k)) as [->|Hne].
    + rewrite bool_decide_eq_true_2 by done. split.
      * intros [= ->]. by left.
      * intros [[= ->]|Hin]%elem_of_cons; [done|].
        destruct Hk'. apply list_elem_of_fmap. by exists (k, v).
    + rewrite bool_decide_eq_false_2 by done. rewrite IH by done.
      rewrite elem_of_cons. split; [by right|]. by intros [[= ? ?]|?].
Qed.

Lemma dict_get_perm d1 d2 k :
  d1 ≡ₚ d2 -> NoDup (map fst d1) -> dict_get d1 k = dict_get d2 k.
Proof.
  intros Hperm Hnd1.
  assert (NoDup (map fst d2)) as Hnd2 by (by rewrite <- Hperm).
  destruct (dict_get d1 k) as [v|] eqn:E1.
  - apply dict_get_Some in E1; [|done]. rewrite Hperm in E1.
    symmetry. by apply dict_get_Some.
  - destruct (dict_get d2 k) as [v|] eqn:E2; [|done].
    apply dict_get_Some in E2; [|done]. rewrite <- Hperm in E2.
    apply dict_get_Some in E2; [|done]. congruence.
Qed.

(** C5, as stated, fails: with the patterns [a] and [ab] the alternation
    takes the first alternative that matches, so the declaration order
    decides what becomes of the text [ab]. *)
Lemma simultaneous_order_counterexample :
  ~ (forall (d1 d2 : list (str * str)) (concluding : list Replacement.t) (string : str),
        d1 ≡ₚ d2 -> NoDup (map fst d1) ->
        OrdinaryDictionaryReplacement._apply (simultaneous d1 concluding) string
        = OrdinaryDictionaryReplacement._apply (simultaneous d2 concluding) string).
Proof.
  intros H.
  specialize (H [(str_of "a", str_of "1"); (str_of "ab", str_of "2")]
                [(str_of "ab", str_of "2"); (str_of "a", str_of "1")]
                [] (str_of "ab")).
  assert (OrdinaryDictionaryReplacement._apply
            (simultaneous [(str_of "a", str_of "1"); (str_of "ab", str_of "2")] [])
            (str_of "ab")
          = OrdinaryDictionaryReplacement._apply
              (simultaneous [(str_of "ab", str_of "2"); (str_of "a", str_of "1")] [])
              (str_of "ab")) as Heq.
  { apply H.
    - apply Permutation_swap.
    - apply (bool_decide_unpack _). vm_compute. reflexivity. }
  vm_compute in Heq. discriminate Heq.
Qed.

(** C5, amended.  Simultaneous mode does not depend on the declaration order
    when no pattern is a prefix of another pattern. *)
Theorem simultaneous_order_independent (d1 d2 : list (str * str))
  (concluding : list Replacement.t) (string : str) :
  d1 ≡ₚ d2 -> NoDup (map fst d1) -> prefix_free d1 ->
  OrdinaryDictionaryReplacement._apply (simultaneous d1 concluding) string
  = OrdinaryDictionaryReplacement._apply (simultaneous d2 concluding) string.
Proof.
  intros Hperm Hnd Hfree.
  unfold OrdinaryDictionaryReplacement._apply, simultaneous_apply.
  cbn [simultaneous _apply_substitutions_simultaneously _substitute_from_pattern].
  rewrite <- (Permutation_length Hperm).
  destruct (0 <? length d1)%nat; [|done].
  apply sub_ext.
  - intros adv prev s. by apply first_alternative_perm.
  - intros t []. unfold build_simultaneous_substitute_function.
    by rewrite (dict_get_perm d1 d2 t Hperm Hnd).
Qed.

Lemma simultaneous_order_independent_witness :
  OrdinaryDictionaryReplacement._apply
    (simultaneous [(str_of "a", str_of "1"); (str_of "b", str_of "2")] [rule_c_to_d])
    (str_of "abc")
  = OrdinaryDictionaryReplacement._apply
      (simultaneous [(str_of "b", str_of "2"); (str_of "a", str_of "1")] [rule_c_to_d])
      (str_of "abc").
Proof.
  apply simultaneous_order_independent.
  - apply Permutation_swap.
  - apply (bool_decide_unpack _). vm_compute. reflexivity.
  - intros p q Hp Hq Hpq.
    cbn in Hp, Hq.
    apply elem_of_cons in Hp as [->|Hp]; apply elem_of_cons in Hq as [->|Hq];
      try done;
      repeat match goal with
        | H : _ ∈ [_] |- _ => apply list_elem_of_singleton in H as ->
        | H : _ ∈ [] |- _ => by apply elem_of_nil in H
        end; try done;
      by apply prefix_cons_inv_1 in Hpq.
Defined.

(** ** Attribute merging *)






(** ** Unresolved references *)

Lemma load_or_not_unresolved lower (references : ReferenceMaster.t) label :
  references !! lower label = None ->
  Referenced.load_or_not lower references label = mret None.
Proof.
  intros H. unfold Referenced.load_or_not, ReferenceMaster.load_definition,
    ReferenceMaster.normalise_label.
  by rewrite H.
Qed.

(** A referenced link whose label is not in the table is left as it is. *)
Lemma link_unresolved lower (references : ReferenceMaster.t) attribute_specifications m :
  references !! lower (Referenced.label_or m (Referenced.text m)) = None ->
  Referenced.link_substitute_function lower references attribute_specifications m
  = mret (Referenced.group m).
Proof.
  intros H. unfold Referenced.link_substitute_function.
  by rewrite load_or_not_unresolved, py_bind_ret.
Qed.

(** So is a referenced image, when protecting its alternative text returns. *)
Lemma image_unresolved lower (references : ReferenceMaster.t) attribute_specifications
  m w alt_protected :
  references !! lower (Referenced.label_or m (Referenced.text m)) = None ->
  PlaceholderMaster.protect (Referenced.text m) = (w, Ok alt_protected) ->
  Referenced.image_substitute_function lower references attribute_specifications m
  = (w, Ok (Referenced.group m)).
Proof.
  intros H Hp. unfold Referenced.image_substitute_function.
  rewrite Hp, load_or_not_unresolved by done.
  unfold mbind, py_bind, Py.bind, mret, py_ret, Py.ret. by rewrite app_nil_r.
Qed.

(** C8 fails on the code for images: the alternative text is protected
    before the label is looked up, and [protect] raises [ValueError] on a
    text with U+E100 between two markers (the defect of C3), so the error
    leaves the substitution instead of the matched text. *)
Theorem image_unresolved_raises :
  Referenced.image_substitute_function ReferenceMaster.ascii_lower
    ReferenceMaster.init None image_with_run_character_max
  = ([], Raise ValueError).
Proof. reflexivity. Qed.

Lemma master_with_h1_declared :
  declare_with_queue_position ReplacementMaster.init
    (str_of "DeIndentationReplacement") (DeIndentationReplacement.init (str_of "h1"))
    (str_of " ROOT")
  = mret master_with_h1.
Proof. by rewrite declare_root. Qed.

Lemma queue_position_rejects_ids_with_digits_witness :
  ReplacementMaster.compute_class_declaration_match
    (str_of "DeIndentationReplacement" ++ str_of ": #" ++ str_of "h1")
  = Some (str_of "DeIndentationReplacement", str_of "h1")
  /\ ReplacementMaster.stage_queue_position master_with_h1
       (DeIndentationReplacement.init (str_of "x"))
       (str_of " " ++ str_of "BEFORE" ++ str_of " #" ++ str_of "h1")
     = ([], Raise (SystemExit
                     (str_of "invalid value `" ++ str_of "BEFORE" ++ str_of " #"
                        ++ str_of "h1" ++ str_of "` for attribute `queue_position`"))).
Proof.
  apply (queue_position_rejects_ids_with_digits master_with_h1
           (DeIndentationReplacement.init (str_of "x"))
           (str_of "DeIndentationReplacement") (str_of "h1") (str_of "BEFORE")).
  - discriminate.
  - reflexivity.
  - reflexivity.
  - reflexivity.
  - left. reflexivity.
Defined.

(** ** Where [unprotect] returns *)

Lemma scan_hits {G} (m : Re.matcher G) (P : G -> Prop) s :
  (forall adv prev i n g, m adv prev (drop i s) = Some (n, g) -> P g) ->
  forall skip prev, Forall (hit_satisfies P) (Re.scan m s skip prev).
Proof.
  induction s as [|c s IH]; intros H skip prev; cbn [Re.scan].
  - destruct skip; [|constructor].
    destruct (m false prev []) as [[n g]|] eqn:E; constructor; [|constructor].
    apply (H false prev 0%nat n g E).
  - assert (forall skip prev, Forall (hit_satisfies P) (Re.scan m s skip prev)) as IH'.
    { apply IH. intros adv p i. apply (H adv p (S i)). }
    destruct skip; [|apply IH'].
    destruct (m false prev (c :: s)) as [[[|n] g]|] eqn:E.
    + constructor; [apply (H false prev 0%nat _ g E)|].
      destruct (m true prev (c :: s)) as [[[|n'] g']|] eqn:E';
        repeat (constructor; try done); try apply IH'.
      apply (H true prev 0%nat _ g' E').
    + constructor; [apply (H false prev 0%nat _ g E) | apply IH'].
    + constructor; [done | apply IH'].
Qed.

Lemma join_events_returns {G} (repl : str -> G -> py str) (P : G -> Prop) evs :
  (forall t g, P g -> exists w r, repl t g = (w, Ok r)) ->
  Forall (hit_satisfies P) evs ->
  exists w r, Re.join_events repl evs = (w, Ok r).
Proof.
  intros Hrepl. unfold Re.join_events.
  induction 1 as [|[c|t g] evs Hev _ (w & r & IH)]; cbn [foldr].
  - by exists [], [].
  - rewrite IH. by eexists _, _.
  - destruct (Hrepl t g Hev) as (w' & r' & ->). rewrite IH. by eexists _, _.
Qed.

(** On a text without U+E100 every run decodes to bytes, and [unprotect]
    returns: with the decoded text, or with U+FFFD and a diagnostic. *)
Lemma unprotect_returns (s : str) :
  PlaceholderMaster._RUN_CHARACTER_MAX ∉ s ->
  exists w r, PlaceholderMaster.unprotect s = (w, Ok r).
Proof.
  intros Hs. unfold PlaceholderMaster.unprotect, Re.sub.
  apply (join_events_returns _
           (Forall (fun c => PlaceholderMaster._RUN_CHARACTER_MIN <= c
                             < PlaceholderMaster._RUN_CHARACTER_MAX))).
  - intros t run Hrun. unfold PlaceholderMaster._unprotect_substitute_function,
      PlaceholderMaster.bytes_of.
    rewrite (proj2 (forallb_forall _ _)).
    + rewrite py_bind_ret. destruct (Utf8.decode _); by eexists _, _.
    + intros b (c & <- & Hc)%in_map_iff. rewrite Forall_forall in Hrun.
      apply list_elem_of_In, Hrun in Hc.
      unfold PlaceholderMaster._RUN_CODE_POINT_MIN, PlaceholderMaster._RUN_CHARACTER_MIN,
        PlaceholderMaster._RUN_CHARACTER_MAX in *. by zb.
  - apply scan_hits. intros adv prev i n run.
    pose proof (subseteq_drop i s) as Hsub.
    destruct (drop i s) as [|c t]; [done|].
    cbn [PlaceholderMaster._PLACEHOLDER_PATTERN_COMPILED].
    destruct (c =? PlaceholderMaster.MARKER); [|done].
    pose proof (span_fst_forallb PlaceholderMaster.is_run_character t) as Hall.
    pose proof (span_app PlaceholderMaster.is_run_character t) as Happ.
    destruct (span PlaceholderMaster.is_run_character t) as [run' rest].
    cbn [fst snd] in *.
    destruct rest as [|c' rest]; [done|].
    destruct (c' =? PlaceholderMaster.MARKER); [|done].
    intros [= _ <-]. apply Forall_forall. intros x Hx.
    rewrite forallb_forall in Hall.
    pose proof (Hall x (proj1 (list_elem_of_In _ _) Hx)) as Hrun.
    unfold PlaceholderMaster.is_run_character in Hrun.
    apply andb_true_iff in Hrun as [H1%Z.leb_le H2%Z.leb_le].
    assert (x <> PlaceholderMaster._RUN_CHARACTER_MAX) as Hne.
    { intros ->. apply Hs, Hsub. right. rewrite Happ.
      apply elem_of_app. by left. }
    lia.
Qed.

(** ** Placeholders: re-protection and marker occurrences *)

Lemma protect_marker :
  PlaceholderMaster.protect [PlaceholderMaster.MARKER]
  = mret [PlaceholderMaster.MARKER; 0xE0EF; 0xE0A3; 0xE0BF; PlaceholderMaster.MARKER].
Proof. vm_compute. reflexivity. Qed.

Lemma join_events_lit {G} (repl : str -> G -> py str) c evs :
  Re.join_events repl (Re.Lit c :: evs) = cons c <$> Re.join_events repl evs.
Proof. done. Qed.

Lemma join_events_hit {G} (repl : str -> G -> py str) t g evs :
  Re.join_events repl (Re.Hit t g :: evs)
  = (r ← repl t g; tl ← Re.join_events repl evs; mret (r ++ tl)).
Proof. done. Qed.

Lemma py_fmap_ret {A B} (f : A -> B) (a : A) : (f <$> (mret a : py A)) = mret (f a).
Proof. done. Qed.

(** Every marker of a text becomes the placeholder of the marker. *)
Lemma replace_marker_occurrences_eq (s : str) :
  PlaceholderMaster.replace_marker_occurrences s
  = mret (flat_map (fun c => if c =? PlaceholderMaster.MARKER
                             then [PlaceholderMaster.MARKER; 0xE0EF; 0xE0A3; 0xE0BF;
                                   PlaceholderMaster.MARKER]
                             else [c]) s).
Proof.
  unfold PlaceholderMaster.replace_marker_occurrences.
  rewrite protect_marker, py_bind_ret. unfold Re.sub.
  generalize (@None Z) as prev.
  induction s as [|c s IH]; intros prev; [done|].
  cbn [Re.scan PlaceholderMaster.marker_pattern flat_map].
  destruct (c =? PlaceholderMaster.MARKER).
  - rewrite join_events_hit, py_bind_ret, IH, py_bind_ret. done.
  - rewrite join_events_lit, IH. done.
Qed.

(** The placeholders of the markers decode to the markers. *)
Lemma unprotect_marker_placeholders (s : str) : forall prev,
  Re.join_events PlaceholderMaster._unprotect_substitute_function
    (Re.scan PlaceholderMaster._PLACEHOLDER_PATTERN_COMPILED
       (flat_map (fun c => if c =? PlaceholderMaster.MARKER
                           then [PlaceholderMaster.MARKER; 0xE0EF; 0xE0A3; 0xE0BF;
                                 PlaceholderMaster.MARKER]
                           else [c]) s) 0 prev)
  = mret s.
Proof.
  induction s as [|c s IH]; intros prev; [done|].
  cbn [flat_map]. destruct (Z.eqb_spec c PlaceholderMaster.MARKER) as [->|Hc].
  - cbn [app Re.scan PlaceholderMaster._PLACEHOLDER_PATTERN_COMPILED span].
    change (PlaceholderMaster.MARKER =? PlaceholderMaster.MARKER) with true.
    change (PlaceholderMaster.is_run_character 0xE0EF) with true.
    change (PlaceholderMaster.is_run_character 0xE0A3) with true.
    change (PlaceholderMaster.is_run_character 0xE0BF) with true.
    change (PlaceholderMaster.is_run_character PlaceholderMaster.MARKER) with false.
    cbv beta iota zeta.
    change (PlaceholderMaster.MARKER =? PlaceholderMaster.MARKER) with true.
    cbv beta iota zeta. cbn [length Re.scan].
    rewrite join_events_hit, IH.
    change (PlaceholderMaster._unprotect_substitute_function _ [0xE0EF; 0xE0A3; 0xE0BF])
      with (mret [PlaceholderMaster.MARKER] : py str).
    by rewrite !py_bind_ret.
  - cbn [app Re.scan PlaceholderMaster._PLACEHOLDER_PATTERN_COMPILED].
    rewrite (proj2 (Z.eqb_neq _ _) Hc).
    rewrite join_events_lit, IH. done.
Qed.

(** Markers that stand in a text are not confounding: once
    [replace_marker_occurrences] has replaced them, [unprotect] gives the
    text back, whatever characters it holds. *)
Theorem replace_marker_occurrences_unprotect (s : str) :
  (PlaceholderMaster.replace_marker_occurrences s ≫= PlaceholderMaster.unprotect)
  = ([], Ok s).
Proof.
  rewrite replace_marker_occurrences_eq, py_bind_ret.
  apply unprotect_marker_placeholders.
Qed.

(** A text with markers, protected after [replace_marker_occurrences], is
    restored by [unprotect]: the round trip of the placeholder rules for
    every text that [str.encode] accepts. *)
Theorem marker_protect_unprotect_round_trip (s : str) :
  Forall (fun c => Utf8.is_scalar_value c = true) s ->
  (string ← PlaceholderMaster.replace_marker_occurrences s;
   string ← PlaceholderMaster.protect string;
   PlaceholderMaster.unprotect string)
  = ([], Ok s).
Proof.
  intros Hs. rewrite replace_marker_occurrences_eq, py_bind_ret.
  unfold PlaceholderMaster.protect.
  rewrite (unprotect_marker_placeholders s None
           : PlaceholderMaster.unprotect _ = mret s), py_bind_ret.
  destruct (encode_total s Hs) as [bs Hbs].
  destruct (decode_encode s bs Hbs) as [Hd Hb].
  unfold PlaceholderMaster.encode. rewrite Hbs, !py_bind_ret.
  by apply unprotect_placeholder.
Qed.

Lemma marker_protect_unprotect_round_trip_witness :
  (string ← PlaceholderMaster.replace_marker_occurrences [0x61; 0xF8FF; 0x10348];
   string ← PlaceholderMaster.protect string;
   PlaceholderMaster.unprotect string)
  = ([], Ok [0x61; 0xF8FF; 0x10348]).
Proof.
  apply (marker_protect_unprotect_round_trip [0x61; 0xF8FF; 0x10348]).
  repeat constructor.
Defined.

Lemma py_bind_Ok {A B} (m : py A) (k : A -> py B) w b :
  (m ≫= k) = (w, Ok b) ->
  exists w1 a w2, m = (w1, Ok a) /\ k a = (w2, Ok b) /\ w = w1 ++ w2.
Proof.
  unfold mbind, py_bind, Py.bind. destruct m as [w1 [a|e]]; [|done].
  destruct (k a) as [w2 r] eqn:E. intros [= <- ->]. by eexists _, _, _.
Qed.

(** What [protect] returns: the marker, run characters of the band
    U+E000 to U+E0FF that carry the UTF-8 bytes of the unprotected text,
    and the marker. *)
Lemma protect_Ok (s : str) w p :
  PlaceholderMaster.protect s = (w, Ok p) ->
  exists s' bs,
    PlaceholderMaster.unprotect s = (w, Ok s') /\ Utf8.encode s' = Some bs
    /\ p = [PlaceholderMaster.MARKER]
             ++ map (fun byte => byte + PlaceholderMaster._RUN_CODE_POINT_MIN) bs
             ++ [PlaceholderMaster.MARKER].
Proof.
  unfold PlaceholderMaster.protect.
  intros (w1 & s' & w2 & Hu & H & ->)%py_bind_Ok.
  apply py_bind_Ok in H as (w3 & bs & w4 & He & H & ->).
  unfold PlaceholderMaster.encode in He.
  destruct (Utf8.encode s') as [bs'|] eqn:E; [|done].
  injection He as <- <-. injection H as <- <-.
  exists s', bs'. by rewrite !app_nil_r.
Qed.

(** Re-protection does not nest: [protect] leaves a string it has returned
    as it is. *)
Theorem protect_idempotent (s : str) w p :
  PlaceholderMaster.protect s = (w, Ok p) ->
  PlaceholderMaster.protect p = ([], Ok p).
Proof.
  intros (s' & bs & _ & He & ->)%protect_Ok.
  destruct (decode_encode s' bs He) as [Hd Hb].
  unfold PlaceholderMaster.protect.
  rewrite (unprotect_placeholder bs s' Hb Hd), py_bind_ret.
  unfold PlaceholderMaster.encode. rewrite He, !py_bind_ret. done.
Qed.

Lemma protect_idempotent_witness :
  PlaceholderMaster.protect [0xF8FF; 0xE0C2; 0xE0A3; 0xF8FF]
  = ([], Ok [0xF8FF; 0xE0C2; 0xE0A3; 0xF8FF]).
Proof.
  apply (protect_idempotent [0xA3] [] [0xF8FF; 0xE0C2; 0xE0A3; 0xF8FF]).
  vm_compute. reflexivity.
Defined.

(** A protected string holds nothing but the marker at both ends and run
    characters from U+E000 to U+E0FF between them; U+E100, which the
    placeholder pattern accepts, is never produced. *)
Theorem protect_shape (s : str) w p :
  PlaceholderMaster.protect s = (w, Ok p) ->
  exists run_characters,
    p = PlaceholderMaster.MARKER :: run_characters ++ [PlaceholderMaster.MARKER]
    /\ Forall (fun c => 0xE000 <= c <= 0xE0FF) run_characters.
Proof.
  intros (s' & bs & _ & He & ->)%protect_Ok.
  destruct (decode_encode s' bs He) as [_ Hb].
  eexists. split; [done|].
  apply Forall_map. eapply Forall_impl; [exact Hb|].
  intros b. unfold is_byte, PlaceholderMaster._RUN_CODE_POINT_MIN,
    PlaceholderMaster._RUN_CHARACTER_MIN. cbn beta. lia.
Qed.

Lemma protect_shape_witness :
  exists run_characters,
    [0xF8FF; 0xE0C2; 0xE0A3; 0xF8FF]
    = PlaceholderMaster.MARKER :: run_characters ++ [PlaceholderMaster.MARKER]
    /\ Forall (fun c => 0xE000 <= c <= 0xE0FF) run_characters.
Proof.
  apply (protect_shape [0xA3] [] [0xF8FF; 0xE0C2; 0xE0A3; 0xF8FF]).
  vm_compute. reflexivity.
Defined.

(** ** The life cycle of a rule *)

(** [commit] freezes a rule: every setter of the committed rule raises
    [CommittedMutateException], and [apply] (no flags given) now runs the
    rule's own [_apply]. *)
Theorem commit_freezes_rule (r r' : Replacement.t) w :
  Replacement.commit r = (w, Ok r') ->
  (forall value,
      Replacement.set_queue_position_type r' value = raise CommittedMutateException)
  /\ (forall value,
        Replacement.set_queue_reference_replacement r' value
        = raise CommittedMutateException)
  /\ (forall value,
        Replacement.set_positive_flag_name r' value = raise CommittedMutateException)
  /\ (forall value,
        Replacement.set_negative_flag_name r' value = raise CommittedMutateException)
  /\ (forall string, Replacement.apply r' string None = Replacement._apply r string).
Proof.
  unfold Replacement.commit.
  destruct (Replacement._validate_mandatory_attributes r); [done|].
  intros [= <- <-]. by repeat split.
Qed.

Lemma commit_freezes_rule_witness :
  Replacement.set_queue_position_type
    (queued (DeIndentationReplacement.init (str_of "d")) (str_of "ROOT") None)
    (Some (str_of "ROOT"))
  = raise CommittedMutateException.
Proof.
  apply (commit_freezes_rule
           {| Replacement._is_committed := false;
              Replacement._id := str_of "d";
              Replacement._queue_position_type := Some (str_of "ROOT");
              Replacement._queue_reference_replacement := None;
              Replacement._positive_flag_name := None;
              Replacement._negative_flag_name := None;
              Replacement._validate_mandatory_attributes := None;
              Replacement._apply := fun string => mret (DeIndent.de_indent string) |}
           (queued (DeIndentationReplacement.init (str_of "d")) (str_of "ROOT") None)
           []).
  reflexivity.
Defined.

(** ** Queue positions that are refused *)

Lemma compute_queue_position_match_root_spaced (pre post : str) :
  forallb is_space pre = true -> forallb is_space post = true ->
  ReplacementMaster.compute_queue_position_match (pre ++ str_of "ROOT" ++ post)
  = {| ReplacementMaster.none_keyword := None;
       ReplacementMaster.root_keyword := Some (str_of "ROOT");
       ReplacementMaster.queue_position_type := None;
       ReplacementMaster.queue_reference_id := None;
       ReplacementMaster.invalid_value := None |}.
Proof.
  intros Hpre Hpost. unfold ReplacementMaster.compute_queue_position_match.
  rewrite span_forallb by done. cbv zeta beta iota.
  change (ReplacementMaster.keyword_to_end (str_of "NONE") _) with false.
  cbv iota.
  change (ReplacementMaster.keyword_to_end (str_of "ROOT") (str_of "ROOT" ++ post))
    with (forallb is_space post).
  by rewrite Hpost.
Qed.

Lemma compute_queue_position_match_none_spaced (pre post : str) :
  forallb is_space pre = true -> forallb is_space post = true ->
  ReplacementMaster.compute_queue_position_match (pre ++ str_of "NONE" ++ post)
  = {| ReplacementMaster.none_keyword := Some (str_of "NONE");
       ReplacementMaster.root_keyword := None;
       ReplacementMaster.queue_position_type := None;
       ReplacementMaster.queue_reference_id := None;
       ReplacementMaster.invalid_value := None |}.
Proof.
  intros Hpre Hpost. unfold ReplacementMaster.compute_queue_position_match.
  rewrite span_forallb by done. cbv zeta beta iota.
  change (ReplacementMaster.keyword_to_end (str_of "NONE") (str_of "NONE" ++ post))
    with (forallb is_space post).
  by rewrite Hpost.
Qed.

(** A second root is refused: once a root rule is declared,
    [queue_position: ROOT] (with any whitespace around the keyword) ends the
    run with the message that names the root already declared. *)
Theorem stage_queue_position_second_root_exits
  (master : ReplacementMaster.t) (r : Replacement.t) (pre post root_id : str) :
  forallb is_space pre = true -> forallb is_space post = true ->
  ReplacementMaster._root_replacement_id master = Some root_id ->
  ReplacementMaster.stage_queue_position master r (pre ++ str_of "ROOT" ++ post)
  = ReplacementMaster.exit_with
      (str_of "root replacement already declared (`#" ++ root_id ++ str_of "`)").
Proof.
  intros Hpre Hpost Hroot. unfold ReplacementMaster.stage_queue_position.
  rewrite compute_queue_position_match_root_spaced by done.
  cbn [ReplacementMaster.invalid_value ReplacementMaster.none_keyword
         ReplacementMaster.root_keyword].
  by rewrite Hroot.
Qed.

Lemma stage_queue_position_second_root_exits_witness :
  ReplacementMaster.stage_queue_position master_with_a_b
    (DeIndentationReplacement.init (str_of "c")) (str_of " " ++ str_of "ROOT" ++ [10])
  = ReplacementMaster.exit_with
      (str_of "root replacement already declared (`#" ++ str_of "a" ++ str_of "`)").
Proof.
  apply (stage_queue_position_second_root_exits master_with_a_b
           (DeIndentationReplacement.init (str_of "c")) (str_of " ") [10] (str_of "a"));
    reflexivity.
Defined.

(** A position relative to a rule that cannot serve as the reference is
    refused: the rule itself, an id that no committed rule has, and a rule
    that is declared but not in the queue each end the run with their own
    message. *)
Theorem stage_queue_position_bad_reference_exits
  (master : ReplacementMaster.t) (r : Replacement.t) (type_ id_ : str) :
  type_ = str_of "BEFORE" \/ type_ = str_of "AFTER" ->
  valid_queue_reference_id id_ ->
  let staged :=
    ReplacementMaster.stage_queue_position master r
      (str_of " " ++ type_ ++ str_of " #" ++ id_) in
  (id_ = Replacement._id r ->
   staged = ReplacementMaster.exit_with (str_of "self-referential `queue_position`"))
  /\ (id_ <> Replacement._id r ->
      ReplacementMaster._replacement_from_id master !! id_ = None ->
      staged = ReplacementMaster.exit_with
                 (str_of "undefined replacement `#" ++ id_ ++ str_of "`"))
  /\ (forall x,
        id_ <> Replacement._id r ->
        ReplacementMaster._replacement_from_id master !! id_ = Some x ->
        ReplacementMaster.queue_index (ReplacementMaster._replacement_queue master)
          (Replacement._id x) = None ->
        staged = ReplacementMaster.exit_with
                   (str_of "replacement `#" ++ id_ ++ str_of "` not in queue")).
Proof.
  intros Ht Hid staged. subst staged.
  unfold ReplacementMaster.stage_queue_position.
  assert (ReplacementMaster.compute_queue_position_match
            (str_of " " ++ type_ ++ str_of " #" ++ id_)
          = {| ReplacementMaster.none_keyword := None;
               ReplacementMaster.root_keyword := None;
               ReplacementMaster.queue_position_type := Some type_;
               ReplacementMaster.queue_reference_id := Some id_;
               ReplacementMaster.invalid_value := None |}) as ->.
  { destruct Ht as [-> | ->].
    - by apply compute_queue_position_match_before.
    - by apply compute_queue_position_match_after. }
  cbn [ReplacementMaster.invalid_value ReplacementMaster.none_keyword
         ReplacementMaster.root_keyword ReplacementMaster.queue_position_type
         ReplacementMaster.queue_reference_id default].
  unfold id. repeat split.
  - intros ->. by rewrite str_eqb_refl.
  - intros Hne Hm. rewrite str_eqb_ne by done. unfold str in *. by rewrite Hm.
  - intros x Hne Hm Hq. rewrite str_eqb_ne by done. unfold str in *.
    by rewrite Hm, Hq.
Qed.

Lemma stage_queue_position_bad_reference_exits_witness :
  ReplacementMaster.stage_queue_position master_with_a_b
    (DeIndentationReplacement.init (str_of "c"))
    (str_of " " ++ str_of "AFTER" ++ str_of " #" ++ str_of "c")
  = ReplacementMaster.exit_with (str_of "self-referential `queue_position`").
Proof.
  apply (stage_queue_position_bad_reference_exits master_with_a_b
           (DeIndentationReplacement.init (str_of "c")) (str_of "AFTER") (str_of "c")).
  - right. reflexivity.
  - split; [done | reflexivity].
  - reflexivity.
Defined.
(** ** Rules that are registered, queued and executed *)

Lemma declared_committed (r : Replacement.t) :
  declarable r ->
  Replacement.commit r
  = mret {| Replacement._is_committed := true;
            Replacement._id := Replacement._id r;
            Replacement._queue_position_type := Replacement._queue_position_type r;
            Replacement._queue_reference_replacement :=
              Replacement._queue_reference_replacement r;
            Replacement._positive_flag_name := Replacement._positive_flag_name r;
            Replacement._negative_flag_name := Replacement._negative_flag_name r;
            Replacement._validate_mandatory_attributes := None;
            Replacement._apply := Replacement._apply r |}.
Proof. intros [_ Hv]. unfold Replacement.commit. by rewrite Hv. Qed.

Lemma commit_unpositioned (master : ReplacementMaster.t) (class_name : str)
  (r : Replacement.t) :
  declarable r ->
  Replacement._queue_position_type r = None ->
  ReplacementMaster.commit master class_name r
  = mret {| ReplacementMaster._replacement_from_id :=
              <[Replacement._id r :=
                  {| Replacement._is_committed := true;
                     Replacement._id := Replacement._id r;
                     Replacement._queue_position_type := None;
                     Replacement._queue_reference_replacement :=
                       Replacement._queue_reference_replacement r;
                     Replacement._positive_flag_name := Replacement._positive_flag_name r;
                     Replacement._negative_flag_name := Replacement._negative_flag_name r;
                     Replacement._validate_mandatory_attributes := None;
                     Replacement._apply := Replacement._apply r |}]>
                (ReplacementMaster._replacement_from_id master);
            ReplacementMaster._root_replacement_id :=
              ReplacementMaster._root_replacement_id master;
            ReplacementMaster._replacement_queue :=
              ReplacementMaster._replacement_queue master |}.
Proof.
  intros Hr Hq. unfold ReplacementMaster.commit.
  rewrite declared_committed by done.
  cbn [catch mret py_ret Py.ret].
  change (([], Ok ?x) : py Replacement.t) with (mret x : py Replacement.t).
  rewrite py_bind_ret.
  cbn [Replacement._queue_position_type Replacement._id]. by rewrite Hq.
Qed.

(** [queue_position: NONE] registers a rule without queueing it: the rule
    can be referred to by its id, the queue and the root are as before, and
    [execute] does what it did. *)
Theorem declare_none_not_queued
  (master : ReplacementMaster.t) (class_name : str) (r : Replacement.t)
  (pre post : str) :
  forallb is_space pre = true -> forallb is_space post = true ->
  declarable r ->
  Replacement._queue_position_type r = None ->
  exists master' r',
    declare_with_queue_position master class_name r (pre ++ str_of "NONE" ++ post)
    = ([], Ok master')
    /\ ReplacementMaster._replacement_from_id master' !! Replacement._id r = Some r'
    /\ Replacement._is_committed r' = true
    /\ ReplacementMaster._replacement_queue master'
       = ReplacementMaster._replacement_queue master
    /\ ReplacementMaster._root_replacement_id master'
       = ReplacementMaster._root_replacement_id master
    /\ forall text,
        ReplacementMaster.execute master' text = ReplacementMaster.execute master text.
Proof.
  intros Hpre Hpost Hr Hq.
  unfold declare_with_queue_position, ReplacementMaster.stage_queue_position.
  rewrite compute_queue_position_match_none_spaced by done.
  cbn [ReplacementMaster.invalid_value ReplacementMaster.none_keyword].
  rewrite py_bind_ret, commit_unpositioned by done.
  eexists _, _. split; [reflexivity|].
  cbn [ReplacementMaster._replacement_from_id ReplacementMaster._replacement_queue
         ReplacementMaster._root_replacement_id].
  split; [apply lookup_insert_eq|]. by repeat split.
Qed.

Lemma declare_none_not_queued_witness :
  exists master' r',
    declare_with_queue_position master_with_a_b (str_of "DeIndentationReplacement")
      (DeIndentationReplacement.init (str_of "c")) (str_of " " ++ str_of "NONE" ++ [])
    = ([], Ok master')
    /\ ReplacementMaster._replacement_from_id master'
         !! Replacement._id (DeIndentationReplacement.init (str_of "c")) = Some r'
    /\ Replacement._is_committed r' = true
    /\ ReplacementMaster._replacement_queue master'
       = ReplacementMaster._replacement_queue master_with_a_b
    /\ ReplacementMaster._root_replacement_id master'
       = ReplacementMaster._root_replacement_id master_with_a_b
    /\ forall text,
        ReplacementMaster.execute master' text
        = ReplacementMaster.execute master_with_a_b text.
Proof.
  apply (declare_none_not_queued master_with_a_b (str_of "DeIndentationReplacement")
           (DeIndentationReplacement.init (str_of "c")) (str_of " ") []);
    try reflexivity.
  split; reflexivity.
Defined.

Lemma queue_index_app (q1 q2 : list Replacement.t) (x : Replacement.t) :
  Replacement._id x ∉ map Replacement._id q1 ->
  ReplacementMaster.queue_index (q1 ++ x :: q2) (Replacement._id x)
  = Some (length q1).
Proof.
  induction q1 as [|y q1 IH]; intros Hn; cbn [app ReplacementMaster.queue_index length].
  - by rewrite str_eqb_refl.
  - cbn [map] in Hn. apply not_elem_of_cons in Hn as [Hne Hn].
    rewrite str_eqb_ne by done. by rewrite IH.
Qed.

(** [BEFORE #x] puts the new rule just before the rule [x] in the queue and
    [AFTER #x] just after it, wherever [x] stands; the rest of the queue
    keeps its order. *)
Theorem declare_positioned_neighbour
  (master : ReplacementMaster.t) (class_name : str) (r x : Replacement.t)
  (q1 q2 : list Replacement.t) :
  declarable r ->
  valid_queue_reference_id (Replacement._id x) ->
  Replacement._id x <> Replacement._id r ->
  ReplacementMaster._replacement_from_id master !! Replacement._id x = Some x ->
  ReplacementMaster._replacement_queue master = q1 ++ x :: q2 ->
  Replacement._id x ∉ map Replacement._id q1 ->
  (exists master',
      declare_with_queue_position master class_name r
        (str_of " BEFORE #" ++ Replacement._id x) = ([], Ok master')
      /\ ReplacementMaster._replacement_queue master'
         = q1 ++ queued r (str_of "BEFORE") (Some (Replacement._id x)) :: x :: q2)
  /\ (exists master',
        declare_with_queue_position master class_name r
          (str_of " AFTER #" ++ Replacement._id x) = ([], Ok master')
        /\ ReplacementMaster._replacement_queue master'
           = q1 ++ x :: queued r (str_of "AFTER") (Some (Replacement._id x)) :: q2).
Proof.
  intros Hr Hid Hne Hx Hq Hn.
  pose proof (queue_index_app q1 q2 x Hn) as Hi. rewrite <- Hq in Hi.
  split.
  - eexists. split.
    + etrans.
      * exact (declare_positioned master class_name r (str_of "BEFORE")
                 (Replacement._id x) x (length q1) Hr
                 (compute_queue_position_match_before _ Hid) Hne Hx eq_refl Hi).
      * exact (commit_positioned master class_name r (str_of "BEFORE") _ _ Hi
                 (or_introl eq_refl)).
    + cbn [ReplacementMaster._replacement_queue].
      change (str_eqb (str_of "BEFORE") (str_of "BEFORE")) with true. cbv iota.
      unfold ReplacementMaster.list_insert. rewrite Hq.
      by rewrite take_app_length, drop_app_length.
  - eexists. split.
    + etrans.
      * exact (declare_positioned master class_name r (str_of "AFTER")
                 (Replacement._id x) x (length q1) Hr
                 (compute_queue_position_match_after _ Hid) Hne Hx eq_refl Hi).
      * exact (commit_positioned master class_name r (str_of "AFTER") _ _ Hi
                 (or_intror eq_refl)).
    + cbn [ReplacementMaster._replacement_queue].
      change (str_eqb (str_of "AFTER") (str_of "BEFORE")) with false. cbv iota.
      unfold ReplacementMaster.list_insert. rewrite Hq.
      rewrite (cons_middle x q1 q2), app_assoc.
      replace (S (length q1)) with (length (q1 ++ [x]))
        by (rewrite length_app; cbn; lia).
      rewrite take_app_length, drop_app_length. by rewrite <- app_assoc.
Qed.

Lemma declare_positioned_neighbour_witness :
  exists master',
    declare_with_queue_position master_with_a_b (str_of "DeIndentationReplacement")
      (DeIndentationReplacement.init (str_of "c")) (str_of " BEFORE #" ++ str_of "b")
    = ([], Ok master')
    /\ ReplacementMaster._replacement_queue master'
       = [queued (DeIndentationReplacement.init (str_of "a")) (str_of "ROOT") None]
           ++ queued (DeIndentationReplacement.init (str_of "c")) (str_of "BEFORE")
                (Some (str_of "b"))
           :: queued (PlaceholderUnprotectionReplacement.init (str_of "b"))
                (str_of "AFTER") (Some (str_of "a"))
           :: [].
Proof.
  apply (declare_positioned_neighbour master_with_a_b
           (str_of "DeIndentationReplacement")
           (DeIndentationReplacement.init (str_of "c"))
           (queued (PlaceholderUnprotectionReplacement.init (str_of "b"))
              (str_of "AFTER") (Some (str_of "a")))
           [queued (DeIndentationReplacement.init (str_of "a")) (str_of "ROOT") None]
           []).
  - split; reflexivity.
  - split; [done | reflexivity].
  - apply (bool_decide_unpack _). vm_compute. reflexivity.
  - vm_compute. reflexivity.
  - reflexivity.
  - apply (bool_decide_unpack _). vm_compute. reflexivity.
Defined.
Lemma py_bind_ret_r {A} (m : py A) : (m ≫= mret) = m.
Proof.
  unfold mbind, py_bind, Py.bind, mret, py_ret, Py.ret.
  destruct m as [w [a|e]]; [|done]. by rewrite app_nil_r.
Qed.

Lemma py_bind_ext {A B} (m : py A) (f g : A -> py B) :
  (forall a, f a = g a) -> (m ≫= f) = (m ≫= g).
Proof.
  intros H. unfold mbind, py_bind, Py.bind. destruct m as [w [a|e]]; [|done].
  by rewrite H.
Qed.

(** Applying rules one after the other, from a computation under way. *)
Lemma foldl_apply_bind (replacements : list Replacement.t) (m : py str) :
  foldl (fun string replacement =>
           string ← string; Replacement.apply replacement string None)
        m replacements
  = (string ← m;
     foldl (fun string replacement =>
              string ← string; Replacement.apply replacement string None)
           (mret string) replacements).
Proof.
  revert m. induction replacements as [|r q IH]; intros m; cbn [foldl].
  - by rewrite py_bind_ret_r.
  - rewrite IH, py_bind_assoc. apply py_bind_ext. intros string.
    by rewrite (IH (mret string ≫= _)), py_bind_ret.
Qed.

(** [execute] composes along the queue: running the queue is applying the
    sequence of its front part and then, to the result, the sequence of
    the rest; where the front part raises, the rest is not run. *)
Theorem execute_app (master : ReplacementMaster.t) (front rest : list Replacement.t)
  (text : str) :
  ReplacementMaster._replacement_queue master = front ++ rest ->
  ReplacementMaster.execute master text
  = (text ← ReplacementSequence._apply front text;
     ReplacementSequence._apply rest text).
Proof.
  intros Hq. unfold ReplacementMaster.execute, ReplacementSequence._apply.
  rewrite Hq, foldl_app. apply foldl_apply_bind.
Qed.

Lemma execute_app_witness :
  ReplacementMaster.execute master_with_a_b (str_of "  a")
  = (text ← ReplacementSequence._apply
              [queued (DeIndentationReplacement.init (str_of "a")) (str_of "ROOT") None]
              (str_of "  a");
     ReplacementSequence._apply
       [queued (PlaceholderUnprotectionReplacement.init (str_of "b"))
          (str_of "AFTER") (Some (str_of "a"))] text).
Proof.
  apply (execute_app master_with_a_b).
  reflexivity.
Defined.

(** ** What [commit] keeps true of the master *)

(** Committing a rule keeps the master well formed: every queued rule is
    committed and registered, every registered rule is committed and stands
    under its own id, and the root rule is in the queue.  So [execute] never
    meets an uncommitted rule in the queue. *)
Theorem commit_keeps_well_formed
  (master master' : ReplacementMaster.t) (class_name : str) (r : Replacement.t) w :
  well_formed master ->
  ReplacementMaster.commit master class_name r = (w, Ok master') ->
  well_formed master'.
Proof.
  intros (Hq & Hm & Hroot). unfold ReplacementMaster.commit, Replacement.commit.
  destruct (Replacement._validate_mandatory_attributes r) as [missing|] eqn:Hv.
  { cbn. done. }
  cbn [catch mret py_ret Py.ret].
  set (r' := {| Replacement._is_committed := true |}).
  change (([], Ok r') : py Replacement.t) with (mret r' : py Replacement.t).
  rewrite py_bind_ret.
  assert (Replacement._id r' = Replacement._id r) as Hid by done.
  assert (Replacement._queue_position_type r' = Replacement._queue_position_type r)
    as Hqt by done.
  assert (Replacement._is_committed r' = true) as Hc by done.
  clearbody r'.
  set (m' := <[Replacement._id r' := r']> (ReplacementMaster._replacement_from_id master)).
  assert (forall id_ x, m' !! id_ = Some x ->
            Replacement._is_committed x = true /\ Replacement._id x = id_) as Hm'.
  { intros id_ x. unfold m'. intros [[<- <-] | [_ Hx]]%lookup_insert_Some; [done|].
    by apply Hm. }
  assert (forall q,
            Forall (fun r => Replacement._is_committed r = true
                             /\ is_Some (ReplacementMaster._replacement_from_id master
                                           !! Replacement._id r)) q ->
            Forall (fun r => Replacement._is_committed r = true
                             /\ is_Some (m' !! Replacement._id r)) q) as Hq'.
  { intros q Hq0. eapply Forall_impl; [exact Hq0|]. intros x [Hx1 Hx2]. split; [done|].
    unfold m'. destruct (decide (Replacement._id r' = Replacement._id x)) as [<-|Hne].
    - rewrite lookup_insert_eq. by eexists.
    - by rewrite lookup_insert_ne. }
  assert (Replacement._is_committed r' = true /\ is_Some (m' !! Replacement._id r'))
    as Hr'.
  { split; [done|]. unfold m'. rewrite lookup_insert_eq. by eexists. }
  destruct (Replacement._queue_position_type r') as [type_|].
  - destruct (str_eqb type_ (str_of "ROOT")).
    + intros [= <- <-]. split; [|split]; cbn.
      * apply Forall_app. split; [by apply Hq' | by constructor].
      * exact Hm'.
      * intros id_ [= <-]. rewrite map_app. apply elem_of_app. right. by left.
    + destruct (Replacement._queue_reference_replacement r'
                  ≫= ReplacementMaster.queue_index
                       (ReplacementMaster._replacement_queue master)) as [i|];
        [|done].
      assert (forall n,
                Forall (fun r => Replacement._is_committed r = true
                                 /\ is_Some (m' !! Replacement._id r))
                       (ReplacementMaster.list_insert n r'
                          (ReplacementMaster._replacement_queue master))) as Hins.
      { intros n. unfold ReplacementMaster.list_insert. apply Forall_app. split.
        - apply Hq'. by apply Forall_take.
        - constructor; [done|]. apply Hq'. by apply Forall_drop. }
      assert (forall n id_,
                id_ ∈ map Replacement._id (ReplacementMaster._replacement_queue master) ->
                id_ ∈ map Replacement._id
                        (ReplacementMaster.list_insert n r'
                           (ReplacementMaster._replacement_queue master))) as Hin.
      { intros n id_. unfold ReplacementMaster.list_insert.
        rewrite <- (take_drop n (ReplacementMaster._replacement_queue master)) at 1.
        rewrite !map_app. cbn [map]. rewrite !elem_of_app.
        intros [H | H]; [by left | right; by right]. }
      destruct (str_eqb type_ (str_of "BEFORE")).
      * intros [= <- <-]. split; [|split]; cbn; [apply Hins | exact Hm' |].
        intros id_ H. by apply Hin, Hroot.
      * destruct (str_eqb type_ (str_of "AFTER")); [|done].
        intros [= <- <-]. split; [|split]; cbn; [apply Hins | exact Hm' |].
        intros id_ H. by apply Hin, Hroot.
  - intros [= <- <-]. split; [|split]; cbn; [by apply Hq' | exact Hm' | exact Hroot].
Qed.

Lemma commit_keeps_well_formed_witness :
  well_formed
    {| ReplacementMaster._replacement_from_id :=
         <[str_of "c" :=
             queued (DeIndentationReplacement.init (str_of "c")) (str_of "BEFORE")
               (Some (str_of "b"))]>
           (ReplacementMaster._replacement_from_id master_with_a_b);
       ReplacementMaster._root_replacement_id := Some (str_of "a");
       ReplacementMaster._replacement_queue :=
         [queued (DeIndentationReplacement.init (str_of "a")) (str_of "ROOT") None;
          queued (DeIndentationReplacement.init (str_of "c")) (str_of "BEFORE")
            (Some (str_of "b"));
          queued (PlaceholderUnprotectionReplacement.init (str_of "b"))
            (str_of "AFTER") (Some (str_of "a"))] |}.
Proof.
  apply (commit_keeps_well_formed master_with_a_b _
           (str_of "DeIndentationReplacement") rule_c_before_b []).
  - split; [|split].
    + repeat constructor.
      * apply (bool_decide_unpack _). vm_compute. reflexivity.
      * apply (bool_decide_unpack _). vm_compute. reflexivity.
    + intros id_ r H. unfold master_with_a_b in H.
      cbn [ReplacementMaster._replacement_from_id] in H.
      apply lookup_insert_Some in H as [[<- <-] | [_ H]]; [by split|].
      apply lookup_singleton_Some in H as [<- <-]. by split.
    + intros id_ H. injection H as <-. left.
  - reflexivity.
Defined.

(** ** Class declarations *)

(** The class declaration grammar, exactly: a line is accepted with groups
    [class_name] and [id_] if and only if it is a non-empty run of letters,
    a colon, a non-empty run of whitespace, [#], and a non-empty run of
    characters of [[a-z0-9-.]] that ends the line. *)
Theorem compute_class_declaration_match_spec (line class_name id_ : str) :
  ReplacementMaster.compute_class_declaration_match line = Some (class_name, id_)
  <-> exists spaces,
        line = class_name ++ [58] ++ spaces ++ [35] ++ id_
        /\ class_name <> [] /\ forallb ReplacementMaster.is_letter class_name = true
        /\ spaces <> [] /\ forallb is_space spaces = true
        /\ id_ <> []
        /\ forallb ReplacementMaster.is_declared_id_character id_ = true.
Proof.
  unfold ReplacementMaster.compute_class_declaration_match. split.
  - pose proof (span_app ReplacementMaster.is_letter line) as H1.
    pose proof (span_fst_forallb ReplacementMaster.is_letter line) as F1.
    destruct (span ReplacementMaster.is_letter line) as [cn rest1].
    cbn [fst snd] in *.
    destruct cn as [|c0 cn]; [done|]. destruct rest1 as [|c1 rest1]; [done|].
    destruct (Z.eqb_spec c1 58) as [->|]; [|done].
    pose proof (span_app is_space rest1) as H2.
    pose proof (span_fst_forallb is_space rest1) as F2.
    destruct (span is_space rest1) as [sp rest2]. cbn [fst snd] in *.
    destruct sp as [|s0 sp]; [done|]. destruct rest2 as [|c2 rest2]; [done|].
    destruct (Z.eqb_spec c2 35) as [->|]; [|done].
    pose proof (span_app ReplacementMaster.is_declared_id_character rest2) as H3.
    pose proof (span_fst_forallb ReplacementMaster.is_declared_id_character rest2) as F3.
    destruct (span ReplacementMaster.is_declared_id_character rest2) as [i rest3].
    cbn [fst snd] in *.
    destruct i as [|i0 i]; [done|]. destruct rest3 as [|]; [|done].
    intros [= <- <-]. exists (s0 :: sp).
    rewrite app_nil_r in H3. subst. by repeat split.
  - intros (spaces & -> & Hc & Fc & Hs & Fs & Hi & Fi).
    rewrite span_forallb by done. destruct class_name as [|c0 cn]; [done|].
    cbn [app]. change (58 =? 58) with true. cbv iota.
    rewrite span_forallb by done. destruct spaces as [|s0 sp]; [done|].
    change (35 =? 35) with true. cbv iota.
    rewrite <- (app_nil_r id_) at 1. rewrite span_forallb by done.
    by destruct id_.
Qed.

(** ** The longest common prefix *)

(** [compute_longest_common_prefix] returns the greatest common prefix:
    the prefixes of its result are exactly the strings that are a prefix of
    every string given. *)
Theorem compute_longest_common_prefix_greatest (strings : list str) (q : str) :
  strings <> [] ->
  q `prefix_of` DeIndent.compute_longest_common_prefix strings
  <-> Forall (fun string => q `prefix_of` string) strings.
Proof.
  intros Hne. split.
  - intros Hq. eapply Forall_impl; [apply compute_longest_common_prefix_common|].
    intros string Hs. cbn beta in Hs. by etrans.
  - intros Hall. unfold DeIndent.compute_longest_common_prefix.
    pose proof (shortest_elem strings Hne) as Hsh.
    rewrite Forall_forall in Hall. pose proof (Hall _ Hsh) as Hq.
    apply shrink_longest; [done | by apply prefix_length | by apply Forall_forall].
Qed.

Lemma compute_longest_common_prefix_greatest_witness :
  str_of "ab"
    `prefix_of` DeIndent.compute_longest_common_prefix [str_of "abc"; str_of "abd"]
  <-> Forall (fun string => str_of "ab" `prefix_of` string) [str_of "abc"; str_of "abd"].
Proof.
  apply (compute_longest_common_prefix_greatest [str_of "abc"; str_of "abd"]).
  discriminate.
Defined.

(** ** What de-indentation leaves in place *)

(** The passes of [de_indent], line by line: the longest common
    indentation is stripped from the start of the lines that start with it,
    after the last line has been erased if it is whitespace. *)
Lemma de_indent_strip (string : str) :
  DeIndent.de_indent string
  = DeIndent.unlines
      (map (strip (DeIndent.compute_longest_common_prefix
                     (map DeIndent.leading_whitespace
                        (List.filter DeIndent.is_nonempty
                           (DeIndent.erase_last_line (DeIndent.lines string))))))
         (DeIndent.erase_last_line (DeIndent.lines string))).
Proof.
  unfold DeIndent.de_indent. rewrite last_line_sub.
  set (ls := DeIndent.erase_last_line (DeIndent.lines string)).
  assert (ls <> []) as Hne by apply erase_last_line_nonempty, lines_nonempty.
  assert (Forall (fun l => no_newline l = true) ls) as Hnl
    by apply erase_last_line_no_newline, lines_Forall_no_newline.
  rewrite indentation_findall, lines_unlines by done.
  remember (map DeIndent.leading_whitespace (List.filter DeIndent.is_nonempty ls))
    as indentations eqn:Hind.
  pose proof (compute_longest_common_prefix_common indentations) as Hcommon.
  remember (DeIndent.compute_longest_common_prefix indentations) as p eqn:Hpdef.
  rewrite Forall_forall in Hcommon.
  assert (no_newline p = true) as Hpn.
  { destruct indentations as [|i0 il]; [by subst p|].
    assert (i0 ∈ map DeIndent.leading_whitespace
                   (List.filter DeIndent.is_nonempty ls)) as Hi
      by (rewrite <- Hind; by left).
    apply list_elem_of_fmap in Hi as (l0 & -> & _).
    eapply no_newline_prefix; [|apply (leading_whitespace_no_newline l0)].
    apply Hcommon. by left. }
  by rewrite line_prefix_sub, lines_unlines.
Qed.

Lemma strip_suffix (p l : str) : strip p l `suffix_of` l.
Proof.
  unfold strip. destruct (strip_prefix p l) as [r|] eqn:E; [|done].
  apply strip_prefix_Some in E as ->. by exists p.
Qed.

Lemma strip_no_newline (p l : str) : no_newline l = true -> no_newline (strip p l) = true.
Proof.
  intros Hl. destruct (strip_suffix p l) as [k Hk]. rewrite Hk in Hl.
  unfold no_newline in *. rewrite forallb_app in Hl.
  by apply andb_true_iff in Hl as [_ ?].
Qed.

Lemma erase_last_line_suffix (ls : list str) :
  Forall2 (fun out inp : str => out `suffix_of` inp) (DeIndent.erase_last_line ls) ls.
Proof.
  induction ls as [|l ls IH]; [constructor|].
  destruct ls as [|l' ls].
  - cbn. destruct (forallb _ l); repeat constructor; [|done].
    exists l. by rewrite app_nil_r.
  - rewrite erase_last_line_cons by done. by constructor.
Qed.

(** De-indentation only removes characters from the start of lines: the
    result has as many lines as the text, and each of its lines is the end
    of the line of the text that it comes from. *)
Theorem de_indent_lines_suffix (string : str) :
  Forall2 (fun out inp : str => out `suffix_of` inp)
    (DeIndent.lines (DeIndent.de_indent string)) (DeIndent.lines string).
Proof.
  rewrite de_indent_strip.
  generalize (DeIndent.compute_longest_common_prefix
                (map DeIndent.leading_whitespace
                   (List.filter DeIndent.is_nonempty
                      (DeIndent.erase_last_line (DeIndent.lines string))))) as p.
  intros p.
  set (ls := DeIndent.erase_last_line (DeIndent.lines string)).
  assert (ls <> []) as Hne by apply erase_last_line_nonempty, lines_nonempty.
  assert (Forall (fun l => no_newline l = true) ls) as Hnl
    by apply erase_last_line_no_newline, lines_Forall_no_newline.
  rewrite lines_unlines.
  - pose proof (erase_last_line_suffix (DeIndent.lines string)) as H. fold ls in H.
    clearbody ls. clear Hne Hnl.
    induction H as [|out inp outs inps H1 H2 IH]; cbn [map]; constructor; [|done].
    etrans; [apply strip_suffix | done].
  - by destruct ls.
  - rewrite Forall_map. eapply Forall_impl; [exact Hnl|].
    intros l Hl. by apply strip_no_newline.
Qed.

Lemma erase_last_line_keeps (ls : list str) (l : str) :
  l ∈ ls -> forallb DeIndent.is_horizontal_space l = false ->
  l ∈ DeIndent.erase_last_line ls.
Proof.
  intros Hl Hw. induction ls as [|x ls IH]; [done|].
  destruct ls as [|x' ls].
  - apply list_elem_of_singleton in Hl as <-. cbn. rewrite Hw. by left.
  - rewrite erase_last_line_cons by done.
    apply elem_of_cons in Hl as [->|Hl]; [by left | right; by apply IH].
Qed.

(** A text with a line that starts with a character other than whitespace
    has no common indentation: [de_indent] leaves every line as it is, but
    for a last line of whitespace, which it erases. *)
Theorem de_indent_unindented (string : str) (c : Z) (l : str) :
  (c :: l) ∈ DeIndent.lines string ->
  is_space c = false ->
  DeIndent.de_indent string
  = DeIndent.unlines (DeIndent.erase_last_line (DeIndent.lines string)).
Proof.
  intros Hl Hc. rewrite de_indent_strip.
  set (ls := DeIndent.erase_last_line (DeIndent.lines string)).
  assert (DeIndent.is_horizontal_space c = false) as Hh
    by (unfold DeIndent.is_horizontal_space; by rewrite Hc).
  assert ((c :: l) ∈ ls) as Hin.
  { apply erase_last_line_keeps; [done|]. cbn [forallb]. by rewrite Hh. }
  set (indentations := map DeIndent.leading_whitespace _).
  assert ([] ∈ indentations) as Hnil.
  { unfold indentations.
    replace ([] : str) with (DeIndent.leading_whitespace (c :: l))
      by (unfold DeIndent.leading_whitespace; by rewrite span_cons_false).
    apply list_elem_of_fmap_2, list_elem_of_In, filter_In.
    split; [by apply list_elem_of_In | done]. }
  pose proof (compute_longest_common_prefix_common indentations) as Hcommon.
  rewrite Forall_forall in Hcommon. apply Hcommon, prefix_nil_inv in Hnil as ->.
  f_equal. rewrite <- (map_id ls) at 2. by apply map_ext.
Qed.

Lemma de_indent_unindented_witness :
  DeIndent.de_indent (str_of "  a" ++ [10] ++ str_of "b" ++ [10] ++ str_of "  ")
  = DeIndent.unlines
      (DeIndent.erase_last_line
         (DeIndent.lines (str_of "  a" ++ [10] ++ str_of "b" ++ [10] ++ str_of "  "))).
Proof.
  apply (de_indent_unindented _ 98 []).
  - apply (bool_decide_unpack _). vm_compute. reflexivity.
  - reflexivity.
Defined.

(** ** Attribute values and attribute sequences *)

Section ScanOutput.
Context {G : Type} (m : Re.matcher G).

(** The characters passed through are characters of the text. *)
Lemma scan_lit_elem (c : Z) (s : str) : forall skip prev,
  Re.Lit c ∈ Re.scan m s skip prev -> c ∈ s.
Proof.
  induction s as [|x s IH]; intros skip prev; cbn [Re.scan].
  - destruct skip; [|by intros ?%elem_of_nil].
    destruct (m false prev []) as [[n g]|]; [|by intros ?%elem_of_nil].
    intros [H|H%elem_of_nil]%elem_of_cons; done.
  - destruct skip as [|k]; [|intros H; right; by eapply IH].
    destruct (m false prev (x :: s)) as [[[|n] g]|].
    + intros [H|H]%elem_of_cons; [done|].
      destruct (m true prev (x :: s)) as [[[|n'] g']|].
      * apply elem_of_cons in H as [[= ->]|H]; [by left | right; by eapply IH].
      * apply elem_of_cons in H as [H|H]; [done | right; by eapply IH].
      * apply elem_of_cons in H as [[= ->]|H]; [by left | right; by eapply IH].
    + intros [H|H]%elem_of_cons; [done | right; by eapply IH].
    + intros [[= ->]|H]%elem_of_cons; [by left | right; by eapply IH].
Qed.

(** What [re.sub] with a replacement string returns is made of characters
    of the text and of the replacement. *)
Lemma sub_const_elem (c : Z) (repl s : str) :
  c ∈ Re.sub_const m repl s -> c ∈ repl \/ c ∈ s.
Proof.
  unfold Re.sub_const. intros ([c'|t g] & Hev & Hc)%list_elem_of_In%in_flat_map.
  - right. apply list_elem_of_In in Hc. apply list_elem_of_singleton in Hc as ->.
    eapply scan_lit_elem. by apply list_elem_of_In.
  - left. by apply list_elem_of_In.
Qed.
End ScanOutput.

(** Where the pattern is one character, that character is not passed
    through. *)
Lemma scan_character_lit (x : Z) (s : str) : forall skip prev,
  Re.Lit x ∉ Re.scan (Attributes.character x) s skip prev.
Proof.
  induction s as [|c s IH]; intros skip prev; cbn [Re.scan Attributes.character].
  - destruct skip; apply not_elem_of_nil.
  - destruct skip as [|k]; [|apply IH].
    destruct (Z.eqb_spec c x) as [->|Hne].
    + apply not_elem_of_cons. split; [done | apply IH].
    + apply not_elem_of_cons. split; [congruence | apply IH].
Qed.

Lemma sub_const_character_absent (x : Z) (repl s : str) :
  x ∉ repl -> x ∉ Re.sub_const (Attributes.character x) repl s.
Proof.
  intros Hr. unfold Re.sub_const.
  intros ([c'|t g] & Hev & Hc)%list_elem_of_In%in_flat_map.
  - apply list_elem_of_In in Hc. apply list_elem_of_singleton in Hc as ->.
    by apply list_elem_of_In, scan_character_lit in Hev.
  - by apply list_elem_of_In in Hc.
Qed.

(** An escaped attribute value can stand between double quotes in HTML:
    it holds no [<], no [>] and no double quote, whatever the value was. *)
Theorem escape_attribute_value_html_safe (value : str) :
  (60 ∉ Attributes.escape_attribute_value_html value)
  /\ (62 ∉ Attributes.escape_attribute_value_html value)
  /\ (Attributes.quote ∉ Attributes.escape_attribute_value_html value).
Proof.
  unfold Attributes.escape_attribute_value_html.
  set (v1 := Re.sub_const Attributes.bare_ampersand _ value).
  set (v2 := Re.sub_const (Attributes.character 60) _ v1).
  set (v3 := Re.sub_const (Attributes.character 62) _ v2).
  assert (60 ∉ v2) as H2.
  { apply sub_const_character_absent.
    apply (bool_decide_unpack _). vm_compute. reflexivity. }
  assert (62 ∉ v3) as H3.
  { apply sub_const_character_absent.
    apply (bool_decide_unpack _). vm_compute. reflexivity. }
  assert (60 ∉ v3) as H3'.
  { intros [H|H]%sub_const_elem; [|done].
    revert H. apply (bool_decide_unpack _). vm_compute. reflexivity. }
  repeat split.
  - intros [H|H]%sub_const_elem; [|done].
    revert H. apply (bool_decide_unpack _). vm_compute. reflexivity.
  - intros [H|H]%sub_const_elem; [|done].
    revert H. apply (bool_decide_unpack _). vm_compute. reflexivity.
  - apply sub_const_character_absent.
    apply (bool_decide_unpack _). vm_compute. reflexivity.
Qed.

Lemma record_nothing (nvs : list Attributes.name_and_value) (d : Attributes.dict) :
  Forall (fun nv => nv = Attributes.Nothing) nvs ->
  Attributes.record_specifications nvs d = mret d.
Proof.
  unfold Attributes.record_specifications.
  induction 1 as [|nv nvs -> _ IH]; [done|].
  cbn [foldl]. by rewrite py_bind_ret.
Qed.

Lemma hits_without_groups (evs : list (Re.event Attributes.groups)) :
  Forall (hit_satisfies (fun g => g = Attributes.no_groups)) evs ->
  Forall (fun nv => nv = Attributes.Nothing)
    (map (fun m => Attributes.extract_attribute_name_and_value (snd m))
       (omap (fun ev => match ev with
                        | Re.Hit t g => Some (t, g)
                        | Re.Lit _ => None
                        end) evs)).
Proof.
  induction 1 as [|[c|t g] evs Hev _ IH]; cbn [omap map]; [constructor | done |].
  cbn in Hev. subst g. cbn [option_bind]. by constructor.
Qed.

(** An attribute specification of whitespace only (the empty one included)
    specifies nothing: the attribute sequence is empty. *)
Theorem build_attributes_sequence_blank (attribute_specifications : str) :
  forallb is_space attribute_specifications = true ->
  Attributes.build_attributes_sequence attribute_specifications false = ([], Ok []).
Proof.
  intros Hs. unfold Attributes.build_attributes_sequence,
    Attributes.compute_attribute_specification_matches, Re.finditer.
  rewrite record_nothing; [by rewrite py_bind_ret|].
  apply hits_without_groups, scan_hits.
  intros adv prev i n g. unfold Attributes.specification_pattern.
  assert (forallb is_space (drop i attribute_specifications) = true) as Hd.
  { apply forallb_forall. intros c Hc%list_elem_of_In.
    rewrite forallb_forall in Hs. apply Hs, list_elem_of_In.
    by apply (subseteq_drop i attribute_specifications). }
  rewrite <- (app_nil_r (drop i attribute_specifications)).
  rewrite span_forallb by done.
  change (Attributes.specification []) with (@None (nat * Attributes.groups)).
  cbv iota. destruct (drop i attribute_specifications); [destruct adv|];
    intros [=]; by subst.
Qed.

Lemma build_attributes_sequence_blank_witness :
  Attributes.build_attributes_sequence (str_of "  " ++ [10; 9]) false = ([], Ok []).
Proof.
  apply (build_attributes_sequence_blank (str_of "  " ++ [10; 9])).
  reflexivity.
Defined.

Lemma attributes_set_keys (d : Attributes.dict) (k : str) (v : option str) :
  NoDup (map fst d) -> NoDup (map fst (Attributes.set d k v)).
Proof.
  induction d as [|[k' v'] d IH]; cbn [Attributes.set map fst].
  - intros _. apply NoDup_singleton.
  - intros [Hk Hd]%NoDup_cons. destruct (str_eqb k' k) eqn:E; cbn [map fst].
    + by apply NoDup_cons.
    + apply NoDup_cons. split; [|by apply IH].
      intros Hin. apply Hk. clear IH Hd Hk.
      induction d as [|[k'' v''] d IH]; cbn [Attributes.set map fst] in *.
      * apply list_elem_of_singleton in Hin as ->.
        unfold str_eqb in E. by rewrite bool_decide_eq_false in E.
      * destruct (str_eqb k'' k); cbn [map fst] in *; [done|].
        apply elem_of_cons in Hin as [->|Hin]; [by left | right; by apply IH].
Qed.

Lemma attributes_pop_subseteq (d : Attributes.dict) (k : str) :
  map fst (Attributes.pop d k) ⊆ map fst d.
Proof.
  induction d as [|[k' v'] d IH]; cbn [Attributes.pop map fst]; [done|].
  destruct (str_eqb k' k); cbn [map fst].
  - intros x Hx. by right.
  - intros x [->|Hx]%elem_of_cons; [by left | right; by apply IH].
Qed.

Lemma attributes_pop_keys (d : Attributes.dict) (k : str) :
  NoDup (map fst d) ->
  NoDup (map fst (Attributes.pop d k)) /\ Attributes.get (Attributes.pop d k) k = None.
Proof.
  induction d as [|[k' v'] d IH]; cbn [Attributes.pop Attributes.get map fst]; [done|].
  intros [Hk Hd]%NoDup_cons. destruct (str_eqb k' k) eqn:E.
  - split; [done|]. unfold str_eqb in E. apply bool_decide_eq_true in E as ->.
    clear IH Hd. induction d as [|[k'' v''] d IH]; [done|].
    cbn [Attributes.get map fst] in *. apply not_elem_of_cons in Hk as [Hne Hk].
    rewrite str_eqb_ne by done. by apply IH.
  - destruct (IH Hd) as [IH1 IH2]. cbn [map fst Attributes.get]. rewrite E.
    split; [|done]. apply NoDup_cons. split; [|done].
    intros Hin. by apply Hk, (attributes_pop_subseteq d k).
Qed.

Lemma record_specifications_snoc nvs nv d :
  Attributes.record_specifications (nvs ++ [nv]) d
  = (d ← Attributes.record_specifications nvs d; Attributes.record_specification d nv).
Proof. unfold Attributes.record_specifications. by rewrite foldl_app. Qed.

(** The names of the attributes recorded are distinct. *)
Lemma record_specifications_keys nvs : forall w d,
  Attributes.record_specifications nvs [] = (w, Ok d) -> NoDup (map fst d).
Proof.
  induction nvs as [|nv nvs IH] using rev_ind; intros w d.
  - intros [= <- <-]. apply NoDup_nil_2.
  - rewrite record_specifications_snoc.
    intros (w1 & d1 & w2 & H1 & H2 & ->)%py_bind_Ok.
    specialize (IH _ _ H1).
    destruct nv as [name value|name|]; cbn [Attributes.record_specification] in H2.
    + destruct (str_eqb name (str_of "class")).
      * destruct (Attributes.get d1 (str_of "class")) as [[old|]|];
          try done; injection H2 as <- <-; by apply attributes_set_keys.
      * injection H2 as <- <-. by apply attributes_set_keys.
    + injection H2 as <- <-. by apply attributes_pop_keys.
    + by injection H2 as <- <-.
Qed.

(** [-name] takes the attribute out: after specifications that end with
    the deletion of a name, no value is recorded for that name, whatever
    was specified for it before. *)
Theorem delete_name_removes (nvs : list Attributes.name_and_value) (name : str)
  w (d : Attributes.dict) :
  Attributes.record_specifications (nvs ++ [Attributes.Single name]) [] = (w, Ok d) ->
  Attributes.get d name = None /\ name ∉ map fst d.
Proof.
  rewrite record_specifications_snoc.
  intros (w1 & d1 & w2 & H1 & H2 & ->)%py_bind_Ok.
  apply record_specifications_keys in H1.
  cbn [Attributes.record_specification] in H2. injection H2 as <- <-.
  destruct (attributes_pop_keys d1 name H1) as [_ Hget]. split; [done|].
  revert Hget. generalize (Attributes.pop d1 name) as d. clear.
  induction d as [|[k v] d IH]; cbn [Attributes.get map fst];
    [intros; apply not_elem_of_nil|].
  destruct (str_eqb k name) eqn:E; [done|]. intros H.
  apply not_elem_of_cons. split; [|by apply IH].
  intros ->. by rewrite str_eqb_refl in E.
Qed.

Lemma delete_name_removes_witness :
  Attributes.get [(str_of "class", Some (str_of "a"))] (str_of "id") = None
  /\ str_of "id" ∉ map fst [(str_of "class", Some (str_of "a"))].
Proof.
  apply (delete_name_removes
           [Attributes.Pair (str_of "id") (Some (str_of "x"));
            Attributes.Pair (str_of "class") (Some (str_of "a"))]
           (str_of "id") []).
  vm_compute. reflexivity.
Defined.

(** ** Placeholders that do not decode *)

(** A placeholder whose bytes are not valid UTF-8 becomes U+FFFD, and the
    bytes are reported in a diagnostic; [unprotect] goes on. *)
Theorem unprotect_undecodable (bs : bytes) :
  Forall is_byte bs -> Utf8.decode bs = None ->
  PlaceholderMaster.unprotect
    ([PlaceholderMaster.MARKER]
       ++ map (fun byte => byte + PlaceholderMaster._RUN_CODE_POINT_MIN) bs
       ++ [PlaceholderMaster.MARKER])
  = ([bs], Ok [PlaceholderMaster._REPLACEMENT_CHARACTER]).
Proof.
  intros Hb Hd. unfold PlaceholderMaster.unprotect, Re.sub.
  cbn [app Re.scan PlaceholderMaster._PLACEHOLDER_PATTERN_COMPILED].
  rewrite Z.eqb_refl, span_run_characters by done. rewrite Z.eqb_refl.
  replace (S (length (map (fun byte => byte + PlaceholderMaster._RUN_CODE_POINT_MIN) bs)))
    with (length (map (fun byte => byte + PlaceholderMaster._RUN_CODE_POINT_MIN) bs
                    ++ [PlaceholderMaster.MARKER]))
    by (rewrite length_app; cbn; lia).
  rewrite scan_skip_all by done.
  unfold Re.join_events. cbn [foldr].
  unfold PlaceholderMaster._unprotect_substitute_function.
  rewrite bytes_of_run_characters by done.
  cbn. rewrite Hd. cbn. done.
Qed.

Lemma unprotect_undecodable_witness :
  PlaceholderMaster.unprotect
    ([PlaceholderMaster.MARKER]
       ++ map (fun byte => byte + PlaceholderMaster._RUN_CODE_POINT_MIN) [0xC3; 0x28]
       ++ [PlaceholderMaster.MARKER])
  = ([[0xC3; 0x28]], Ok [PlaceholderMaster._REPLACEMENT_CHARACTER]).
Proof.
  apply (unprotect_undecodable [0xC3; 0x28]).
  - repeat constructor; unfold is_byte; lia.
  - reflexivity.
Defined.

Lemma unprotect_returns_witness :
  exists w r,
    PlaceholderMaster.unprotect
      [0x41; PlaceholderMaster.MARKER; 0xE0FF; PlaceholderMaster.MARKER]
    = (w, Ok r).
Proof.
  apply (unprotect_returns
           [0x41; PlaceholderMaster.MARKER; 0xE0FF; PlaceholderMaster.MARKER]).
  apply (bool_decide_unpack _). vm_compute. reflexivity.
Defined.

(** ** The reference table *)

(** A definition stored under a label is what loading returns for every
    label with the same lower-case form, the latest definition prevailing;
    the other labels load what they loaded before. *)
Theorem store_load_definition (lower : str -> str) (references : ReferenceMaster.t)
  (stored loaded : str) (attribute_specifications uri title : option str) :
  ReferenceMaster.load_definition lower
    (ReferenceMaster.store_definition lower references stored
       attribute_specifications uri title)
    loaded
  = if bool_decide (lower stored = lower loaded)
    then mret (attribute_specifications, uri, title)
    else ReferenceMaster.load_definition lower references loaded.
Proof.
  unfold ReferenceMaster.load_definition, ReferenceMaster.store_definition,
    ReferenceMaster.normalise_label, ReferenceMaster.t in *.
  case_bool_decide as H.
  - rewrite H, lookup_insert_eq. done.
  - rewrite lookup_insert_ne by done. done.
Qed.

(** A label that was never defined is not recognised. *)
Lemma load_undefined (lower : str -> str) (label : str) :
  ReferenceMaster.load_definition lower ReferenceMaster.init label
  = raise UnrecognisedLabelException.
Proof. done. Qed.

Lemma link_unresolved_witness :
  Referenced.link_substitute_function ReferenceMaster.ascii_lower
    ReferenceMaster.init None
    {| Referenced.group := str_of "[text][label]";
       Referenced.text := str_of "text";
       Referenced.label := Some (str_of "label");
       Referenced.matched_attribute_specifications := None |}
  = mret (str_of "[text][label]").
Proof.
  apply (link_unresolved ReferenceMaster.ascii_lower ReferenceMaster.init None
           {| Referenced.group := str_of "[text][label]";
              Referenced.text := str_of "text";
              Referenced.label := Some (str_of "label");
              Referenced.matched_attribute_specifications := None |}).
  reflexivity.
Defined.

Lemma image_unresolved_witness :
  Referenced.image_substitute_function ReferenceMaster.ascii_lower
    ReferenceMaster.init None
    {| Referenced.group := str_of "![alt][label]";
       Referenced.text := str_of "alt";
       Referenced.label := Some (str_of "label");
       Referenced.matched_attribute_specifications := None |}
  = ([], Ok (str_of "![alt][label]")).
Proof.
  apply (image_unresolved ReferenceMaster.ascii_lower ReferenceMaster.init None
           {| Referenced.group := str_of "![alt][label]";
              Referenced.text := str_of "alt";
              Referenced.label := Some (str_of "label");
              Referenced.matched_attribute_specifications := None |}
           []
           [PlaceholderMaster.MARKER; 0xE061; 0xE06C; 0xE074; PlaceholderMaster.MARKER]).
  - reflexivity.
  - vm_compute. reflexivity.
Defined.

(** ** The dictionary of an ordinary dictionary replacement *)

Lemma dict_set_get (d : list (str * str)) (k v k' : str) :
  dict_get (dict_set d k v) k' = if str_eqb k k' then Some v else dict_get d k'.
Proof.
  induction d as [|[k0 v0] d IH]; cbn [dict_set dict_get].
  - destruct (str_eqb k k'); done.
  - destruct (str_eqb k0 k) eqn:E0.
    + unfold str_eqb in E0. apply bool_decide_eq_true in E0 as ->.
      cbn [dict_get]. by destruct (str_eqb k k').
    + cbn [dict_get]. destruct (str_eqb k0 k') eqn:E1; [|done].
      unfold str_eqb in E1. apply bool_decide_eq_true in E1 as ->.
      destruct (str_eqb k k') eqn:E2; [|done].
      unfold str_eqb in E2. apply bool_decide_eq_true in E2 as ->.
      by rewrite str_eqb_refl in E0.
Qed.

Lemma dict_set_keys (d : list (str * str)) (k v : str) :
  map fst (dict_set d k v)
  = if bool_decide (k ∈ map fst d) then map fst d else map fst d ++ [k].
Proof.
  induction d as [|[k0 v0] d IH]; cbn [dict_set map fst]; [done|].
  destruct (str_eqb k0 k) eqn:E0.
  - unfold str_eqb in E0. apply bool_decide_eq_true in E0 as ->.
    cbn [map fst]. rewrite bool_decide_eq_true_2; [done | by left].
  - cbn [map fst]. rewrite IH. unfold str_eqb in E0.
    apply bool_decide_eq_false in E0.
    case_bool_decide as H.
    + rewrite bool_decide_eq_true_2; [done | by right].
    + rewrite bool_decide_eq_false_2; [done|].
      intros [->|Hin]%elem_of_cons; done.
Qed.

(** [add_substitution] on a committed rule raises
    [CommittedMutateException].  On a rule that is not committed,
    declaring a substitution for a pattern that has one already replaces
    the substitute and keeps the pattern at its place among the patterns; a
    new pattern goes to the end; the other substitutions, the mode and the
    concluding replacements are as they were, and no pattern comes to stand
    twice. *)
Theorem add_substitution_spec (self : OrdinaryDictionaryReplacement.t)
  (pattern substitute : str) :
  if OrdinaryDictionaryReplacement._is_committed self
  then add_substitution self pattern substitute = raise CommittedMutateException
  else
    exists after,
      add_substitution self pattern substitute = ([], Ok after)
      /\ OrdinaryDictionaryReplacement._is_committed after = false
      /\ _apply_substitutions_simultaneously after
         = _apply_substitutions_simultaneously self
      /\ _concluding_replacements after = _concluding_replacements self
      /\ (forall p,
            dict_get (_substitute_from_pattern after) p
            = if str_eqb pattern p then Some substitute
              else dict_get (_substitute_from_pattern self) p)
      /\ map fst (_substitute_from_pattern after)
         = (if bool_decide (pattern ∈ map fst (_substitute_from_pattern self))
            then map fst (_substitute_from_pattern self)
            else map fst (_substitute_from_pattern self) ++ [pattern])
      /\ (NoDup (map fst (_substitute_from_pattern self)) ->
          NoDup (map fst (_substitute_from_pattern after))).
Proof.
  unfold add_substitution.
  destruct (OrdinaryDictionaryReplacement._is_committed self) eqn:Hc; [done|].
  eexists. split; [reflexivity|].
  cbn [OrdinaryDictionaryReplacement._is_committed _substitute_from_pattern
         _apply_substitutions_simultaneously _concluding_replacements].
  repeat split; try done.
  - intros p. apply dict_set_get.
  - apply dict_set_keys.
  - intros Hnd. rewrite dict_set_keys. case_bool_decide as H; [done|].
    apply NoDup_app. split; [done|]. split; [|apply NoDup_singleton].
    intros x Hx ->%list_elem_of_singleton. done.
Qed.

(** ** Rules and content of a file *)

Lemma span_app_stop (p : Z -> bool) (l : str) (c : Z) (rest : str) :
  p c = false ->
  span p (l ++ c :: rest) = (fst (span p l), snd (span p l) ++ c :: rest).
Proof.
  intros Hc. induction l as [|x l IH]; cbn [app span].
  - by rewrite Hc.
  - destruct (p x); [|done]. rewrite IH. by destruct (span p l).
Qed.

Lemma span_replicate (p : Z -> bool) (l : str) (c : Z) :
  (forall x, p x = true -> x = c) ->
  fst (span p l) = replicate (length (fst (span p l))) c.
Proof.
  intros Hp. induction l as [|x l IH]; [done|]. cbn [span].
  destruct (p x) eqn:E; [|done]. destruct (span p l) as [a b]. cbn [fst length] in *.
  cbn [replicate]. rewrite <- IH. by rewrite (Hp x E).
Qed.

Lemma delimiter_then_newline_found (prev : option Z) (k : nat) (main_content : str) :
  Re.at_line_start prev = true -> (3 <= k)%nat ->
  Files.delimiter_then_newline prev
    (replicate k Files.percent ++ newline :: main_content)
  = Some main_content.
Proof.
  intros Hp Hk. unfold Files.delimiter_then_newline. rewrite Hp.
  rewrite span_forallb.
  - rewrite length_replicate. rewrite (proj2 (Nat.leb_le 3 k) Hk). done.
  - apply forallb_forall. intros x Hx%list_elem_of_In%elem_of_replicate.
    destruct Hx as [-> _]. done.
  - done.
Qed.

Lemma delimiter_then_newline_line (prev : option Z) (l rest : str) :
  ~ replicate 3 Files.percent `prefix_of` l ->
  Files.delimiter_then_newline prev (l ++ newline :: rest) = None.
Proof.
  intros Hl. unfold Files.delimiter_then_newline.
  destruct (Re.at_line_start prev); [|done].
  rewrite span_app_stop by done.
  destruct (Nat.leb_spec 3 (length (fst (span (fun c => c =? Files.percent) l))))
    as [Hlen|Hlen]; [|done].
  destruct Hl. rewrite (span_app (fun c => c =? Files.percent) l).
  rewrite (span_replicate _ l Files.percent) by (by intros x ->%Z.eqb_eq).
  set (n := length _) in *.
  replace n with (3 + (n - 3))%nat by lia. rewrite replicate_add, <- app_assoc.
  by eexists.
Qed.

(** Inside a line no delimiter is looked for. *)
Lemma split_at_delimiter_within (t rest : str) : forall c,
  (c =? newline) = false -> no_newline t = true ->
  Files.split_at_delimiter (Some c) (t ++ newline :: rest)
  = match Files.split_at_delimiter (Some newline) rest with
    | Some (replacement_rules, main_content) =>
        Some (t ++ newline :: replacement_rules, main_content)
    | None => None
    end.
Proof.
  induction t as [|x t IH]; intros c Hc Ht; cbn [app Files.split_at_delimiter].
  - unfold Files.delimiter_then_newline. cbn [Re.at_line_start]. rewrite Hc. done.
  - unfold Files.delimiter_then_newline. cbn [Re.at_line_start]. rewrite Hc.
    cbn [no_newline forallb] in Ht. apply andb_true_iff in Ht as [Hx Ht].
    apply negb_true_iff in Hx. rewrite IH by done.
    by destruct (Files.split_at_delimiter (Some newline) rest) as [[r m]|].
Qed.

(** A line that does not start with three percent signs goes to the
    rules. *)
Lemma split_at_delimiter_line (prev : option Z) (l rest : str) :
  no_newline l = true -> ~ replicate 3 Files.percent `prefix_of` l ->
  Files.split_at_delimiter prev (l ++ newline :: rest)
  = match Files.split_at_delimiter (Some newline) rest with
    | Some (replacement_rules, main_content) =>
        Some (l ++ newline :: replacement_rules, main_content)
    | None => None
    end.
Proof.
  intros Hl Hp. pose proof (delimiter_then_newline_line prev l rest Hp) as Hd.
  destruct l as [|x l]; cbn [app Files.split_at_delimiter] in *; rewrite Hd.
  - done.
  - cbn [no_newline forallb] in Hl. apply andb_true_iff in Hl as [Hx Hl].
    apply negb_true_iff in Hx. rewrite split_at_delimiter_within by done.
    by destruct (Files.split_at_delimiter (Some newline) rest) as [[r m]|].
Qed.

Lemma split_at_delimiter_lines (rule_lines : list str) (k : nat) (main_content : str) :
  Forall (fun l => no_newline l = true
                   /\ ~ replicate 3 Files.percent `prefix_of` l) rule_lines ->
  (3 <= k)%nat ->
  forall prev, Re.at_line_start prev = true ->
  Files.split_at_delimiter prev
    (flat_map (fun l => l ++ [newline]) rule_lines
       ++ replicate k Files.percent ++ newline :: main_content)
  = Some (flat_map (fun l => l ++ [newline]) rule_lines, main_content).
Proof.
  intros Hlines Hk. induction Hlines as [|l ls [Hl Hp] _ IH]; intros prev Hprev.
  - cbn [flat_map app].
    pose proof (delimiter_then_newline_found prev k main_content Hprev Hk) as Hd.
    destruct k as [|k]; [lia|]. cbn [replicate app Files.split_at_delimiter] in *.
    by rewrite Hd.
  - cbn [flat_map]. rewrite <- !app_assoc. cbn [app].
    rewrite split_at_delimiter_line by done. by rewrite IH.
Qed.

(** The first line of three or more percent signs parts the rules from
    the content: the lines before it are the rules, and what follows its
    newline is the content, percent signs and all. *)
Theorem extract_rules_and_content_split
  (rule_lines : list str) (k : nat) (main_content : str) :
  Forall (fun l => no_newline l = true
                   /\ ~ replicate 3 Files.percent `prefix_of` l) rule_lines ->
  (3 <= k)%nat ->
  Files.extract_rules_and_content
    (flat_map (fun l => l ++ [newline]) rule_lines
       ++ replicate k Files.percent ++ newline :: main_content)
  = (Some (flat_map (fun l => l ++ [newline]) rule_lines), main_content).
Proof.
  intros Hlines Hk. unfold Files.extract_rules_and_content.
  by rewrite split_at_delimiter_lines.
Qed.

Lemma extract_rules_and_content_split_witness :
  Files.extract_rules_and_content
    (flat_map (fun l => l ++ [newline]) [str_of "%% a"; str_of "b"]
       ++ replicate 4 Files.percent ++ newline :: str_of "%%%")
  = (Some (flat_map (fun l => l ++ [newline]) [str_of "%% a"; str_of "b"]),
     str_of "%%%").
Proof.
  apply (extract_rules_and_content_split [str_of "%% a"; str_of "b"] 4 (str_of "%%%")).
  - repeat constructor; try reflexivity;
      intros H; apply (bool_decide_pack _) in H; vm_compute in H; exact H.
  - lia.
Defined.

Lemma split_at_delimiter_percents (k : nat) : forall prev,
  Files.split_at_delimiter prev (replicate k Files.percent) = None.
Proof.
  induction k as [|k IH]; intros prev.
  - cbn. unfold Files.delimiter_then_newline. by destruct (Re.at_line_start prev).
  - assert (Files.delimiter_then_newline prev (replicate (S k) Files.percent) = None)
      as Hd.
    { unfold Files.delimiter_then_newline. destruct (Re.at_line_start prev); [|done].
      rewrite <- (app_nil_r (replicate (S k) Files.percent)).
      rewrite span_forallb; [by destruct (3 <=? _)%nat | | done].
      apply forallb_forall. intros x Hx%list_elem_of_In%elem_of_replicate.
      by destruct Hx as [-> _]. }
    cbn [replicate Files.split_at_delimiter] in *. by rewrite Hd, IH.
Qed.

(** Percent signs are a delimiter only with a newline after them: a text
    with no percent sign but at its very end has no rules, and all of it is
    content. *)
Theorem extract_rules_and_content_no_delimiter (text : str) (k : nat) :
  Files.percent ∉ text ->
  Files.extract_rules_and_content (text ++ replicate k Files.percent)
  = (None, text ++ replicate k Files.percent).
Proof.
  intros Ht. unfold Files.extract_rules_and_content.
  assert (forall prev,
            Files.split_at_delimiter prev (text ++ replicate k Files.percent) = None)
    as ->; [|done].
  induction text as [|c text IH]; intros prev; [apply split_at_delimiter_percents|].
  apply not_elem_of_cons in Ht as [Hc Ht].
  cbn [app Files.split_at_delimiter]. unfold Files.delimiter_then_newline.
  cbn [span]. rewrite (proj2 (Z.eqb_neq c Files.percent)) by done.
  cbn [length]. rewrite IH by done. by destruct (Re.at_line_start prev).
Qed.

Lemma extract_rules_and_content_no_delimiter_witness :
  Files.extract_rules_and_content (str_of "a" ++ [newline] ++ replicate 3 Files.percent)
  = (None, str_of "a" ++ [newline] ++ replicate 3 Files.percent).
Proof.
  apply (extract_rules_and_content_no_delimiter (str_of "a" ++ [newline]) 3).
  apply (bool_decide_unpack _). vm_compute. reflexivity.
Defined.
(** ** File names *)

Section ScanSkip.
Context {G : Type} (m : Re.matcher G).

(** Passing over the rest of a match. *)
Lemma scan_skip_app (a b : str) : forall prev,
  a <> [] ->
  Re.scan m (a ++ b) (length a) prev = Re.scan m b 0 (last a).
Proof.
  induction a as [|c a IH]; intros prev Ha; [done|].
  cbn [app length Re.scan]. destruct a as [|c' a]; [done|].
  rewrite IH by done. done.
Qed.

Lemma sub_const_lits (repl s : str) :
  flat_map (fun ev : Re.event G => match ev with
                                   | Re.Lit c => [c]
                                   | Re.Hit _ _ => repl
                                   end) (map Re.Lit s) = s.
Proof. induction s as [|c s IH]; [done|]. cbn. by rewrite IH. Qed.
End ScanSkip.

Lemma span_all_app (p : Z -> bool) (l s : str) :
  forallb p l = true ->
  span p (l ++ s) = (l ++ fst (span p s), snd (span p s)).
Proof.
  intros Hl. induction l as [|x l IH]; cbn [app span].
  - by destruct (span p s).
  - cbn [forallb] in Hl. apply andb_true_iff in Hl as [-> Hl]. by rewrite IH.
Qed.

Lemma last_index_app (c : Z) (a b : str) :
  c ∉ b -> Files.last_index c (a ++ c :: b) = Some (length a).
Proof.
  intros Hb.
  assert (Files.last_index c b = None) as Hnone.
  { induction b as [|x b IH]; [done|]. apply not_elem_of_cons in Hb as [Hx Hb].
    cbn [Files.last_index]. rewrite IH by done.
    by rewrite (proj2 (Z.eqb_neq x c)). }
  induction a as [|x a IH]; cbn [app Files.last_index length].
  - by rewrite Hnone, Z.eqb_refl.
  - by rewrite IH.
Qed.

Lemma last_index_None (c : Z) (s : str) : c ∉ s -> Files.last_index c s = None.
Proof.
  induction s as [|x s IH]; [done|]. intros [Hx Hs]%not_elem_of_cons.
  cbn [Files.last_index]. rewrite IH by done. by rewrite (proj2 (Z.eqb_neq x c)).
Qed.

Lemma scan_directory_pattern_later (s : str) : forall x,
  Re.scan Files.directory_pattern s 0 (Some x) = map Re.Lit s.
Proof.
  induction s as [|c s IH]; intros x; [done|].
  cbn [Re.scan Files.directory_pattern map]. by rewrite IH.
Qed.

(** [extract_basename] drops the directories: of a name on one line it
    keeps what follows the last slash, and a name without a slash it
    keeps whole. *)
Theorem extract_basename_spec (directory base : str) :
  no_newline directory = true -> Files.slash ∉ base ->
  Files.extract_basename (directory ++ Files.slash :: base) = base
  /\ Files.extract_basename base = base.
Proof.
  intros Hd Hb. unfold Files.extract_basename, Re.sub_const. split.
  - assert (Files.directory_pattern false None (directory ++ Files.slash :: base)
            = Some (S (length directory), tt)) as Hm.
    { unfold Files.directory_pattern.
      rewrite span_all_app by done. cbn [span].
      change (negb (Files.slash =? newline)) with true. cbv iota.
      pose proof (span_app (fun c => negb (c =? newline)) base) as Hbase.
      destruct (span (fun c => negb (c =? newline)) base) as [line rest].
      cbn [fst snd] in *. rewrite last_index_app; [done|].
      intros Hin. apply Hb. rewrite Hbase. apply elem_of_app. by left. }
    destruct directory as [|x d].
    + cbn [app Re.scan] in *. rewrite Hm. cbn [length flat_map app].
      by rewrite scan_directory_pattern_later, sub_const_lits.
    + cbn [app Re.scan] in *. rewrite Hm. cbn [length flat_map app].
      replace (d ++ Files.slash :: base) with ((d ++ [Files.slash]) ++ base)
        by (by rewrite <- app_assoc).
      replace (S (length d)) with (length (d ++ [Files.slash]))
        by (rewrite length_app; cbn; lia).
      rewrite scan_skip_app by (by destruct d).
      destruct (last (d ++ [Files.slash])) as [y|] eqn:El.
      * by rewrite scan_directory_pattern_later, sub_const_lits.
      * rewrite last_snoc in El. done.
  - destruct base as [|c base]; [done|].
    cbn [Re.scan Files.directory_pattern].
    destruct (span (fun c0 => negb (c0 =? newline)) (c :: base)) as [line rest] eqn:E.
    rewrite last_index_None.
    + cbn [flat_map app]. by rewrite scan_directory_pattern_later, sub_const_lits.
    + intros Hin. apply Hb.
      rewrite (span_app (fun c0 => negb (c0 =? newline)) (c :: base)), E.
      apply elem_of_app. by left.
Qed.

Lemma extract_basename_spec_witness :
  Files.extract_basename (str_of "a/b.c" ++ Files.slash :: str_of "index")
  = str_of "index"
  /\ Files.extract_basename (str_of "index") = str_of "index".
Proof.
  apply (extract_basename_spec (str_of "a/b.c") (str_of "index")).
  - reflexivity.
  - apply (bool_decide_unpack _). vm_compute. reflexivity.
Defined.
Lemma str_eqb_length (a b : str) : length a <> length b -> str_eqb a b = false.
Proof. intros H. apply str_eqb_ne. by intros ->. Qed.

Lemma scan_index_pattern_later (s : str) : forall x,
  (forall i, drop i s <> str_of "/index") ->
  Re.scan Files.index_pattern s 0 (Some x) = map Re.Lit s.
Proof.
  induction s as [|c s IH]; intros x H.
  - reflexivity.
  - cbn [Re.scan map].
    assert (Files.index_pattern false (Some x) (c :: s) = None) as ->.
    { unfold Files.index_pattern.
      rewrite (str_eqb_ne (c :: s) (str_of "/index")) by apply (H 0%nat).
      by rewrite bool_decide_eq_false_2. }
    rewrite IH; [done|]. intros i. apply (H (S i)).
Qed.

Lemma scan_index_pattern_suffix (directory : str) : forall prev,
  Re.scan Files.index_pattern (directory ++ str_of "/index") 0 prev
  = map Re.Lit directory ++ [Re.Hit (str_of "/index") [Files.slash]].
Proof.
  induction directory as [|c d IH]; intros prev.
  - destruct prev; reflexivity.
  - cbn [app Re.scan map].
    assert (Files.index_pattern false prev (c :: d ++ str_of "/index") = None) as ->.
    { unfold Files.index_pattern.
      rewrite (str_eqb_length (c :: d ++ str_of "/index") (str_of "index"))
        by (cbn [length]; rewrite length_app; cbn; lia).
      rewrite (str_eqb_length (c :: d ++ str_of "/index") (str_of "/index"))
        by (cbn [length]; rewrite length_app; cbn; lia).
      by rewrite andb_false_r. }
    by rewrite IH.
Qed.

Lemma join_events_app_lits {G} (repl : str -> G -> py str) (s : str)
  (evs : list (Re.event G)) :
  Re.join_events repl (map Re.Lit s ++ evs) = (app s) <$> Re.join_events repl evs.
Proof.
  induction s as [|c s IH]; cbn [map app].
  - destruct (Re.join_events repl evs) as [w [a|e]]; [|done].
    unfold fmap, py_fmap, Py.bind, Py.ret. by rewrite app_nil_r.
  - rewrite join_events_lit, IH.
    destruct (Re.join_events repl evs) as [w [a|e]]; [|done].
    unfold fmap, py_fmap, Py.bind, Py.ret. by rewrite !app_nil_r.
Qed.

(** [make_clean_url] takes a final [index] off a name that is [index] or
    ends with [/index], and keeps the separator; every other name is
    returned as it is. *)
Theorem make_clean_url_spec (cmd_name : str) :
  Files.make_clean_url cmd_name
  = mret (if str_eqb cmd_name (str_of "index") then []
          else if bool_decide (str_of "/index" `suffix_of` cmd_name)
               then take (length cmd_name - 5) cmd_name
               else cmd_name).
Proof.
  unfold Files.make_clean_url, Re.sub.
  destruct (str_eqb cmd_name (str_of "index")) eqn:E.
  { unfold str_eqb in E. apply bool_decide_eq_true in E as ->. reflexivity. }
  case_bool_decide as Hs.
  - destruct Hs as [directory ->].
    rewrite scan_index_pattern_suffix, join_events_app_lits.
    rewrite join_events_hit, py_bind_ret. cbn [Re.join_events foldr].
    rewrite py_bind_ret. rewrite py_fmap_ret.
    assert (take (length (directory ++ str_of "/index") - 5)
              (directory ++ str_of "/index") = directory ++ [Files.slash]) as ->.
    { rewrite length_app. change (length (str_of "/index")) with 6%nat.
      change (str_of "/index") with ([Files.slash] ++ str_of "index").
      rewrite app_assoc.
      replace (length directory + 6 - 5)%nat with (length (directory ++ [Files.slash]))
        by (rewrite length_app; cbn; lia).
      apply take_app_length. }
    by rewrite app_nil_r.
  - destruct cmd_name as [|c s]; [reflexivity|].
    cbn [Re.scan].
    assert (Files.index_pattern false None (c :: s) = None) as ->.
    { unfold Files.index_pattern. rewrite E, andb_false_r.
      by rewrite str_eqb_ne by (intros Heq; apply Hs; by rewrite Heq). }
    rewrite scan_index_pattern_later.
    + apply (join_lits _ (c :: s)).
    + intros i Heq. apply Hs. exists (take (S i) (c :: s)).
      rewrite <- Heq. change (drop i s) with (drop (S i) (c :: s)).
      by rewrite take_drop.
Qed.

Lemma literal_matches_character (old c : Z) (s : str) :
  OrdinaryDictionaryReplacement.literal_matches false [old] (c :: s) = (c =? old).
Proof.
  unfold OrdinaryDictionaryReplacement.literal_matches, startswith.
  cbn [strip_prefix andb negb]. rewrite (Z.eqb_sym old c), andb_true_r.
  by destruct (c =? old).
Qed.

Lemma str_replace_character (old new : Z) (s : str) :
  OrdinaryDictionaryReplacement.str_replace [old] [new] s
  = map (fun c => if c =? old then new else c) s.
Proof.
  unfold OrdinaryDictionaryReplacement.str_replace, Re.sub_const.
  generalize (@None Z) as prev.
  induction s as [|c s IH]; intros prev; [done|].
  cbn [Re.scan map]. rewrite literal_matches_character.
  destruct (c =? old); cbn [length flat_map app]; by rewrite IH.
Qed.

Lemma scan_cmd_extension (cmd_name : str) : forall prev,
  Re.scan Files.cmd_extension_pattern (cmd_name ++ str_of ".cmd") 0 prev
  = map Re.Lit cmd_name ++ [Re.Hit (str_of ".cmd") tt].
Proof.
  induction cmd_name as [|c n IH]; intros prev; [reflexivity|].
  cbn [app Re.scan map].
  assert (Files.cmd_extension_pattern false prev (c :: n ++ str_of ".cmd") = None) as ->.
  { unfold Files.cmd_extension_pattern.
    by rewrite (str_eqb_length (c :: n ++ str_of ".cmd") (str_of ".cmd"))
      by (cbn [length]; rewrite length_app; cbn; lia). }
  by rewrite IH.
Qed.

(** Of a file name that ends with [.cmd],
    [extract_separator_normalised_cmd_name] keeps the name before that
    extension (and only the last extension is taken off), with every
    backslash turned into a slash. *)
Theorem extract_separator_normalised_cmd_name_spec (cmd_name : str) :
  Files.extract_separator_normalised_cmd_name (cmd_name ++ str_of ".cmd")
  = map (fun c => if c =? Files.backslash then Files.slash else c) cmd_name.
Proof.
  unfold Files.extract_separator_normalised_cmd_name.
  cbv zeta. rewrite <- str_replace_character. f_equal.
  unfold Re.sub_const. rewrite scan_cmd_extension, flat_map_app, sub_const_lits.
  cbn. apply app_nil_r.
Qed.

(** ** The two modes of an ordinary dictionary replacement *)

(** What is reported of a match is the text matched. *)
Lemma scan_hit_texts {G} (m : Re.matcher G) (Q : str -> G -> Prop) (s : str) :
  (forall adv prev i n g,
      m adv prev (drop i s) = Some (n, g) -> Q (take n (drop i s)) g) ->
  forall skip prev,
    Forall (fun ev => match ev with Re.Hit t g => Q t g | Re.Lit _ => True end)
      (Re.scan m s skip prev).
Proof.
  induction s as [|c s IH]; intros H skip prev; cbn [Re.scan].
  - destruct skip; [|constructor].
    destruct (m false prev []) as [[n g]|] eqn:E; constructor; [|constructor].
    pose proof (H false prev 0%nat n g E) as HQ. by destruct n.
  - assert (forall skip prev,
              Forall (fun ev => match ev with
                                | Re.Hit t g => Q t g
                                | Re.Lit _ => True
                                end) (Re.scan m s skip prev)) as IH'.
    { apply IH. intros adv p i. apply (H adv p (S i)). }
    destruct skip; [|apply IH'].
    destruct (m false prev (c :: s)) as [[[|n] g]|] eqn:E.
    + constructor; [apply (H false prev 0%nat _ g E)|].
      destruct (m true prev (c :: s)) as [[[|n'] g']|] eqn:E';
        repeat (constructor; try done); try apply IH'.
      apply (H true prev 0%nat _ g' E').
    + constructor; [apply (H false prev 0%nat _ g E) | apply IH'].
    + constructor; [done | apply IH'].
Qed.

Lemma join_events_const {G} (repl : str -> G -> py str) (r : str)
  (evs : list (Re.event G)) :
  Forall (fun ev => match ev with
                    | Re.Hit t g => repl t g = mret r
                    | Re.Lit _ => True
                    end) evs ->
  Re.join_events repl evs
  = mret (flat_map (fun ev => match ev with
                              | Re.Lit c => [c]
                              | Re.Hit _ _ => r
                              end) evs).
Proof.
  induction 1 as [|[c|t g] evs Hev _ IH]; [done| |].
  - by rewrite join_events_lit, IH.
  - rewrite join_events_hit, Hev, IH. by rewrite !py_bind_ret.
Qed.

(** With one substitution and no concluding replacements the two modes do
    the same: replacing simultaneously is replacing the one pattern
    everywhere, as [str.replace] does. *)
Theorem single_substitution_modes_agree (self : OrdinaryDictionaryReplacement.t)
  (pattern substitute string : str) :
  _substitute_from_pattern self = [(pattern, substitute)] ->
  _concluding_replacements self = [] ->
  simultaneous_apply self string = sequential_apply self string
  /\ sequential_apply self string = mret (str_replace pattern substitute string).
Proof.
  intros Hd Hc. unfold simultaneous_apply, sequential_apply. rewrite Hd, Hc.
  cbn [length Nat.ltb Nat.leb foldl apply_each]. split; [|done].
  unfold Re.sub, str_replace, Re.sub_const.
  change (build_simultaneous_regex_pattern [(pattern, substitute)])
    with (fun (adv : bool) (_ : option Z) (s : str) =>
            if literal_matches adv pattern s
            then Some (length pattern, tt) else None).
  apply join_events_const. apply scan_hit_texts.
  intros adv prev i n []. destruct (literal_matches adv pattern _) eqn:E; [|done].
  intros [= <-]. apply literal_matches_prefix in E as [k ->].
  rewrite take_app_length. unfold build_simultaneous_substitute_function.
  cbn [dict_get]. rewrite str_eqb_refl, Hc. done.
Qed.

Lemma single_substitution_modes_agree_witness :
  simultaneous_apply (simultaneous [(str_of "a", str_of "bb")] []) (str_of "banana")
  = sequential_apply (simultaneous [(str_of "a", str_of "bb")] []) (str_of "banana")
  /\ sequential_apply (simultaneous [(str_of "a", str_of "bb")] []) (str_of "banana")
     = mret (str_replace (str_of "a") (str_of "bb") (str_of "banana")).
Proof.
  apply (single_substitution_modes_agree (simultaneous [(str_of "a", str_of "bb")] [])
           (str_of "a") (str_of "bb") (str_of "banana"));
    reflexivity.
Defined.

(** ** Examples *)

Example protect_pound :
  PlaceholderMaster.protect [0xA3] = ([], Ok [0xF8FF; 0xE0C2; 0xE0A3; 0xF8FF]).
Proof. vm_compute. reflexivity. Qed.

Example unprotect_astral :
  PlaceholderMaster.unprotect [0xF8FF; 0xE0F0; 0xE090; 0xE08D; 0xE088; 0xF8FF]
  = ([], Ok [0x10348]).
Proof. vm_compute. reflexivity. Qed.

Example de_indent_example :
  DeIndent.de_indent (str_of "  a" ++ [10] ++ str_of "   b" ++ [10; 10] ++ str_of "    ")
  = str_of "a" ++ [10] ++ str_of " b" ++ [10; 10].
Proof. vm_compute. reflexivity. Qed.

Example build_attributes_sequence_example :
  Attributes.build_attributes_sequence example_specifications false
  = mret example_sequence.
Proof. vm_compute. reflexivity. Qed.
